(** * Flow-sensitive checks of staticcheck ([lint.go])

    A shallow embedding of the checks of [lint.go] that reason about the
    SSA form and the syntax tree of a function:

    - [consts] and [CheckPredeterminedBooleanExprs] (constant resolution
      through conversions and phis, comparisons that are always true or
      always false);
    - [CheckInfiniteRecursion] (self calls that dominate every return);
    - [CheckIneffectiveLoop] (loops that are left unconditionally);
    - [CheckIneffecitiveFieldAssignments] (stores to fields of a value
      receiver that are never read);
    - [CheckIneffectiveAppend] (results of [append] that only feed other
      appends).

    Part I holds the model, one module per check; Part II the properties
    proved about it. *)

From Stdlib Require Import ZArith.
From stdpp Require Import gmap strings list relations sorting.

(** * Part I. The model *)

(** ** [go/token]: the operator and keyword tokens the checks look at *)

Module token.

Inductive Token : Set :=
| ADD | SUB | MUL
| EQL | LSS | GTR | NEQ | LEQ | GEQ
| BREAK | CONTINUE | GOTO | FALLTHROUGH.

#[global] Instance Token_eq_dec : EqDecision Token.
Proof. solve_decision. Defined.

End token.

(** ** [go/constant]: a model of the library's integer and boolean constants

    The package is not part of the repository.  [consts] and the
    comparison check are stated for an arbitrary type of constant values
    and an arbitrary [Compare]; this module is the instance the examples
    run on.  A [constant.Value] is an interface: [None] is the nil
    interface.  [Compare] returns [None] where the library panics: on a
    nil operand, on operands of different kinds, and on an operator the
    kind does not have. *)

Module constant.
Import token.

Inductive Value : Set :=
| int64Val (x : Z)
| boolVal (b : bool).

#[global] Instance Value_eq_dec : EqDecision Value.
Proof. solve_decision. Defined.

Definition compareInt (x : Z) (op : Token) (y : Z) : option bool :=
  match op with
  | EQL => Some (x =? y)%Z
  | NEQ => Some (negb (x =? y)%Z)
  | LSS => Some (x <? y)%Z
  | LEQ => Some (x <=? y)%Z
  | GTR => Some (y <? x)%Z
  | GEQ => Some (y <=? x)%Z
  | _ => None
  end.

Definition compareBool (x : bool) (op : Token) (y : bool) : option bool :=
  match op with
  | EQL => Some (Bool.eqb x y)
  | NEQ => Some (negb (Bool.eqb x y))
  | _ => None
  end.

Definition Compare (x : option Value) (op : Token) (y : option Value) : option bool :=
  match x, y with
  | Some (int64Val a), Some (int64Val b) => compareInt a op b
  | Some (boolVal a), Some (boolVal b) => compareBool a op b
  | _, _ => None
  end.

End constant.

(** ** Constant resolution and comparisons with a fixed outcome

    [consts] (lint.go:1381) and [CheckPredeterminedBooleanExprs]
    (lint.go:1254). *)

Module Consts.
Import token.

Section Model.
Context {cval : Type} `{!EqDecision cval}.

(** [*ssa.Const]: a type and a [constant.Value], nil for the zero value
    of a pointer-like type. *)
Record Const : Type := mkConst { typ : string; CValue : option cval }.

(** The SSA values the checks meet.  A phi is named by its register
    ([val.Name()], which [consts] uses as its identity); its operands
    live in the function, since phis are where the value graph has its
    cycles.  The operand of every other instruction is a value defined
    before it. *)
Inductive Value : Type :=
| Phi (name : string)
| VConst (c : Const)
| Convert (X : Value)
| BinOp (Op : Token) (X Y : Value)
| UnOp (Op : Token) (X : Value)
| Param (name : string)
| Call (callee : string).

(** The part of an [*ssa.Function] constant resolution reads: the edges
    of each of its phis. *)
Record Function : Type := mkFunction { Phis : gmap string (list Value) }.

(** [val.Operands(nil)] of the phi called [name]. *)
Definition Operands (fn : Function) (name : string) : list Value :=
  default [] (Phis fn !! name).

(** The loop of lines 1413-1418 over [out[1:]]: [last] is
    [uniq[len(uniq)-1]]. *)
Fixpoint uniqLoop (last : Const) (rest : list Const) : list Const :=
  match rest with
  | [] => []
  | val :: rest' =>
      if decide (CValue val = CValue last) then uniqLoop last rest'
      else val :: uniqLoop val rest'
  end.

(** Lines 1409-1419: what [consts] returns for the collected [out]. *)
Definition uniq (out : list Const) : list Const :=
  if decide (length out < 2) then out
  else match out with
       | [] => []
       | first :: rest => first :: uniqLoop first rest
       end.

(** The result of a call of [consts]: [(out, true)] with the map of
    visited phis as the call left it (the map is shared by the whole
    query), [(nil, false)], or no result within the given depth. *)
Inductive outcome : Type :=
| Known (out : list Const) (visitedPhis : gset string)
| Unknown
| NoFuel.

(** Lines 1393-1398: the loop over the operands of a phi, [rec] being
    the recursive call. *)
Fixpoint phiLoop (rec : Value → list Const → gset string → outcome)
    (vals : list Value) (out : list Const) (visitedPhis : gset string) : outcome :=
  match vals with
  | [] => Known out visitedPhis
  | phival :: vals' =>
      match rec phival out visitedPhis with
      | Known out' visitedPhis' => phiLoop rec vals' out' visitedPhis'
      | Unknown => Unknown
      | NoFuel => NoFuel
      end
  end.

(** [consts] (lines 1381-1420).  [fuel] bounds the nesting of phis under
    resolution; the descent through a conversion is structural. *)
Fixpoint consts (fn : Function) (fuel : nat) : Value → list Const → gset string → outcome :=
  fix go (val : Value) (out : list Const) (visitedPhis : gset string) : outcome :=
    match val with
    | Phi name =>
        if decide (name ∈ visitedPhis) then Known (uniq out) visitedPhis
        else match fuel with
             | O => NoFuel
             | S fuel' =>
                 match phiLoop (consts fn fuel') (Operands fn name) out ({[name]} ∪ visitedPhis) with
                 | Known out' visitedPhis' => Known (uniq out') visitedPhis'
                 | Unknown => Unknown
                 | NoFuel => NoFuel
                 end
             end
    | VConst c => Known (uniq (out ++ [c])) visitedPhis
    | Convert X =>
        match go X out visitedPhis with
        | Known out' visitedPhis' => Known (uniq out') visitedPhis'
        | Unknown => Unknown
        | NoFuel => NoFuel
        end
    | _ => Unknown
    end.

(** [consts(val, nil, nil)], the query of line 1274: a phi is entered at
    most once, so one more level than the function has phis is enough
    (see [constsNil_total]). *)
Definition constsNil (fn : Function) (val : Value) : outcome :=
  consts fn (S (size (Phis fn))) val [] ∅.

(** What the check reports for one binary expression: nothing, the
    message of line 1296 ("... is always [b] for all possible values
    ([xs] [op] [ys])"), or a panic raised by [constant.Compare]. *)
Inductive Report : Type :=
| Silent
| Problem (b : bool) (xs : list Const) (op : Token) (ys : list Const)
| Panic.

Variable Compare : option cval → Token → option cval → option bool.

(** Lines 1283-1291, the body of the inner loop: whether the pair adds
    one to [trues]. *)
Definition pairTrue (x : Const) (op : Token) (y : Const) : option bool :=
  match CValue x with
  | None =>
      match CValue y with
      | None => Some true
      | Some _ => Some false
      end
  | Some _ => Compare (CValue x) op (CValue y)
  end.

(** Lines 1282-1292: the inner loop. *)
Fixpoint countYs (x : Const) (op : Token) (ys : list Const) (trues : nat) : option nat :=
  match ys with
  | [] => Some trues
  | y :: ys' =>
      match pairTrue x op y with
      | Some true => countYs x op ys' (S trues)
      | Some false => countYs x op ys' trues
      | None => None
      end
  end.

(** Lines 1281-1293: the outer loop. *)
Fixpoint countXs (xs : list Const) (op : Token) (ys : list Const) (trues : nat) : option nat :=
  match xs with
  | [] => Some trues
  | x :: xs' =>
      match countYs x op ys trues with
      | Some trues' => countXs xs' op ys trues'
      | None => None
      end
  end.

(** Line 1261: the operators the check looks at. *)
Definition isComparison (op : Token) : bool :=
  match op with
  | GTR | LSS | EQL | NEQ | LEQ | GEQ => true
  | _ => false
  end.

(** [CheckPredeterminedBooleanExprs] at one [*ast.BinaryExpr] with
    operator [Op]: [fn] is [f.EnclosingSSAFunction(binop)] and
    [ValueForExpr] the SSA value of the expression in it. *)
Definition CheckPredeterminedBooleanExprs (Op : Token) (fn : option Function)
    (ValueForExpr : option Value) : Report :=
  if isComparison Op then
    match fn with
    | None => Silent
    | Some fn =>
        match ValueForExpr with
        | Some (BinOp ssaOp X Y) =>
            match constsNil fn X, constsNil fn Y with
            | Known xs _, Known ys _ =>
                if decide (length xs = 0 ∨ length ys = 0) then Silent
                else match countXs xs ssaOp ys 0 with
                     | None => Panic
                     | Some trues =>
                         if decide (trues = 0 ∨ trues = length xs * length ys)
                         then Problem (negb (Nat.eqb trues 0)) xs Op ys
                         else Silent
                     end
            | _, _ => Silent
            end
        | _ => Silent
        end
    end
  else Silent.

(** *** Vocabulary to state what [consts] computes, and the invariant
    of its traversal *)

(** The constant values of a list of constants. *)
Definition values (l : list Const) : list (option cval) := CValue <$> l.

(** No two neighbours of the list hold the same constant value. *)
Fixpoint distinctNeighbours (l : list Const) : Prop :=
  match l with
  | [] => True
  | a :: l' =>
      match l' with
      | [] => True
      | b :: _ => CValue b ≠ CValue a ∧ distinctNeighbours l'
      end
  end.

(** One step of the resolution: from a conversion to its operand, from
    a phi to one of its incoming operands. *)
Definition operandOf (fn : Function) (v w : Value) : Prop :=
  match v with
  | Convert X => w = X
  | Phi name => w ∈ Operands fn name
  | _ => False
  end.

(** [w] is met when [v] is resolved without regard to the visited
    phis. *)
Definition feeds (fn : Function) (v w : Value) : Prop := rtc (operandOf fn) v w.

(** The instructions [consts] gives up on (the [default] case of its
    type switch). *)
Definition notResolved (v : Value) : Prop :=
  match v with
  | Phi _ | VConst _ | Convert _ => False
  | _ => True
  end.

(** [v] is accounted for by the list [O] and the visited phis [V]: below
    its conversions stands a constant of [O] or a phi of [V]. *)
Fixpoint settled (O : list Const) (V : gset string) (v : Value) : Prop :=
  match v with
  | VConst c => CValue c ∈ values O
  | Convert X => settled O V X
  | Phi name => name ∈ V
  | _ => False
  end.

(** Every phi visited since [V0] has all its operands accounted for. *)
Definition closedSince (fn : Function) (V0 V : gset string) (O : list Const) : Prop :=
  ∀ name e, name ∈ V → name ∉ V0 → e ∈ Operands fn name → settled O V e.

(** What a successful call establishes. *)
Definition knownPost (fn : Function) (srcs : Value → Prop) (out : list Const)
    (V : gset string) (out' : list Const) (V' : gset string) : Prop :=
  V ⊆ V'
  ∧ (∀ x, x ∈ values out → x ∈ values out')
  ∧ (∀ x, x ∈ values out' →
       x ∈ values out ∨ ∃ v c, srcs v ∧ CValue c = x ∧ feeds fn v (VConst c))
  ∧ (∀ v, srcs v → settled out' V' v)
  ∧ closedSince fn V V' out'.

End Model.

Arguments Const : clear implicits.
Arguments Value : clear implicits.
Arguments Function : clear implicits.
Arguments outcome : clear implicits.
Arguments Report : clear implicits.

(** *** A function over integer constants *)

Definition intConst (z : Z) : Const constant.Value :=
  mkConst "int" (Some (constant.int64Val z)).

Definition nilConst (typ : string) : Const constant.Value := mkConst typ None.

(** [t0 = phi [5, 5]]; [t1 = phi [1, 2]]; [t2 = phi [1, 2, 1]]; the
    counter of a loop, [t3 = phi [0, t3 + 1]]; and [t4 = phi [t1, 1]],
    the value of [x] after
    <<
      x := 1; if a { x = 2 }; if b { x = 1 }
    >> *)
Definition exampleFn : Function constant.Value :=
  mkFunction
    (<["t0" := [VConst (intConst 5); VConst (intConst 5)]]>
     (<["t1" := [VConst (intConst 1); VConst (intConst 2)]]>
      (<["t2" := [VConst (intConst 1); VConst (intConst 2); VConst (intConst 1)]]>
       (<["t3" := [VConst (intConst 0); BinOp ADD (Phi "t3") (VConst (intConst 1))]]>
        (<["t4" := [Phi "t1"; VConst (intConst 1)]]> ∅))))).

(** The check at the comparison [X Op Y] of [exampleFn]. *)
Definition exampleReport (Op : Token) (X Y : Value constant.Value) : Report constant.Value :=
  CheckPredeterminedBooleanExprs constant.Compare Op (Some exampleFn) (Some (BinOp Op X Y)).

End Consts.

(** ** Self calls that cannot be followed by a return

    [CheckInfiniteRecursion] (lint.go:2117). *)

Module Recursion.

(** [call.Common().Value]: an [*ssa.Function], named by its unique
    name in the program, or any other value. *)
Inductive Callee : Type :=
| FunctionValue (name : string)
| OtherCallee.

Inductive Instruction : Type :=
| Call (IsInvoke : bool) (Value : Callee)
| Return
| Jump
| If
| OtherInstruction.

(** An [*ssa.BasicBlock]: [Index] is its position in [Blocks] of its
    function, [Succs] the indices of its successors. *)
Record BasicBlock : Type :=
  mkBlock { Index : nat; Instrs : list Instruction; Succs : list nat }.

Record Function : Type := mkFunction { Name : string; Blocks : list BasicBlock }.

Section Check.

(** [block.Dominates(b)], which the SSA package answers from the
    dominator tree it built for the function. *)
Variable Dominates : BasicBlock → BasicBlock → bool.

(** Lines 2132-2142: [ins] is a static call of [ssafn] itself. *)
Definition isSelfCall (ssafn : Function) (ins : Instruction) : bool :=
  match ins with
  | Call false (FunctionValue name) => bool_decide (name = Name ssafn)
  | _ => false
  end.

(** Lines 2149-2152: [b] has instructions and the last is a return. *)
Definition endsInReturn (b : BasicBlock) : bool :=
  match last (Instrs b) with
  | Some Return => true
  | _ => false
  end.

(** Lines 2144-2156: the loop that sets [canReturn]. *)
Fixpoint canReturn (block : BasicBlock) (blocks : list BasicBlock) : bool :=
  match blocks with
  | [] => false
  | b :: rest =>
      if Dominates block b then canReturn block rest
      else if endsInReturn b then true
      else canReturn block rest
  end.

(** Lines 2131-2161: the loop over the instructions of [block]; the
    [i]-th instruction of the block with index [n] is reported as
    [(n, i)]. *)
Fixpoint instrLoop (ssafn : Function) (block : BasicBlock) (i : nat)
    (instrs : list Instruction) : list (nat * nat) :=
  match instrs with
  | [] => []
  | ins :: rest =>
      (if isSelfCall ssafn ins && negb (canReturn block (Blocks ssafn))
       then [(Index block, i)] else [])
      ++ instrLoop ssafn block (S i) rest
  end.

(** Lines 2130-2162: the loop over the blocks. *)
Fixpoint blockLoop (ssafn : Function) (blocks : list BasicBlock) : list (nat * nat) :=
  match blocks with
  | [] => []
  | block :: rest => instrLoop ssafn block 0 (Instrs block) ++ blockLoop ssafn rest
  end.

(** [CheckInfiniteRecursion] at one [*ast.FuncDecl]; [ssafn] is
    [f.EnclosingSSAFunction(fn)].  The result lists the calls reported
    as "infinite recursive call". *)
Definition CheckInfiniteRecursion (ssafn : option Function) : list (nat * nat) :=
  match ssafn with
  | None => []
  | Some ssafn =>
      if decide (length (Blocks ssafn) = 0) then []
      else blockLoop ssafn (Blocks ssafn)
  end.

End Check.

(** *** Control flow of a function, to state what the check decides *)

(** [b] is a successor of [a] in the function. *)
Definition edge (fn : Function) (a b : BasicBlock) : Prop :=
  a ∈ Blocks fn ∧ b ∈ Blocks fn ∧ Index b ∈ Succs a.

(** A path of the control-flow graph, as the list of its blocks. *)
Fixpoint isPath (fn : Function) (a : BasicBlock) (rest : list BasicBlock) : Prop :=
  match rest with
  | [] => True
  | b :: rest' => edge fn a b ∧ isPath fn b rest'
  end.

(** [a] dominates [b]: every path from the entry block to [b] passes
    through [a]. *)
Definition dominates (fn : Function) (a b : BasicBlock) : Prop :=
  ∀ entry rest, head (Blocks fn) = Some entry → isPath fn entry rest →
    last (entry :: rest) = Some b → a ∈ entry :: rest.

(** [func f() { f(); return }] with the return in a block of its own:
    block 0 calls [f] and jumps to block 1, which returns. *)
Definition callThenReturn : Function :=
  mkFunction "f"
    [ mkBlock 0 [Call false (FunctionValue "f"); Jump] [1];
      mkBlock 1 [Return] [] ].

(** The dominance relation of [callThenReturn]. *)
Definition callThenReturnDominates (a b : BasicBlock) : bool :=
  bool_decide (Index a ≤ Index b).

End Recursion.

(** ** Loops that are left unconditionally

    [CheckIneffectiveLoop] (lint.go:1538). *)

Module Loop.
Import token.

(** [TypeInfo.TypeOf(node.X).Underlying()], as far as the check looks
    at it. *)
Inductive Underlying : Set := Map | Slice | Array | String | Chan | Pointer.

(** The syntax tree of a function body.  [id] stands for the address
    of the node: the check compares nodes by pointer, and reports a
    node.  A label is the [*ast.Object] it resolves to.  [ForStmt] and
    [RangeStmt] keep the statements of their body ([Body.List]) apart
    from their other children; [OtherNode] is any other statement or
    expression (a block, a type switch, a function literal, ...). *)
#[local] Unset Elimination Schemes.
Inductive Node : Type :=
| BranchStmt (id : nat) (Tok : Token) (Label : option nat)
| ReturnStmt (id : nat) (Results : list Node)
| IfStmt (id : nat) (parts : list Node)
| SwitchStmt (id : nat) (parts : list Node)
| SelectStmt (id : nat) (parts : list Node)
| ForStmt (id : nat) (Header : list Node) (Body : list Node)
| RangeStmt (id : nat) (Header : list Node) (TypeOfX : option Underlying) (Body : list Node)
| LabeledStmt (id : nat) (Label : nat) (Stmt : Node)
| OtherNode (id : nat) (parts : list Node).
#[local] Set Elimination Schemes.

Definition nodeId (n : Node) : nat :=
  match n with
  | BranchStmt id _ _ | ReturnStmt id _ | IfStmt id _ | SwitchStmt id _
  | SelectStmt id _ | ForStmt id _ _ | RangeStmt id _ _ _
  | LabeledStmt id _ _ | OtherNode id _ => id
  end.

(** The children of a node, in the order [ast.Inspect] visits them. *)
Definition children (n : Node) : list Node :=
  match n with
  | BranchStmt _ _ _ => []
  | ReturnStmt _ l | IfStmt _ l | SwitchStmt _ l | SelectStmt _ l | OtherNode _ l => l
  | ForStmt _ h b | RangeStmt _ h _ b => h ++ b
  | LabeledStmt _ _ s => [s]
  end.

(** [ast.Inspect(node, f)] for a callback [f] that updates a state and
    says whether to descend. *)
Fixpoint Inspect {S : Type} (f : Node → S → S * bool) (node : Node) (s : S) : S :=
  let all := fix all (l : list Node) (s : S) : S :=
    match l with
    | [] => s
    | n :: l' => all l' (Inspect f n s)
    end in
  match f node s with
  | (s', false) => s'
  | (s', true) =>
      match node with
      | BranchStmt _ _ _ => s'
      | ReturnStmt _ l | IfStmt _ l | SwitchStmt _ l | SelectStmt _ l | OtherNode _ l =>
          all l s'
      | ForStmt _ h b | RangeStmt _ h _ b => all b (all h s')
      | LabeledStmt _ _ st => Inspect f st s'
      end
  end.

(** [ast.Inspect] over the statements of a block. *)
Definition InspectList {S : Type} (f : Node → S → S * bool) (l : list Node) (s : S) : S :=
  foldl (λ s n, Inspect f n s) s l.

(** Lines 1556-1563: the callback that fills [labels], from the object
    of a label to the statement it labels. *)
Definition recordLabel (node : Node) (labels : gmap nat nat) : gmap nat nat * bool :=
  match node with
  | LabeledStmt _ label stmt => (<[label := nodeId stmt]> labels, true)
  | _ => (labels, true)
  end.

(** [stmt.Label == nil || labels[stmt.Label.Obj] == loop]. *)
Definition targets (labels : gmap nat nat) (loop : nat) (Label : option nat) : bool :=
  match Label with
  | None => true
  | Some l => bool_decide (labels !! l = Some loop)
  end.

(** Lines 1595-1614: the loop over the statements of the body, from the
    values of [unconditionalExit] and [hasBranching] so far; [None] is
    the [return false] of line 1606. *)
Fixpoint directScan (labels : gmap nat nat) (loop : nat) (stmts : list Node)
    (unconditionalExit : option nat) (hasBranching : bool) : option (option nat * bool) :=
  match stmts with
  | [] => Some (unconditionalExit, hasBranching)
  | stmt :: rest =>
      match stmt with
      | BranchStmt id BREAK Label =>
          if targets labels loop Label
          then directScan labels loop rest (Some id) hasBranching
          else directScan labels loop rest unconditionalExit hasBranching
      | BranchStmt id CONTINUE Label =>
          if targets labels loop Label then None
          else directScan labels loop rest unconditionalExit hasBranching
      | ReturnStmt id _ => directScan labels loop rest (Some id) hasBranching
      | IfStmt _ _ | ForStmt _ _ _ | RangeStmt _ _ _ _ | SwitchStmt _ _ | SelectStmt _ _ =>
          directScan labels loop rest unconditionalExit true
      | _ => directScan labels loop rest unconditionalExit hasBranching
      end
  end.

(** Lines 1618-1634: the callback of the walk over the body. *)
Definition exitGuard (labels : gmap nat nat) (loop : nat) (node : Node)
    (unconditionalExit : option nat) : option nat * bool :=
  match node with
  | BranchStmt _ GOTO _ => (None, false)
  | BranchStmt _ CONTINUE Label =>
      match Label with
      | Some l =>
          if bool_decide (labels !! l = Some loop) then (None, false)
          else (unconditionalExit, true)
      | None => (None, false)
      end
  | _ => (unconditionalExit, true)
  end.

(** Lines 1587-1638, for the loop [loop] with the body [body]: the
    statement reported, if any, and what the callback returns. *)
Definition checkLoop (labels : gmap nat nat) (loop : nat) (body : list Node) : option nat * bool :=
  if decide (length body < 2) then (None, true)
  else match directScan labels loop body None false with
       | None => (None, false)
       | Some (unconditionalExit, hasBranching) =>
           match unconditionalExit with
           | None => (None, false)
           | Some _ =>
               if negb hasBranching then (None, false)
               else (InspectList (exitGuard labels loop) body unconditionalExit, true)
           end
       end.

(** Lines 1565-1639: the callback of the walk over the function body. *)
Definition visit (labels : gmap nat nat) (node : Node) : option nat * bool :=
  match node with
  | ForStmt id _ body => checkLoop labels id body
  | RangeStmt id _ typ body =>
      match typ with
      | None => (None, true)
      | Some Map => (None, true)
      | Some _ => checkLoop labels id body
      end
  | _ => (None, true)
  end.

(** The same callback, collecting the statements reported as "the
    surrounding loop is unconditionally terminated". *)
Definition report (labels : gmap nat nat) (node : Node) (problems : list nat) : list nat * bool :=
  match visit labels node with
  | (Some exit, descend) => (problems ++ [exit], descend)
  | (None, descend) => (problems, descend)
  end.

(** [CheckIneffectiveLoop] at one [*ast.FuncDecl] whose body, if it has
    one, holds the statements [Body]. *)
Definition CheckIneffectiveLoop (Body : option (list Node)) : list nat :=
  match Body with
  | None => []
  | Some body =>
      let labels := InspectList recordLabel body ∅ in
      InspectList (report labels) body []
  end.

(** *** Vocabulary to state what the check decides *)

(** [m] is [n] or stands below it in the tree. *)
Definition within (n m : Node) : Prop := rtc (λ a b, b ∈ children a) n m.

(** [m] is [n], or stands below it and the walk of the check gets to
    it: the callback asked to descend at every node above it. *)
Definition walked (labels : gmap nat nat) (n m : Node) : Prop :=
  rtc (λ a b, (visit labels a).2 = true ∧ b ∈ children a) n m.

(** A statement that leaves the loop [loop]: a return, or a break that
    is not labelled or whose label is the loop's. *)
Definition isExit (labels : gmap nat nat) (loop : nat) (stmt : Node) : Prop :=
  match stmt with
  | ReturnStmt _ _ => True
  | BranchStmt _ BREAK Label => targets labels loop Label = true
  | _ => False
  end.

(** The statements line 1611 counts as branching. *)
Definition isBranching (stmt : Node) : Prop :=
  match stmt with
  | IfStmt _ _ | ForStmt _ _ _ | RangeStmt _ _ _ _ | SwitchStmt _ _ | SelectStmt _ _ => True
  | _ => False
  end.

(** A goto, or a continue that is not labelled or whose label is the
    loop's. *)
Definition defeatsExit (labels : gmap nat nat) (loop : nat) (node : Node) : Prop :=
  match node with
  | BranchStmt _ GOTO _ => True
  | BranchStmt _ CONTINUE Label => targets labels loop Label = true
  | _ => False
  end.

(** [p] is the last statement of [stmts] that leaves the loop. *)
Definition lastExit (labels : gmap nat nat) (loop : nat) (stmts : list Node) (p : nat) : Prop :=
  ∃ pre x post, stmts = pre ++ x :: post ∧ isExit labels loop x ∧ nodeId x = p
                ∧ ∀ s, s ∈ post → ¬ isExit labels loop s.

(** A loop the check examines: a [for] statement, or a [range]
    statement over an operand whose type is known and is not a map. *)
Definition examinedLoop (node : Node) (loop : nat) (body : list Node) : Prop :=
  match node with
  | ForStmt id _ b => id = loop ∧ b = body
  | RangeStmt id _ (Some typ) b => typ ≠ Map ∧ id = loop ∧ b = body
  | _ => False
  end.

(** The callback of a walk that gets to every node and lists them. *)
Definition collect (node : Node) (ids : list nat) : list nat * bool :=
  (ids ++ [nodeId node], true).

(** The identities of a node and of the nodes below it, and those of
    the nodes of a block.  The nodes of a syntax tree are distinct
    objects: for a tree of the program this list has no duplicates. *)
Definition nodeIdsOf (node : Node) : list nat := Inspect collect node [].

Definition nodeIds (l : list Node) : list nat := InspectList collect l [].

(** The statements the callback reports at one node. *)
Definition reported (labels : gmap nat nat) (node : Node) : list nat :=
  match (visit labels node).1 with
  | Some exit => [exit]
  | None => []
  end.

(** *** How the scan of the body treats a statement *)

Inductive StmtClass : Set := AContinue | AnExit | ABranching | Plain.

Definition classify (labels : gmap nat nat) (loop : nat) (stmt : Node) : StmtClass :=
  match stmt with
  | BranchStmt _ BREAK Label => if targets labels loop Label then AnExit else Plain
  | BranchStmt _ CONTINUE Label => if targets labels loop Label then AContinue else Plain
  | ReturnStmt _ _ => AnExit
  | IfStmt _ _ | ForStmt _ _ _ | RangeStmt _ _ _ _ | SwitchStmt _ _ | SelectStmt _ _ =>
      ABranching
  | _ => Plain
  end.

(** A continue among the statements of the body that is not labelled
    or whose label is the loop's. *)
Definition directContinue (labels : gmap nat nat) (loop : nat) (stmt : Node) : Prop :=
  match stmt with
  | BranchStmt _ CONTINUE Label => targets labels loop Label = true
  | _ => False
  end.

(** *** Three functions

    [mapRangeBody]:
    <<
      for k := range m { if k > 0 { n++ }; return }
    >>
    with [m] a map. *)
Definition mapRangeBody : list Node :=
  [ RangeStmt 1 [OtherNode 2 []] (Some Map)
      [ IfStmt 3 [OtherNode 4 []]; ReturnStmt 5 [] ] ].

(** [sliceRangeBody]: the same loop over a slice. *)
Definition sliceRangeBody : list Node :=
  [ RangeStmt 1 [OtherNode 2 []] (Some Slice)
      [ IfStmt 3 [OtherNode 4 []]; ReturnStmt 5 [] ] ].

(** [nestedBody]:
    <<
      for { n++; for { if c { n++ }; return } }
    >> *)
Definition nestedBody : list Node :=
  [ ForStmt 1 []
      [ OtherNode 2 [];
        ForStmt 3 [] [ IfStmt 4 [OtherNode 5 []]; ReturnStmt 6 [] ] ] ].

(** [labelledContinueBody]:
    <<
      L: for { if c { continue L }; return }
    >>
    where the label [L] is the object 7. *)
Definition labelledContinueBody : list Node :=
  [ LabeledStmt 1 7
      (ForStmt 2 []
         [ IfStmt 3 [OtherNode 4 []; BranchStmt 5 CONTINUE (Some 7)]; ReturnStmt 6 [] ]) ].

End Loop.

(** ** Stores to fields of a value receiver that are never read

    [CheckIneffecitiveFieldAssignments] (lint.go:1095). *)

Module Fields.
Import token.

(** [recv.Type().Underlying()]: a struct with the names of its fields,
    or anything else. *)
Inductive Underlying : Type :=
| Struct (fields : list string)
| NotStruct.

(** The SSA values the check looks at.  [id] stands for the address of
    the value, which the maps of the check are keyed by; [pos] is
    [Pos()]. *)
Inductive Value : Type :=
| Param (id : nat) (typ : Underlying)
| Alloc (id : nat) (Heap : bool)
| FieldAddr (id : nat) (pos : nat) (X : Value) (Field : nat)
| UnOp (id : nat) (pos : nat) (Op : Token) (X : Value)
| OtherValue (id : nat).

Definition valueId (v : Value) : nat :=
  match v with
  | Param id _ | Alloc id _ | FieldAddr id _ _ _ | UnOp id _ _ _ | OtherValue id => id
  end.

(** An instruction: a store, an instruction that is a value, or any
    other. *)
Inductive Instruction : Type :=
| Store (Addr Val : Value)
| Define (v : Value)
| OtherInstruction.

(** A block is named by its index in [Blocks]; [Succs] holds the
    indices of its successors. *)
Record BasicBlock : Type := mkBlock { Instrs : list Instruction; Succs : list nat }.

(** [Locals] holds the [Heap] flag of each local; [DomPreorder] is the
    result of [ssafn.DomPreorder()], the blocks in a preorder of the
    dominator tree. *)
Record Function : Type :=
  mkFunction {
    Params : list Value;
    Locals : list bool;
    Blocks : list BasicBlock;
    DomPreorder : list nat
  }.

(** An [*ast.FuncDecl]: whether it has a receiver, and the SSA function
    of its object. *)
Record FuncDecl : Type := mkFuncDecl { Recv : bool; ssafn : option Function }.

Definition instrsOf (fn : Function) (block : nat) : list Instruction :=
  match Blocks fn !! block with
  | Some b => Instrs b
  | None => []
  end.

Definition succsOf (fn : Function) (block : nat) : list nat :=
  match Blocks fn !! block with
  | Some b => Succs b
  | None => []
  end.

(** The maps of lines 1114-1123: [reads] and [writes] map a block to a
    set of values, [recvPtrs] is a set of values. *)
Record Facts : Type :=
  mkFacts {
    recvPtrs : gset nat;
    reads : gmap nat (gmap nat Value);
    writes : gmap nat (gmap nat Value)
  }.

(** [m[block][v] = true]. *)
Definition record (block : nat) (v : Value) (m : gmap nat (gmap nat Value)) :
    gmap nat (gmap nat Value) :=
  <[block := <[valueId v := v]> (default ∅ (m !! block))]> m.

(** Lines 1129-1134: [if m[block] == nil { m[block] = map... }]. *)
Definition touch (block : nat) (m : gmap nat (gmap nat Value)) : gmap nat (gmap nat Value) :=
  match m !! block with
  | Some _ => m
  | None => <[block := ∅]> m
  end.

(** Lines 1137-1166: one instruction of the block. *)
Definition scanInstr (block : nat) (ins : Instruction) (st : Facts) : Facts :=
  match ins with
  | Store Addr Val =>
      let ptrs :=
        if decide (valueId Val ∈ recvPtrs st) then {[valueId Addr]} ∪ recvPtrs st
        else recvPtrs st in
      match Addr with
      | FieldAddr _ _ X _ =>
          if decide (valueId X ∈ ptrs)
          then mkFacts ptrs (reads st) (record block Addr (writes st))
          else mkFacts ptrs (reads st) (writes st)
      | _ => mkFacts ptrs (reads st) (writes st)
      end
  | Define (UnOp id pos MUL X) =>
      if decide (valueId X ∈ recvPtrs st)
      then mkFacts (recvPtrs st) (record block (UnOp id pos MUL X) (reads st)) (writes st)
      else match X with
           | FieldAddr _ _ X' _ =>
               if decide (valueId X' ∈ recvPtrs st)
               then mkFacts (recvPtrs st) (record block X (reads st)) (writes st)
               else st
           | _ => st
           end
  | _ => st
  end.

(** Lines 1128-1168: the loop over the blocks. *)
Definition scanBlock (fn : Function) (st : Facts) (block : nat) : Facts :=
  foldl (λ st ins, scanInstr block ins st)
        (mkFacts (recvPtrs st) (touch block (reads st)) (touch block (writes st)))
        (instrsOf fn block).

Definition scan (fn : Function) (recv : Value) : Facts :=
  foldl (scanBlock fn) (mkFacts {[valueId recv]} ∅ ∅) (DomPreorder fn).

(** Lines 1176-1185: whether [read] makes [hasRead] return true for
    [write]. *)
Definition readsField (write read : Value) : bool :=
  match write, read with
  | FieldAddr _ wpos _ wField, FieldAddr _ rpos _ rField =>
      bool_decide (rField = wField) && bool_decide (wpos < rpos)
  | FieldAddr _ wpos _ _, UnOp _ rpos _ _ => bool_decide (wpos ≤ rpos)
  | _, _ => false
  end.

(** Lines 1175-1186: the loop over [reads[block]]; it returns true
    when some entry does, whatever the order of the entries. *)
Definition readInBlock (rd : gmap nat (gmap nat Value)) (block : nat) (write : Value) : bool :=
  existsb (λ entry, readsField write entry.2) (map_to_list (default ∅ (rd !! block))).

(** Lines 1187-1193: the loop over the successors, [rec] being the
    recursive call; the result is the value returned and [seen]. *)
Fixpoint succLoop (rec : nat → gset nat → option (bool * gset nat))
    (succs : list nat) (seen : gset nat) : option (bool * gset nat) :=
  match succs with
  | [] => Some (false, seen)
  | succ :: rest =>
      if decide (succ ∈ seen) then succLoop rec rest seen
      else match rec succ seen with
           | Some (true, seen') => Some (true, seen')
           | Some (false, seen') => succLoop rec rest seen'
           | None => None
           end
  end.

(** [hasRead] (lines 1173-1195); [seen] is the map the closure
    captures.  [fuel] bounds the depth of the recursion; [None] is no
    result within it. *)
Fixpoint hasRead (fn : Function) (rd : gmap nat (gmap nat Value)) (fuel : nat)
    (block : nat) (write : Value) (seen : gset nat) : option (bool * gset nat) :=
  match fuel with
  | O => None
  | S fuel' =>
      if readInBlock rd block write then Some (true, {[block]} ∪ seen)
      else succLoop (λ succ seen', hasRead fn rd fuel' succ write seen')
                    (succsOf fn block) ({[block]} ∪ seen)
  end.

(** A block is entered once for a write, so this depth is enough (see
    [hasRead_never_out_of_fuel]). *)
Definition depth (fn : Function) : nat := length (Blocks fn) + 2.

(** A run of the check: the problems reported, each the store and the
    name of the field; a run may end in a panic, after the problems
    reported so far. *)
Inductive Run : Type :=
| Finished (problems : list (nat * string))
| Panicked (problems : list (nat * string))
| NoFuel.

(** The name of field [i] of the struct type of the receiver (line
    1199); [None] where [Field(i)] panics. *)
Definition fieldName (recv : Value) (i : nat) : option string :=
  match recv with
  | Param _ (Struct fields) => fields !! i
  | _ => None
  end.

(** Lines 1196-1202: the loop over the writes of [block], in the order
    [ws]; [seen] is made once per block, before this loop. *)
Fixpoint writeLoop (fn : Function) (rd : gmap nat (gmap nat Value)) (recv : Value)
    (block : nat) (ws : list (nat * Value)) (seen : gset nat)
    (problems : list (nat * string)) : Run :=
  match ws with
  | [] => Finished problems
  | (_, write) :: rest =>
      match write with
      | FieldAddr id _ _ Field =>
          match hasRead fn rd (depth fn) block write seen with
          | None => NoFuel
          | Some (true, seen') => writeLoop fn rd recv block rest seen' problems
          | Some (false, seen') =>
              match fieldName recv Field with
              | Some name =>
                  writeLoop fn rd recv block rest seen' (problems ++ [(id, name)])
              | None => Panicked problems
              end
          end
      | _ => Panicked problems
      end
  end.

Section Check.

(** The order in which [range] yields the entries of a Go map is not
    specified: [rangeBlocks] and [rangeWrites] give the order of the
    two loops of lines 1170 and 1196 over the entries of their map. *)
Variable rangeBlocks : list (nat * gmap nat Value) → list (nat * gmap nat Value).
Variable rangeWrites : nat → list (nat * Value) → list (nat * Value).

(** Lines 1170-1203: the loop over the blocks that have writes. *)
Fixpoint blockLoop (fn : Function) (rd : gmap nat (gmap nat Value)) (recv : Value)
    (bs : list (nat * gmap nat Value)) (problems : list (nat * string)) : Run :=
  match bs with
  | [] => Finished problems
  | (block, ws) :: rest =>
      match writeLoop fn rd recv block (rangeWrites block (map_to_list ws)) ∅ problems with
      | Finished problems' => blockLoop fn rd recv rest problems'
      | Panicked problems' => Panicked problems'
      | NoFuel => NoFuel
      end
  end.

(** [CheckIneffecitiveFieldAssignments] at one [*ast.FuncDecl]. *)
Definition CheckIneffecitiveFieldAssignments (decl : FuncDecl) : Run :=
  if Recv decl then
    match ssafn decl with
    | None => Finished []
    | Some fn =>
        if decide (length (Blocks fn) = 0) then Finished []
        else match Params fn with
             | [] => Panicked []
             | recv :: _ =>
                 match recv with
                 | Param _ (Struct _) =>
                     match Locals fn with
                     | [] => Finished []
                     | true :: _ => Finished []
                     | false :: _ =>
                         let st := scan fn recv in
                         blockLoop fn (reads st) recv
                                   (rangeBlocks (map_to_list (writes st))) []
                     end
                 | _ => Finished []
                 end
             end
    end
  else Finished [].

End Check.

(** *** Vocabulary to state what the check decides *)

(** Control can pass from block [a] to block [b]. *)
Definition flows (fn : Function) (a b : nat) : Prop :=
  rtc (λ x y, y ∈ succsOf fn x) a b.

(** The store through [write] in [block] is one the check tracks. *)
Definition trackedStore (st : Facts) (block : nat) (write : Value) : Prop :=
  ∃ ws k, writes st !! block = Some ws ∧ ws !! k = Some write.

(** [block] holds a read the check tracks that counts for [write]: a
    load of the same field at a later position, or a load of the whole
    receiver at the same or a later position. *)
Definition readFor (st : Facts) (write : Value) (block : nat) : Prop :=
  ∃ rs k read, reads st !! block = Some rs ∧ rs !! k = Some read
               ∧ readsField write read = true.

(** No block that control can reach from [block] holds a read that
    counts for [write]. *)
Definition deadStore (fn : Function) (st : Facts) (block : nat) (write : Value) : Prop :=
  ¬ ∃ block', flows fn block block' ∧ readFor st write block'.

(** No block holds two stores the check tracks. *)
Definition oneStorePerBlock (st : Facts) : Prop :=
  ∀ block ws, writes st !! block = Some ws → size ws ≤ 1.

(** The declaration passes the tests of lines 1101-1126: it is a method
    whose SSA function has blocks, whose receiver [recv] is a struct
    with the fields [fields], and whose first local is not on the
    heap. *)
Definition analysed (decl : FuncDecl) (fn : Function) (recv : Value) (fields : list string) : Prop :=
  Recv decl = true ∧ ssafn decl = Some fn ∧ Blocks fn ≠ []
  ∧ (∃ id params, recv = Param id (Struct fields) ∧ Params fn = recv :: params)
  ∧ (∃ locals, Locals fn = false :: locals).

(** Every field a tracked store names is a field of the receiver. *)
Definition fieldsInRange (st : Facts) (fields : list string) : Prop :=
  ∀ block id pos X Field,
    trackedStore st block (FieldAddr id pos X Field) → Field < length fields.

(** *** Invariants of the search and of the scan *)

(** The blocks entered since [S] hold no read for the write and have
    all their successors in [S']. *)
Definition searched (fn : Function) (rd : gmap nat (gmap nat Value)) (write : Value)
    (S S' : gset nat) : Prop :=
  ∀ n, n ∈ S' → n ∉ S →
    readInBlock rd n write = false ∧ ∀ s, s ∈ succsOf fn n → s ∈ S'.

(** The valid indices of blocks. *)
Definition blockIndices (fn : Function) : gset nat := set_seq 0 (length (Blocks fn)).

Definition isFieldAddr (v : Value) : Prop :=
  match v with
  | FieldAddr _ _ _ _ => True
  | _ => False
  end.

(** Every entry of [writes] is a [FieldAddr]. *)
Definition writesAreFieldAddrs (m : gmap nat (gmap nat Value)) : Prop :=
  ∀ block ws k w, m !! block = Some ws → ws !! k = Some w → isFieldAddr w.

(** *** Three methods of [type T struct { Name string; Age int }]

    The receiver [t] is the parameter 0, kept in the local 1.

    [setName]:
    <<
      func (t T) setName(s string) { t.Name = s }
    >> *)
Definition recvT : Value := Param 0 (Struct ["Name"; "Age"]).

Definition localT (heap : bool) : Value := Alloc 1 heap.

Definition setName (heap : bool) : Function :=
  mkFunction [recvT; OtherValue 2] [heap]
    [ mkBlock [ Define (localT heap);
                Store (localT heap) recvT;
                Define (FieldAddr 3 10 (localT heap) 0);
                Store (FieldAddr 3 10 (localT heap) 0) (OtherValue 2);
                OtherInstruction ] [] ]
    [0].

(** [setBoth]:
    <<
      func (t T) setBoth(c bool) {
        t.Name = "x"; t.Age = 1
        if c { println(t.Name, t.Age) }
      }
    >>
    Block 0 stores to both fields and branches to blocks 1 and 2;
    block 1 loads both fields and jumps to block 2, which returns. *)
Definition setBoth : Function :=
  mkFunction [recvT; OtherValue 2] [false]
    [ mkBlock [ Define (localT false);
                Store (localT false) recvT;
                Define (FieldAddr 3 10 (localT false) 0);
                Store (FieldAddr 3 10 (localT false) 0) (OtherValue 20);
                Define (FieldAddr 4 11 (localT false) 1);
                Store (FieldAddr 4 11 (localT false) 1) (OtherValue 21);
                OtherInstruction ] [1; 2];
      mkBlock [ Define (FieldAddr 5 12 (localT false) 0);
                Define (UnOp 6 12 MUL (FieldAddr 5 12 (localT false) 0));
                Define (FieldAddr 7 13 (localT false) 1);
                Define (UnOp 8 13 MUL (FieldAddr 7 13 (localT false) 1));
                OtherInstruction ] [2];
      mkBlock [ OtherInstruction ] [] ]
    [0; 1; 2].

(** Two orders in which a loop may range over the entries of a map: by
    ascending and by descending key. *)
Definition ascending {A : Type} (l : list (nat * A)) : list (nat * A) :=
  @merge_sort _ (λ a b, a.1 ≤ b.1) (λ a b, decide (a.1 ≤ b.1)) l.

Definition descending {A : Type} (l : list (nat * A)) : list (nat * A) :=
  @merge_sort _ (λ a b, b.1 ≤ a.1) (λ a b, decide (b.1 ≤ a.1)) l.

(** Two runs of the check: both range over the blocks in ascending
    order; the first ranges over the writes of a block in ascending
    order, the second in descending order. *)
Definition ascendingRun : FuncDecl → Run :=
  CheckIneffecitiveFieldAssignments ascending (λ _, ascending).

Definition descendingRun : FuncDecl → Run :=
  CheckIneffecitiveFieldAssignments ascending (λ _, descending).

End Fields.

(** ** Results of append that only feed other appends

    [CheckIneffectiveAppend] (lint.go:1771). *)

Module Append.

(** The expressions the check tells apart.  An identifier carries its
    name and the object it denotes ([TypesInfo.ObjectOf]); a call
    carries the SSA value [ssafn.ValueForExpr] finds for it, if any. *)
Inductive Expr : Type :=
| Ident (Name : string) (obj : nat)
| CallExpr (Fun : Expr) (value : option nat)
| OtherExpr.

Record AssignStmt : Type := mkAssign { Lhs : list Expr; Rhs : list Expr }.

(** [call.Call.Value]: a builtin, or any other value. *)
Inductive Callee : Type :=
| Builtin (name : string)
| OtherCallee.

(** The instructions that refer to a value, as [walkRefs] tells them
    apart. *)
Inductive Instruction : Type :=
| DebugRef
| Phi
| Call (IsInvoke : bool) (Value : Callee)
| OtherValue.

(** An instruction with the instructions that refer to its value. *)
Record Node : Type := mkNode { ins : Instruction; Referrers : list nat }.

(** An [*ssa.Function]: [Instrs] lists, by address, its debug
    references and the instructions that are values; an address that
    is not listed is an instruction that is not a value (a store, a
    return, ...).  [Results] holds the objects of the results when
    [ssafn.Object()] is a [*types.Func]. *)
Record Function : Type :=
  mkFunction { Instrs : gmap nat Node; Results : option (list nat) }.

(** Lines 1803-1815. *)
Definition isAppend (i : Instruction) : bool :=
  match i with
  | Call false (Builtin name) => bool_decide (name = "append")
  | _ => false
  end.

(** Lines 1821-1842: the loop over [refs], [rec] being the recursive
    call; the state is [isUsed] and [visited], which the closure
    captures.  The last case is the [break loop]. *)
Fixpoint refLoop (rec : list nat → bool → gset nat → option (bool * gset nat))
    (fn : Function) (refs : list nat) (isUsed : bool) (visited : gset nat) :
    option (bool * gset nat) :=
  match refs with
  | [] => Some (isUsed, visited)
  | ref :: rest =>
      if decide (ref ∈ visited) then refLoop rec fn rest isUsed visited
      else
        match Instrs fn !! ref with
        | Some (mkNode DebugRef _) => refLoop rec fn rest isUsed ({[ref]} ∪ visited)
        | Some (mkNode Phi referrers) =>
            match rec referrers isUsed ({[ref]} ∪ visited) with
            | Some (isUsed', visited') => refLoop rec fn rest isUsed' visited'
            | None => None
            end
        | Some (mkNode i referrers) =>
            if isAppend i then
              match rec referrers isUsed ({[ref]} ∪ visited) with
              | Some (isUsed', visited') => refLoop rec fn rest isUsed' visited'
              | None => None
              end
            else refLoop rec fn rest true ({[ref]} ∪ visited)
        | None => Some (true, {[ref]} ∪ visited)
        end
  end.

(** [walkRefs] (lines 1819-1843).  [fuel] bounds the depth of the
    recursion; [None] is no result within it. *)
Fixpoint walkRefs (fn : Function) (fuel : nat) (refs : list nat) (isUsed : bool)
    (visited : gset nat) : option (bool * gset nat) :=
  match fuel with
  | O => None
  | S fuel' => refLoop (walkRefs fn fuel') fn refs isUsed visited
  end.

(** An instruction is walked through once, so this depth is enough
    (see [walkRefs_never_out_of_fuel]). *)
Definition depth (fn : Function) : nat := S (size (Instrs fn)).

(** Lines 1793-1802: the identifier is a named result of the
    function. *)
Definition isNamedResult (fn : Function) (obj : nat) : bool :=
  match Results fn with
  | Some res => bool_decide (obj ∈ res)
  | None => false
  end.

(** [CheckIneffectiveAppend] at one [*ast.AssignStmt]; [ssafn] is
    [f.EnclosingSSAFunction(assign)].  The result says whether "this
    result of append is never used, except maybe in other appends" is
    reported. *)
Definition CheckIneffectiveAppend (assign : AssignStmt) (ssafn : option Function) : bool :=
  match Lhs assign, Rhs assign with
  | [Ident Name obj], [CallExpr (Ident callName _) value] =>
      if decide (Name = "_") then false
      else if decide (callName = "append") then
        match ssafn with
        | None => false
        | Some fn =>
            if isNamedResult fn obj then false
            else match value with
                 | None => false
                 | Some expr =>
                     match Instrs fn !! expr with
                     | None => false
                     | Some node =>
                         match walkRefs fn (depth fn) (Referrers node) false ∅ with
                         | Some (isUsed, _) => negb isUsed
                         | None => false
                         end
                     end
                 end
        end
      else false
  | _, _ => false
  end.

(** *** Vocabulary to state what the check decides *)

(** [b] refers to the value of [a], and [a] is a phi or a call of
    append: the walk goes from [a] to [b]. *)
Definition feeds (fn : Function) (a b : nat) : Prop :=
  ∃ node, Instrs fn !! a = Some node
          ∧ (ins node = Phi ∨ isAppend (ins node) = true)
          ∧ b ∈ Referrers node.

(** An instruction that uses the value: not a debug reference, a phi
    or a call of append. *)
Definition consumer (fn : Function) (r : nat) : Prop :=
  match Instrs fn !! r with
  | None => True
  | Some node =>
      match ins node with
      | DebugRef | Phi => False
      | i => isAppend i = false
      end
  end.

(** Some instruction that uses the value is reached from [refs]. *)
Definition reachesConsumer (fn : Function) (refs : list nat) : Prop :=
  ∃ r0 r, r0 ∈ refs ∧ rtc (feeds fn) r0 r ∧ consumer fn r.

(** *** The cases of the loop, and the invariant of the walk *)

(** How the loop treats an instruction it has not visited. *)
Inductive RefClass : Type :=
| Skipped
| WalkedThrough (referrers : list nat)
| Used
| NotAValue.

Definition classifyRef (fn : Function) (ref : nat) : RefClass :=
  match Instrs fn !! ref with
  | Some (mkNode DebugRef _) => Skipped
  | Some (mkNode Phi referrers) => WalkedThrough referrers
  | Some (mkNode i referrers) => if isAppend i then WalkedThrough referrers else Used
  | None => NotAValue
  end.

(** The instructions visited since [V] use nothing and have all the
    instructions the walk goes to from them in [V']. *)
Definition walkedThrough (fn : Function) (V V' : gset nat) : Prop :=
  ∀ n, n ∈ V' → n ∉ V → ¬ consumer fn n ∧ ∀ m, feeds fn n m → m ∈ V'.

(** What a call that leaves [isUsed] false establishes. *)
Definition unusedPost (fn : Function) (refs : list nat) (isUsed : bool)
    (V V' : gset nat) : Prop :=
  isUsed = false ∧ V ⊆ V' ∧ (∀ r, r ∈ refs → r ∈ V') ∧ walkedThrough fn V V'.

(** *** Two functions

    [appendOnly]: in a loop, [xs = append(xs, 1)], and [xs] is never
    used.  The call is the instruction 10, the phi of [xs] at the head
    of the loop the instruction 11; each refers to the other.
    [appendThenPanic]: the same with [xs] a named result (the object
    1) of a function that ends in a panic. *)
Definition appendCall : Instruction := Call false (Builtin "append").

Definition appendOnly : Function :=
  mkFunction (<[10 := mkNode appendCall [11; 12]]>
              (<[11 := mkNode Phi [10]]>
               (<[12 := mkNode DebugRef []]> ∅)))
             (Some []).

Definition appendThenPanic : Function :=
  mkFunction (Instrs appendOnly) (Some [1]).

(** [xs = append(xs, 1)], and then [return xs]: the return is the
    instruction 13, which is not a value. *)
Definition appendThenReturn : Function :=
  mkFunction (<[10 := mkNode appendCall [11; 13]]>
              (<[11 := mkNode Phi [10]]> ∅))
             (Some []).

Definition assignAppend : AssignStmt :=
  mkAssign [Ident "xs" 1] [CallExpr (Ident "append" 0) (Some 10)].

End Append.

(** ** Values that are assigned and never read

    [filterDebug] (lint.go:1371) and [CheckUnreadVariableValues]
    (lint.go:1210), over the functions of [Append]: a value that is
    listed in [Instrs] has the referrers of its entry; [Referrers()] of
    any other value (a constant, a global, a function) is nil. *)

Module Unread.
Import Append.

(** Whether [ins] is an [*ssa.DebugRef] (line 1374). *)
Definition isDebugRef (fn : Function) (ins : nat) : bool :=
  match Instrs fn !! ins with
  | Some (mkNode DebugRef _) => true
  | _ => false
  end.

(** [filterDebug] (lines 1371-1379). *)
Definition filterDebug (fn : Function) (instr : list nat) : list nat :=
  foldl (λ out ins, if isDebugRef fn ins then out else out ++ [ins]) [] instr.

(** An [*ast.AssignStmt]: its left-hand sides, and for each right-hand
    side what [ssafn.ValueForExpr] finds for it, if anything. *)
Record AssignStmt : Type := mkAssign { Lhs : list Expr; Rhs : list (option nat) }.

(** Lines 1228-1246: the loop over the left-hand sides, from the
    position [i]; the result lists the positions reported as "this
    value of ... is never used".  The loop ends at a value whose
    [Referrers()] is nil (line 1241). *)
Fixpoint lhsLoop (fn : Function) (i : nat) (lhs : list Expr) (rhs : list (option nat)) :
    list nat :=
  match lhs, rhs with
  | l :: lhs', r :: rhs' =>
      match l with
      | Ident Name _ =>
          if decide (Name = "_") then lhsLoop fn (S i) lhs' rhs'
          else match r with
               | None => lhsLoop fn (S i) lhs' rhs'
               | Some val =>
                   match Instrs fn !! val with
                   | None => []
                   | Some node =>
                       (if decide (length (filterDebug fn (Referrers node)) = 0)
                        then [i] else [])
                       ++ lhsLoop fn (S i) lhs' rhs'
                   end
               end
      | _ => lhsLoop fn (S i) lhs' rhs'
      end
  | _, _ => []
  end.

(** The callback of lines 1220-1248 at one [*ast.AssignStmt]; [ssafn]
    is [f.EnclosingSSAFunction(fn)]. *)
Definition CheckUnreadVariableValues (ssafn : option Function) (assign : AssignStmt) :
    list nat :=
  match ssafn with
  | None => []
  | Some fn =>
      if decide (length (Lhs assign) ≠ length (Rhs assign)) then []
      else lhsLoop fn 0 (Lhs assign) (Rhs assign)
  end.

(** *** Vocabulary *)

(** The position [j] of the assignment ends the loop: its left-hand
    side is an identifier other than the blank one, and its value has
    no list of referrers. *)
Definition endsLoop (fn : Function) (assign : AssignStmt) (j : nat) : Prop :=
  ∃ Name obj val, Lhs assign !! j = Some (Ident Name obj) ∧ Name ≠ "_"
                  ∧ Rhs assign !! j = Some (Some val) ∧ Instrs fn !! val = None.

End Unread.

(** ** Data that [binary.Write] cannot encode

    [validEncodingBinaryType] (lint.go:328) and [CheckEncodingBinary]
    (lint.go:289). *)

Module Binary.

(** [types.BasicKind]. *)
Inductive BasicKind : Set :=
| Invalid
| Bool | Int | Int8 | Int16 | Int32 | Int64
| Uint | Uint8 | Uint16 | Uint32 | Uint64 | Uintptr
| Float32 | Float64 | Complex64 | Complex128
| String | UnsafePointer
| UntypedBool | UntypedInt | UntypedRune | UntypedFloat | UntypedComplex
| UntypedString | UntypedNil.

(** [types.Type], as far down as the check looks: a named type holds
    its underlying type. *)
#[local] Unset Elimination Schemes.
Inductive Typ : Type :=
| Basic (kind : BasicKind)
| Array (len : Z) (elem : Typ)
| Slice (elem : Typ)
| Struct (fields : list Typ)
| Pointer (elem : Typ)
| Tuple
| Signature
| Interface
| Map (key elem : Typ)
| Chan (elem : Typ)
| Named (name : string) (underlying : Typ).
#[local] Set Elimination Schemes.

(** [typ.Underlying()]: the type itself unless it is a named type. *)
Fixpoint Underlying (typ : Typ) : Typ :=
  match typ with
  | Named _ underlying => Underlying underlying
  | _ => typ
  end.

(** The method [Elem() types.Type], for the types that have it. *)
Definition Elem (typ : Typ) : option Typ :=
  match typ with
  | Array _ elem | Slice elem | Pointer elem | Map _ elem | Chan elem => Some elem
  | _ => None
  end.

(** Lines 333-336: the kinds of basic types that are valid. *)
Definition validKind (kind : BasicKind) : bool :=
  match kind with
  | Uint8 | Uint16 | Uint32 | Uint64
  | Int8 | Int16 | Int32 | Int64
  | Float32 | Float64 | Complex64 | Complex128 | Invalid => true
  | _ => false
  end.

(** [validEncodingBinaryType] (lines 328-354).  The step from a named
    type to its underlying type is line 329; see
    [validEncodingBinaryType_unfold] for the function in the shape of
    the source. *)
Fixpoint validEncodingBinaryType (typ : Typ) : bool :=
  match typ with
  | Named _ underlying => validEncodingBinaryType underlying
  | Basic kind => validKind kind
  | Struct fields => forallb validEncodingBinaryType fields
  | Array _ elem => validEncodingBinaryType elem
  | Interface => true
  | _ => false
  end.

(** Lines 306-316: the type handed to [validEncodingBinaryType] for
    data of type [typ]: below one pointer, and then below one array,
    slice, map or channel. *)
Definition dataType (typ : Typ) : Typ :=
  let dataType := Underlying typ in
  let dataType :=
    match dataType with
    | Pointer elem => Underlying elem
    | _ => dataType
    end in
  match Elem dataType with
  | Some elem =>
      match dataType with
      | Pointer _ => dataType
      | _ => elem
      end
  | None => dataType
  end.

(** [CheckEncodingBinary] at one call expression: [isWrite] says that
    the function called is [binary.Write], [Args] holds
    [TypesInfo.TypeOf] of each argument.  The result says whether
    "type ... cannot be used with binary.Write" is reported. *)
Definition CheckEncodingBinary (isWrite : bool) (Args : list (option Typ)) : bool :=
  if isWrite then
    match Args with
    | [_; _; typ] =>
        match typ with
        | None => false
        | Some typ => negb (validEncodingBinaryType (dataType typ))
        end
    | _ => false
    end
  else false.

(** *** Vocabulary *)

(** [u] is a part of [t] that is encoded with it: the underlying type
    of a named type, a field of a struct, the element of an array. *)
Definition partOf (t u : Typ) : Prop :=
  match t with
  | Named _ underlying => u = underlying
  | Struct fields => u ∈ fields
  | Array _ elem => u = elem
  | _ => False
  end.

(** The types that have no parts. *)
Definition isLeaf (t : Typ) : Prop :=
  match t with
  | Named _ _ | Struct _ | Array _ _ => False
  | _ => True
  end.

(** The leaves that are valid: an interface, or a basic type of a
    valid kind. *)
Definition validLeaf (t : Typ) : Prop :=
  match t with
  | Interface => True
  | Basic kind => validKind kind = true
  | _ => False
  end.

(** [type Header struct { Magic [4]uint8; Size uint32 }]. *)
Definition Header : Typ :=
  Named "Header" (Struct [Array 4 (Basic Uint8); Basic Uint32]).

End Binary.

(** ** Comparisons of strings of different sizes

    [constantString] (lint.go:81), [constantInt] (lint.go:951),
    [sliceSize] (lint.go:966) and [CheckDiffSizeComparison]
    (lint.go:1000).  [int] is taken to be 64 bits wide. *)

Module Sizes.
Import token.

(** A [constant.Value], as the check looks at it: a string, an
    integer, or a value of another kind. *)
Inductive CValue : Type :=
| StringVal (s : string)
| IntVal (z : Z)
| OtherVal.

Definition minInt : Z := - 2 ^ 63.

Definition maxInt : Z := 2 ^ 63 - 1.

(** The result of an operation on [int], which wraps around. *)
Definition wrap (z : Z) : Z := (z + 2 ^ 63) mod 2 ^ 64 - 2 ^ 63.

(** The expressions [sliceSize] tells apart: a slice expression
    [X[Low:High]], or any other expression, with the constant value
    that [TypesInfo.Types] records for it, if it is a constant. *)
#[local] Unset Elimination Schemes.
Inductive Expr : Type :=
| SliceExpr (X : Expr) (Low High : option Expr)
| OtherExpr (id : nat) (Value : option CValue).
#[local] Set Elimination Schemes.

(** [f.Pkg.TypesInfo.Types[expr].Value]: a slice expression is not a
    constant. *)
Definition TypesValue (expr : Expr) : option CValue :=
  match expr with
  | OtherExpr _ Value => Value
  | SliceExpr _ _ _ => None
  end.

(** [constantString] (lines 81-90). *)
Definition constantString (expr : Expr) : option string :=
  match TypesValue expr with
  | Some (StringVal s) => Some s
  | _ => None
  end.

(** [constantInt] (lines 951-964): [constant.Int64Val] is exact for
    the integers that an [int64] holds. *)
Definition constantInt (expr : Expr) : option Z :=
  match TypesValue expr with
  | Some (IntVal z) => if decide (minInt ≤ z ≤ maxInt)%Z then Some z else None
  | _ => None
  end.

(** [sliceSize] (lines 966-998). *)
Fixpoint sliceSize (expr : Expr) : option Z :=
  match expr with
  | SliceExpr X Low High =>
      match (match Low with
             | Some l => constantInt l
             | None => Some 0%Z
             end) with
      | None => None
      | Some low =>
          match High with
          | None =>
              match sliceSize X with
              | None => None
              | Some high => Some (wrap (high - low))
              end
          | Some h =>
              match constantInt h with
              | None => None
              | Some high => Some (wrap (high - low))
              end
          end
      end
  | _ =>
      match constantString expr with
      | None => None
      | Some s => Some (Z.of_nat (String.length s))
      end
  end.

Definition isSliceExpr (expr : Expr) : bool :=
  match expr with
  | SliceExpr _ _ _ => true
  | _ => false
  end.

(** [CheckDiffSizeComparison] at the binary expression [X Op Y]: the
    result says whether "comparing strings of different sizes for
    equality will always return false" is reported. *)
Definition CheckDiffSizeComparison (Op : Token) (X Y : Expr) : bool :=
  match Op with
  | EQL | NEQ =>
      if negb (isSliceExpr X) && negb (isSliceExpr Y) then false
      else match sliceSize X, sliceSize Y with
           | Some left_, Some right_ => negb (left_ =? right_)%Z
           | _, _ => false
           end
  | _ => false
  end.

(** *** What the expressions evaluate to *)

(** The value of an expression at run time: a constant has its value,
    any other expression that is not a slice expression the value
    [ρ] gives for it; a slice of the string [s] has its bounds within
    [0 <= low <= high <= len(s)], or the program does not get past
    it. *)
Fixpoint eval (ρ : nat → option CValue) (expr : Expr) : option CValue :=
  match expr with
  | OtherExpr _ (Some v) => Some v
  | OtherExpr id None => ρ id
  | SliceExpr X Low High =>
      match eval ρ X with
      | Some (StringVal s) =>
          match (match Low with
                 | None => Some (IntVal 0)
                 | Some l => eval ρ l
                 end),
                (match High with
                 | None => Some (IntVal (Z.of_nat (String.length s)))
                 | Some h => eval ρ h
                 end) with
          | Some (IntVal low), Some (IntVal high) =>
              if decide (0 ≤ low ≤ high ∧ high ≤ Z.of_nat (String.length s))%Z
              then Some (StringVal (String.substring (Z.to_nat low) (Z.to_nat (high - low)) s))
              else None
          | _, _ => None
          end
      | _ => None
      end
  end.

(** The length of the string is one that an [int] holds. *)
Definition fits (s : string) : Prop := (Z.of_nat (String.length s) ≤ maxInt)%Z.

(** The strings the expression slices have lengths that an [int]
    holds. *)
Fixpoint stringsFit (ρ : nat → option CValue) (expr : Expr) : Prop :=
  match expr with
  | OtherExpr _ (Some (StringVal s)) => fits s
  | OtherExpr id None => ∀ s, ρ id = Some (StringVal s) → fits s
  | OtherExpr _ _ => True
  | SliceExpr X _ _ => stringsFit ρ X
  end.

(** [s[:2] == "abc"], with [s] a variable that holds ["hello"]. *)
Definition prefixOfS : Expr :=
  SliceExpr (OtherExpr 1 None) None (Some (OtherExpr 2 (Some (IntVal 2)))).

Definition abc : Expr := OtherExpr 3 (Some (StringVal "abc")).

Definition holdsHello (id : nat) : option CValue :=
  if decide (id = 1) then Some (StringVal "hello") else None.

End Sizes.

(** ** Constant indices beyond the end of a slice

    [CheckSliceOutOfBounds] (lint.go:1999). *)

Module Bounds.
Import constant.

(** The SSA values the check tells apart.  A constant holds its
    [constant.Value], nil for the zero value of a slice; an allocation
    holds the length of the array when it allocates an array. *)
#[local] Unset Elimination Schemes.
Inductive Value : Type :=
| Const (CValue : option constant.Value)
| Alloc (id : nat) (arrayLen : option Z)
| Slice (X : Value) (Low High : option Value)
| OtherValue (id : nat).
#[local] Set Elimination Schemes.

Inductive Instruction : Type :=
| IndexAddr (X Index : Value)
| OtherInstruction.

(** [constant.Int64Val], which panics on a value that is not an
    integer. *)
Definition Int64Val (v : constant.Value) : option Z :=
  match v with
  | int64Val x => Some x
  | boolVal _ => None
  end.

(** Lines 2011-2047 at the instruction [IndexAddr X Index]: whether
    "index out of bounds" is reported; [None] is a panic. *)
Definition checkIndexAddr (X Index : Value) : option bool :=
  match Index with
  | Const (Some ic) =>
      match Int64Val ic with
      | None => None
      | Some idx =>
          match X with
          | Const None => Some true
          | Slice x _ High =>
              let high :=
                match High, x with
                | None, Alloc _ (Some len) => len
                | _, _ => (-1)%Z
                end in
              if decide (high = -1)%Z then
                match High with
                | Some (Const (Some c)) =>
                    match Int64Val c with
                    | None => None
                    | Some high => Some (bool_decide (high ≤ idx)%Z)
                    end
                | _ => Some false
                end
              else Some (bool_decide (high ≤ idx)%Z)
          | _ => Some false
          end
      end
  | _ => Some false
  end.

(** Lines 2010-2048: the loop over the instructions of a block, from
    the position [i]; the instruction [i] of the block [n] is
    reported as [(n, i)]. *)
Fixpoint instrLoop (n i : nat) (instrs : list Instruction) : option (list (nat * nat)) :=
  match instrs with
  | [] => Some []
  | ins :: rest =>
      match (match ins with
             | IndexAddr X Index => checkIndexAddr X Index
             | OtherInstruction => Some false
             end) with
      | None => None
      | Some reported =>
          match instrLoop n (S i) rest with
          | None => None
          | Some problems => Some ((if reported then [(n, i)] else []) ++ problems)
          end
      end
  end.

(** Lines 2009-2049: the loop over the blocks, from the block [n]. *)
Fixpoint blockLoop (n : nat) (blocks : list (list Instruction)) : option (list (nat * nat)) :=
  match blocks with
  | [] => Some []
  | block :: rest =>
      match instrLoop n 0 block with
      | None => None
      | Some problems =>
          match blockLoop (S n) rest with
          | None => None
          | Some more => Some (problems ++ more)
          end
      end
  end.

(** [CheckSliceOutOfBounds] at one [*ast.FuncDecl]: [ssafn] is the SSA
    function of its object, given by the instructions of its
    blocks. *)
Definition CheckSliceOutOfBounds (ssafn : option (list (list Instruction))) :
    option (list (nat * nat)) :=
  match ssafn with
  | None => Some []
  | Some blocks => blockLoop 0 blocks
  end.

(** *** The length of a slice at run time *)

(** The integer a value holds at run time: a constant holds its
    value, any other value what [ρ] gives for it. *)
Definition intOf (ρ : nat → option Z) (v : Value) : option Z :=
  match v with
  | Const (Some (int64Val z)) => Some z
  | OtherValue id => ρ id
  | _ => None
  end.

(** The number of elements of a slice at run time: none for the nil
    slice; [high - low] for [x[low:high]] with [0 <= low <= high],
    where [low] is 0 if it is left out, and [high], if it is left
    out, is the length of the array that [x] points to, or the length
    [lens] gives for the slice [x]. *)
Definition lenOf (ρ lens : nat → option Z) (v : Value) : option Z :=
  match v with
  | Const None => Some 0%Z
  | Slice x Low High =>
      match (match Low with
             | None => Some 0%Z
             | Some l => intOf ρ l
             end),
            (match High with
             | Some h => intOf ρ h
             | None =>
                 match x with
                 | Alloc _ (Some len) => Some len
                 | OtherValue id => lens id
                 | _ => None
                 end
             end) with
      | Some low, Some high =>
          if decide (0 ≤ low ≤ high)%Z then Some (high - low)%Z else None
      | _, _ => None
      end
  | _ => None
  end.

(** [var a [4]int; s := a[:]; s[5] = 1]: the index address of [s[5]]. *)
Definition indexBeyondArray : Instruction :=
  IndexAddr (Slice (Alloc 1 (Some 4%Z)) None None) (Const (Some (int64Val 5))).

End Bounds.

(** ** Finalizers that close over the object

    [CheckCyclicFinalizer] (lint.go:1929). *)

Module Finalizer.

(** The SSA values [checkValue] tells apart: a phi with its operands,
    a closure with its function, or any other value. *)
Inductive Instruction : Type :=
| Phi (Edges : list nat)
| MakeClosure (Fn : nat)
| OtherValue.

(** The program: [Values] lists, by address, the phis and the
    closures; an address that is not listed is another value.
    [FreeVars] gives for each function, for each of its free
    variables, what lines 1955-1962 find at its position: no
    identifier, or an identifier and its object
    ([TypesInfo.ObjectOf], which may be nil). *)
Record Program : Type :=
  mkProgram {
    Values : gmap nat Instruction;
    FreeVars : gmap nat (list (option (option nat)))
  }.

Definition freeVarsOf (prog : Program) (Fn : nat) : list (option (option nat)) :=
  default [] (FreeVars prog !! Fn).

(** [checkFn] (lines 1950-1969): whether the problem is reported for
    the function; the loop ends at the first free variable whose
    identifier denotes [obj]. *)
Definition checkFn (prog : Program) (obj : option nat) (Fn : nat) : bool :=
  existsb (λ v, bool_decide (v = Some obj)) (freeVarsOf prog Fn).

(** Lines 1979-1981: the loop over the operands of a phi, [rec] being
    the recursive call; the state is [seen] and the closures reported
    so far. *)
Fixpoint edgesLoop (rec : nat → gset nat → list nat → option (list nat * gset nat))
    (edges : list nat) (seen : gset nat) (reports : list nat) :
    option (list nat * gset nat) :=
  match edges with
  | [] => Some (reports, seen)
  | val :: rest =>
      match rec val seen reports with
      | Some (reports', seen') => edgesLoop rec rest seen' reports'
      | None => None
      end
  end.

(** [checkValue] (lines 1972-1987); [seen] is the map the closure
    captures.  [fuel] bounds the nesting of phis; [None] is no result
    within it. *)
Fixpoint checkValue (prog : Program) (obj : option nat) (fuel : nat) (val : nat)
    (seen : gset nat) (reports : list nat) : option (list nat * gset nat) :=
  if decide (val ∈ seen) then Some (reports, seen)
  else
    match Values prog !! val with
    | Some (Phi edges) =>
        match fuel with
        | O => None
        | S fuel' =>
            edgesLoop (checkValue prog obj fuel') edges ({[val]} ∪ seen) reports
        end
    | Some (MakeClosure Fn) =>
        Some (if checkFn prog obj Fn then reports ++ [val] else reports, {[val]} ∪ seen)
    | _ => Some (reports, {[val]} ∪ seen)
    end.

(** A phi is entered once, so this depth is enough (see
    [checkValue_never_out_of_fuel]). *)
Definition depth (prog : Program) : nat := S (size (Values prog)).

(** The arguments of the call, as the check tells them apart: an
    identifier with its object, a function literal, or another
    expression; [value] is what [ssafn.ValueForExpr] finds. *)
Inductive Arg : Type :=
| IdentArg (obj : option nat) (value : option nat)
| FuncLitArg (value : option nat)
| OtherArg.

(** [CheckCyclicFinalizer] at one call expression: [isSetFinalizer]
    says that the function called is [runtime.SetFinalizer],
    [hasSSAFunction] that [f.EnclosingSSAFunction(call)] is not nil.
    The result lists the closures for which "the finalizer closes over
    the object" is reported. *)
Definition CheckCyclicFinalizer (prog : Program) (isSetFinalizer hasSSAFunction : bool)
    (Args : list Arg) : option (list nat) :=
  if isSetFinalizer then
    match Args with
    | [arg0; arg1] =>
        if hasSSAFunction then
          match arg0 with
          | IdentArg obj _ =>
              match arg1 with
              | IdentArg _ r | FuncLitArg r =>
                  match r with
                  | None => Some []
                  | Some val =>
                      match checkValue prog obj (depth prog) val ∅ [] with
                      | Some (reports, _) => Some reports
                      | None => None
                      end
                  end
              | OtherArg => Some []
              end
          | _ => Some []
          end
        else Some []
    | _ => Some []
    end
  else Some [].

(** *** Vocabulary *)

(** [b] is an operand of the phi [a]. *)
Definition edge (prog : Program) (a b : nat) : Prop :=
  ∃ edges, Values prog !! a = Some (Phi edges) ∧ b ∈ edges.

(** [v] is [val], or is met from it through operands of phis. *)
Definition reaches (prog : Program) (val v : nat) : Prop := rtc (edge prog) val v.

(** [v] is a closure whose function has a free variable that is the
    object [obj]. *)
Definition capturing (prog : Program) (obj : option nat) (v : nat) : Prop :=
  ∃ Fn, Values prog !! v = Some (MakeClosure Fn) ∧ Some obj ∈ freeVarsOf prog Fn.

(** What a call of [checkValue] establishes: the values seen since
    [seen] are met from [srcs] and have their operands seen, and the
    closures reported are those among them that capture the object,
    each once. *)
Definition visitedPost (prog : Program) (obj : option nat) (srcs : nat → Prop)
    (seen : gset nat) (reports : list nat) (seen' : gset nat) (reports' : list nat) : Prop :=
  seen ⊆ seen'
  ∧ (∀ s, srcs s → s ∈ seen')
  ∧ (∃ added, reports' = reports ++ added ∧ NoDup added
              ∧ ∀ v, v ∈ added ↔ v ∈ seen' ∧ (v ∉ seen) ∧ capturing prog obj v)
  ∧ ∀ n, n ∈ seen' → n ∉ seen →
      (∃ s, srcs s ∧ reaches prog s n) ∧ ∀ m, edge prog n m → m ∈ seen'.

(** [runtime.SetFinalizer(x, fn)] in a loop where [fn] is either of two
    closures: the value 1 is the phi of [fn], whose operands are the
    closures 2 and 3 and the phi itself; the function 20 of the
    closure 2 has [x] (the object 7) among its free variables, the
    function 30 of the closure 3 has not. *)
Definition twoClosures : Program :=
  mkProgram (<[1 := Phi [2; 3; 1]]> (<[2 := MakeClosure 20]> (<[3 := MakeClosure 30]> ∅)))
            (<[20 := [None; Some (Some 7)]]> (<[30 := [Some (Some 8)]]> ∅)).

End Finalizer.

(** ** Defers that never run, or run late

    [CheckDeferInInfiniteLoop] (lint.go:442) and
    [CheckDubiousDeferInChannelRangeLoop] (lint.go:482). *)

Module Defers.
Import token.

(** The syntax tree, as these two checks tell its nodes apart; [id]
    stands for the address of the node.  [Body] holds the statements
    of the body of a loop ([Body.List]); [OtherNode] is any other
    statement or expression. *)
#[local] Unset Elimination Schemes.
Inductive Node : Type :=
| ForStmt (id : nat) (Init Cond Post : option Node) (Body : list Node)
| RangeStmt (id : nat) (Header : list Node) (TypeOfX : option Loop.Underlying)
    (Body : list Node)
| ReturnStmt (id : nat) (Results : list Node)
| BranchStmt (id : nat) (Tok : Token)
| DeferStmt (id : nat) (Call : list Node)
| FuncLit (id : nat) (parts : list Node)
| OtherNode (id : nat) (parts : list Node).
#[local] Set Elimination Schemes.

(** The children of a node, in the order [ast.Inspect] visits them. *)
Definition children (n : Node) : list Node :=
  match n with
  | ForStmt _ init cond post body =>
      option_list init ++ option_list cond ++ option_list post ++ body
  | RangeStmt _ header _ body => header ++ body
  | ReturnStmt _ l | DeferStmt _ l | FuncLit _ l | OtherNode _ l => l
  | BranchStmt _ _ => []
  end.

(** [ast.Inspect(node, f)] for a callback [f] that updates a state and
    says whether to descend. *)
Fixpoint Inspect {S : Type} (f : Node → S → S * bool) (node : Node) (s : S) : S :=
  let all := fix all (l : list Node) (s : S) : S :=
    match l with
    | [] => s
    | n :: l' => all l' (Inspect f n s)
    end in
  match f node s with
  | (s', false) => s'
  | (s', true) =>
      match node with
      | ForStmt _ init cond post body =>
          let s1 := match init with Some n => Inspect f n s' | None => s' end in
          let s2 := match cond with Some n => Inspect f n s1 | None => s1 end in
          let s3 := match post with Some n => Inspect f n s2 | None => s2 end in
          all body s3
      | RangeStmt _ header _ body => all body (all header s')
      | ReturnStmt _ l | DeferStmt _ l | FuncLit _ l | OtherNode _ l => all l s'
      | BranchStmt _ _ => s'
      end
  end.

(** [ast.Inspect] over the statements of a block. *)
Definition InspectList {S : Type} (f : Node → S → S * bool) (l : list Node) (s : S) : S :=
  foldl (λ s n, Inspect f n s) s l.

(** Lines 450-469: the callback of the walk over the body of the
    loop; the state is [mightExit] and [defers]. *)
Definition collectExits (node : Node) (st : bool * list nat) : bool * list nat * bool :=
  match node with
  | ReturnStmt _ _ => ((true, st.2), true)
  | BranchStmt _ tok =>
      match tok with
      | BREAK => ((true, st.2), true)
      | _ => (st, true)
      end
  | DeferStmt id _ => ((st.1, st.2 ++ [id]), true)
  | FuncLit _ _ => (st, false)
  | _ => (st, true)
  end.

(** Lines 443-478: the defers reported at one node as "defers in this
    infinite loop will never run". *)
Definition deferInInfiniteLoop (node : Node) : list nat :=
  match node with
  | ForStmt _ _ None _ body =>
      let st := InspectList collectExits body (false, []) in
      if st.1 then [] else st.2
  | _ => []
  end.

(** [f.Walk(fn)] for a callback that reports and always descends. *)
Definition reportAt (fn : Node → list nat) (node : Node) (problems : list nat) :
    list nat * bool :=
  (problems ++ fn node, true).

(** [CheckDeferInInfiniteLoop] over the declarations of a file. *)
Definition CheckDeferInInfiniteLoop (file : list Node) : list nat :=
  InspectList (reportAt deferInInfiniteLoop) file [].

(** Lines 497-506: the callback of the walk over the body of the range
    loop. *)
Definition collectDefers (node : Node) (defers : list nat) : list nat * bool :=
  match node with
  | DeferStmt id _ => (defers ++ [id], true)
  | FuncLit _ _ => (defers, false)
  | _ => (defers, true)
  end.

(** Lines 483-511: the defers reported at one node as "defers in this
    range loop won't run unless the channel gets closed". *)
Definition deferInChannelRange (node : Node) : list nat :=
  match node with
  | RangeStmt _ _ (Some Loop.Chan) body => InspectList collectDefers body []
  | _ => []
  end.

(** [CheckDubiousDeferInChannelRangeLoop] over the declarations of a
    file. *)
Definition CheckDubiousDeferInChannelRangeLoop (file : list Node) : list nat :=
  InspectList (reportAt deferInChannelRange) file [].

(** *** Vocabulary *)

(** [m] is [n] or stands below it in the tree. *)
Definition within (n m : Node) : Prop := rtc (λ a b, b ∈ children a) n m.

Definition isFuncLit (n : Node) : Prop :=
  match n with
  | FuncLit _ _ => True
  | _ => False
  end.

(** [m] is [n], or stands below it with no function literal in
    between: the walk that does not look into function bodies gets
    from [n] to [m]. *)
Definition reached (n m : Node) : Prop :=
  rtc (λ a b, ¬ isFuncLit a ∧ b ∈ children a) n m.

(** A return, or a break. *)
Definition isExit (n : Node) : Prop :=
  match n with
  | ReturnStmt _ _ | BranchStmt _ BREAK => True
  | _ => False
  end.

(** [for { defer f(); for { defer g() } }]: two loops without
    condition, the second in the body of the first. *)
Definition nestedDefers : list Node :=
  [ ForStmt 1 None None None
      [ DeferStmt 2 [OtherNode 3 []];
        ForStmt 4 None None None [ DeferStmt 5 [OtherNode 6 []] ] ] ].

End Defers.

(** ** Unmarshalling into a value that is not a pointer

    [isFunctionCallName] (lint.go:2181), [isFunctionCallNameAny]
    (lint.go:2194) and [CheckUnmarshalPointer] (lint.go:2203). *)

Module Unmarshal.

(** The syntax tree, as the check tells its nodes apart; [id] stands
    for the address of the node, [Sel] for the identifier of a
    selector expression. *)
#[local] Unset Elimination Schemes.
Inductive Node : Type :=
| CallExpr (id : nat) (Fun : Node) (Args : list Node)
| SelectorExpr (id : nat) (X : Node) (Sel : nat)
| OtherNode (id : nat) (parts : list Node).
#[local] Set Elimination Schemes.

Definition nodeId (n : Node) : nat :=
  match n with
  | CallExpr id _ _ | SelectorExpr id _ _ | OtherNode id _ => id
  end.

(** The children of a node that hold further nodes, in the order
    [ast.Inspect] visits them. *)
Definition children (n : Node) : list Node :=
  match n with
  | CallExpr _ fn args => fn :: args
  | SelectorExpr _ x _ => [x]
  | OtherNode _ l => l
  end.

(** [ast.Inspect(node, f)] for a callback [f] that updates a state and
    says whether to descend. *)
Fixpoint Inspect {S : Type} (f : Node → S → S * bool) (node : Node) (s : S) : S :=
  let all := fix all (l : list Node) (s : S) : S :=
    match l with
    | [] => s
    | n :: l' => all l' (Inspect f n s)
    end in
  match f node s with
  | (s', false) => s'
  | (s', true) =>
      match node with
      | CallExpr _ fn args => all args (Inspect f fn s')
      | SelectorExpr _ x _ => Inspect f x s'
      | OtherNode _ l => all l s'
      end
  end.

Definition InspectList {S : Type} (f : Node → S → S * bool) (l : list Node) (s : S) : S :=
  foldl (λ s n, Inspect f n s) s l.

(** What [Underlying()] of the type of an expression is, as far as the
    check looks. *)
Inductive TypeKind : Set := PointerType | InterfaceType | OtherType.

(** [f.Pkg.TypesInfo]: [FuncName] gives [FullName()] of the function
    an identifier denotes, for the identifiers that denote one;
    [TypeOf] the type of an expression. *)
Record Info : Type :=
  mkInfo { FuncName : gmap nat string; TypeOf : gmap nat TypeKind }.

(** Lines 2204-2209. *)
Definition names : list string :=
  [ "encoding/xml.Unmarshal"; "(*encoding/xml.Decoder).Decode";
    "encoding/json.Unmarshal"; "(*encoding/json.Decoder).Decode" ].

(** [isFunctionCallName] (lines 2181-2192). *)
Definition isFunctionCallName (info : Info) (node : Node) (name : string) : bool :=
  match node with
  | CallExpr _ (SelectorExpr _ _ Sel) _ => bool_decide (FuncName info !! Sel = Some name)
  | _ => false
  end.

(** [isFunctionCallNameAny] (lines 2194-2201). *)
Definition isFunctionCallNameAny (info : Info) (node : Node) (names : list string) : bool :=
  existsb (isFunctionCallName info node) names.

(** What the callback does at a node: nothing, the report of an
    argument, or a panic (the type of the argument is nil). *)
Inductive Outcome : Type :=
| Quiet
| Problem (arg : nat)
| Panics.

(** Lines 2210-2232: the callback at one node, and whether the walk
    descends. *)
Definition unmarshalPointer (info : Info) (node : Node) : Outcome * bool :=
  match node with
  | CallExpr _ fn args =>
      match fn with
      | SelectorExpr _ _ _ =>
          match last args with
          | None => (Quiet, true)
          | Some arg =>
              if isFunctionCallNameAny info node names then
                match TypeOf info !! nodeId arg with
                | None => (Panics, true)
                | Some PointerType | Some InterfaceType => (Quiet, true)
                | Some OtherType => (Problem (nodeId arg), true)
                end
              else (Quiet, true)
          end
      | _ => (Quiet, false)
      end
  | _ => (Quiet, true)
  end.

(** The callback over the problems reported so far; [None] is a run
    that has panicked. *)
Definition visit (info : Info) (node : Node) (problems : option (list nat)) :
    option (list nat) * bool :=
  match problems with
  | None => (None, false)
  | Some reported =>
      match unmarshalPointer info node with
      | (Quiet, descend) => (Some reported, descend)
      | (Problem arg, descend) => (Some (reported ++ [arg]), descend)
      | (Panics, _) => (None, false)
      end
  end.

(** [CheckUnmarshalPointer] over the declarations of a file. *)
Definition CheckUnmarshalPointer (info : Info) (file : list Node) : option (list nat) :=
  InspectList (visit info) file (Some []).

(** *** Vocabulary *)

(** A call whose function is not a selector expression: a call of a
    function named by an identifier, of a function literal, a
    conversion. *)
Definition plainCall (n : Node) : Prop :=
  match n with
  | CallExpr _ (SelectorExpr _ _ _) _ => False
  | CallExpr _ _ _ => True
  | _ => False
  end.

(** [m] is [n], or stands below it with no plain call in between: the
    walk of the check gets from [n] to [m]. *)
Definition examined (n m : Node) : Prop :=
  rtc (λ a b, ¬ plainCall a ∧ b ∈ children a) n m.

(** No node that the walk gets to from [n] makes the callback
    panic. *)
Definition safeFrom (info : Info) (n : Node) : Prop :=
  ∀ m, examined n m → (unmarshalPointer info m).1 ≠ Panics.

(** A call of one of the functions of [names] whose last argument is
    [arg]. *)
Definition unmarshals (info : Info) (n : Node) (arg : Node) : Prop :=
  ∃ id idf X Sel args name,
    n = CallExpr id (SelectorExpr idf X Sel) args
    ∧ last args = Some arg
    ∧ name ∈ names ∧ FuncName info !! Sel = Some name.

(** [json.Unmarshal(data, v)] with [v] a struct, and the same call in
    [func() { json.Unmarshal(data, v) }()].  The identifier
    [Unmarshal] is 4; the arguments are 5 and 6. *)
Definition unmarshalCall : Node :=
  CallExpr 2 (SelectorExpr 3 (OtherNode 7 []) 4) [OtherNode 5 []; OtherNode 6 []].

Definition calledInPlace : Node :=
  CallExpr 1 (OtherNode 8 [OtherNode 9 [unmarshalCall]]) [].

Definition jsonInfo : Info :=
  mkInfo {[4 := "encoding/json.Unmarshal"]} {[5 := OtherType; 6 := OtherType]}.

End Unmarshal.

(** * Part II. Properties *)

(** ** Constant resolution *)

Section ConstsFacts.
Import token Consts.
Context {cval : Type} `{!EqDecision cval}.

Abbreviation Const := (Consts.Const cval).
Abbreviation Value := (Consts.Value cval).
Abbreviation Function := (Consts.Function cval).

(** *** What [uniq] keeps *)

Lemma uniqLoop_values (last : Const) (rest : list Const) (x : option cval) :
  x ∈ values (last :: uniqLoop last rest) ↔ x ∈ values (last :: rest).
Proof.
  unfold values. revert last.
  induction rest as [|val rest IH]; intros last; simpl; [done|].
  destruct (decide (CValue val = CValue last)) as [Heq|Hne].
  - specialize (IH last). simpl in IH. rewrite IH, !elem_of_cons, Heq. tauto.
  - specialize (IH val). simpl in *. rewrite !elem_of_cons in *. tauto.
Qed.

Lemma uniq_values (out : list Const) (x : option cval) :
  x ∈ values (uniq out) ↔ x ∈ values out.
Proof.
  unfold uniq. destruct (decide (length out < 2)); [done|].
  destruct out as [|first rest]; [done|]. apply uniqLoop_values.
Qed.

Lemma uniq_nil_iff (out : list Const) : uniq out = [] ↔ out = [].
Proof.
  unfold uniq. destruct (decide (length out < 2)); [done|].
  destruct out; [done|]. split; discriminate.
Qed.

Lemma uniqLoop_distinct (last : Const) (rest : list Const) :
  distinctNeighbours (last :: uniqLoop last rest).
Proof.
  revert last. induction rest as [|val rest IH]; intros last; [done|].
  simpl. destruct (decide (CValue val = CValue last)) as [Heq|Hne].
  - apply IH.
  - split; [done|]. apply IH.
Qed.

Lemma uniq_distinct (out : list Const) : distinctNeighbours (uniq out).
Proof.
  unfold uniq. destruct (decide (length out < 2)) as [Hlt|Hge].
  - destruct out as [|a [|b out]]; simpl in *; [done|done|lia].
  - destruct out as [|first rest]; [done|]. apply uniqLoop_distinct.
Qed.

Lemma uniqLoop_id (last : Const) (rest : list Const) :
  distinctNeighbours (last :: rest) → uniqLoop last rest = rest.
Proof.
  revert last. induction rest as [|val rest IH]; intros last Hd; [done|].
  simpl in *. destruct Hd as [Hne Hd].
  destruct (decide (CValue val = CValue last)); [done|].
  f_equal. by apply IH.
Qed.

Lemma uniq_id (out : list Const) : distinctNeighbours out → uniq out = out.
Proof.
  intros Hd. unfold uniq. destruct (decide (length out < 2)); [done|].
  destruct out as [|first rest]; [done|]. f_equal. by apply uniqLoop_id.
Qed.

Lemma uniq_idemp (out : list Const) : uniq (uniq out) = uniq out.
Proof. apply uniq_id, uniq_distinct. Qed.


(** *** The value graph and the invariant of the traversal *)

Variable fn : Function.

Local Abbreviation operandOf := (Consts.operandOf fn).
Local Abbreviation feeds := (Consts.feeds fn).
Local Abbreviation closedSince := (Consts.closedSince fn).
Local Abbreviation knownPost := (Consts.knownPost fn).

Lemma settled_mono (O O' : list Const) (V V' : gset string) (v : Value) :
  (∀ x, x ∈ values O → x ∈ values O') → V ⊆ V' →
  settled O V v → settled O' V' v.
Proof.
  intros HO HV. induction v; simpl; auto.
Qed.

Lemma settled_uniq (O : list Const) (V : gset string) (v : Value) :
  settled O V v → settled (uniq O) V v.
Proof. apply settled_mono; [|done]. intros x. by rewrite uniq_values. Qed.

Lemma closedSince_trans (V0 V1 V2 : gset string) (O1 O2 : list Const) :
  V1 ⊆ V2 → (∀ x, x ∈ values O1 → x ∈ values O2) →
  closedSince V0 V1 O1 → closedSince V1 V2 O2 → closedSince V0 V2 O2.
Proof.
  intros HV HO H1 H2 name e Hin Hnot He.
  destruct (decide (name ∈ V1)) as [Hin1|Hnin1].
  - eapply settled_mono; [exact HO|exact HV|]. by eapply H1.
  - by eapply H2.
Qed.

Lemma closedSince_uniq (V0 V : gset string) (O : list Const) :
  closedSince V0 V O → closedSince V0 V (uniq O).
Proof. intros H name e ? ? ?. apply settled_uniq. by eapply H. Qed.

Lemma knownPost_uniq srcs out V out' V' :
  knownPost srcs out V out' V' → knownPost srcs out V (uniq out') V'.
Proof.
  intros (HV & Hin & Hfrom & Hset & Hcl). split_and!; [done|..].
  - intros x Hx. rewrite uniq_values. auto.
  - intros x Hx. rewrite uniq_values in Hx. auto.
  - intros v Hv. apply settled_uniq. auto.
  - by apply closedSince_uniq.
Qed.

Lemma phiLoop_known (rec : Value → list Const → gset string → outcome cval)
    (vals : list Value) :
  (∀ v out V out' V', v ∈ vals → rec v out V = Known out' V' →
     knownPost (eq v) out V out' V') →
  ∀ out V out' V', phiLoop rec vals out V = Known out' V' →
    knownPost (λ v, v ∈ vals) out V out' V'.
Proof.
  induction vals as [|e vals IH]; intros Hrec out V out' V' Hrun; simpl in Hrun.
  - injection Hrun as <- <-. split_and!.
    + done.
    + done.
    + intros x Hx. by left.
    + intros v Hv. by apply elem_of_nil in Hv.
    + by intros name e' Hin Hnot.
  - destruct (rec e out V) as [out1 V1| |] eqn:Hrec1; try done.
    apply Hrec in Hrec1 as (HV1 & Hin1 & Hfrom1 & Hset1 & Hcl1); [|left].
    apply IH in Hrun as (HV2 & Hin2 & Hfrom2 & Hset2 & Hcl2);
      [|intros; eapply Hrec; [by right|done]].
    split_and!.
    + set_solver.
    + auto.
    + intros x Hx. destruct (Hfrom2 x Hx) as [Hx1|(v & c & Hv & Hc & Hf)].
      * destruct (Hfrom1 x Hx1) as [?|(v & c & <- & Hc & Hf)]; [by left|].
        right. exists e, c. split_and!; [left|done|done].
      * right. exists v, c. split_and!; [by right|done|done].
    + intros v [->|Hv]%elem_of_cons; [|by apply Hset2].
      eapply settled_mono; [exact Hin2|exact HV2|]. by apply Hset1.
    + by eapply closedSince_trans.
Qed.

(** The body of [consts], one level unfolded. *)
Lemma consts_unfold (fuel : nat) (val : Value) (out : list Const) (V : gset string) :
  consts fn fuel val out V =
  match val with
  | Phi name =>
      if decide (name ∈ V) then Known (uniq out) V
      else match fuel with
           | O => NoFuel
           | S fuel' =>
               match phiLoop (consts fn fuel') (Operands fn name) out ({[name]} ∪ V) with
               | Known out' V' => Known (uniq out') V'
               | Unknown => Unknown
               | NoFuel => NoFuel
               end
           end
  | VConst c => Known (uniq (out ++ [c])) V
  | Convert X =>
      match consts fn fuel X out V with
      | Known out' V' => Known (uniq out') V'
      | Unknown => Unknown
      | NoFuel => NoFuel
      end
  | _ => Unknown
  end.
Proof. destruct fuel, val; reflexivity. Qed.

Lemma knownPost_visited (name : string) (out : list Const) (V : gset string) :
  name ∈ V → knownPost (eq (Phi name)) out V out V.
Proof.
  intros Hin. split_and!; [done|done|by left| |].
  - by intros v <-.
  - by intros n e ? ?.
Qed.

Lemma knownPost_const (c : Const) (out : list Const) (V : gset string) :
  knownPost (eq (VConst c)) out V (out ++ [c]) V.
Proof.
  unfold knownPost, values. split_and!.
  - done.
  - intros x Hx. rewrite fmap_app. apply elem_of_app. by left.
  - intros x Hx. rewrite fmap_app in Hx.
    apply elem_of_app in Hx as [Hx|Hx]; [by left|].
    right. exists (VConst c), c. split_and!; [done| |apply rtc_refl].
    simpl in Hx. by apply list_elem_of_singleton in Hx.
  - intros v <-. simpl. unfold values. rewrite fmap_app.
    apply elem_of_app. right. simpl. left.
  - by intros n e ? ?.
Qed.

Lemma knownPost_convert (X : Value) out V out' V' :
  knownPost (eq X) out V out' V' → knownPost (eq (Convert X)) out V out' V'.
Proof.
  intros (HV & Hin & Hfrom & Hset & Hcl). split_and!; [done|done| | |done].
  - intros x Hx. destruct (Hfrom x Hx) as [?|(v & c & <- & Hc & Hf)]; [by left|].
    right. exists (Convert X), c. split_and!; [done|done|].
    eapply rtc_l; [|exact Hf]. done.
  - intros v <-. simpl. by apply Hset.
Qed.

Lemma knownPost_phi (name : string) out V out' V' :
  knownPost (λ v, v ∈ Operands fn name) out ({[name]} ∪ V) out' V' →
  knownPost (eq (Phi name)) out V out' V'.
Proof.
  intros (HV & Hin & Hfrom & Hset & Hcl). split_and!; [set_solver|done| | |].
  - intros x Hx. destruct (Hfrom x Hx) as [?|(v & c & Hv & Hc & Hf)]; [by left|].
    right. exists (Phi name), c. split_and!; [done|done|].
    eapply rtc_l; [|exact Hf]. done.
  - intros v <-. simpl. apply HV, elem_of_union. left. by apply elem_of_singleton.
  - intros n e Hn Hnot He. destruct (decide (n = name)) as [->|Hne].
    + by apply Hset.
    + eapply Hcl; [done| |done]. set_solver.
Qed.

Lemma consts_known (fuel : nat) (val : Value) (out : list Const) (V : gset string)
    (out' : list Const) (V' : gset string) :
  consts fn fuel val out V = Known out' V' → knownPost (eq val) out V out' V'.
Proof.
  revert val out V out' V'.
  induction fuel as [|fuel IHfuel]; intros val;
    induction val as [name|c|X IHX| | | | ];
    intros out V out' V' Hrun; rewrite consts_unfold in Hrun; try done.
  - destruct (decide (name ∈ V)); [|done].
    injection Hrun as <- <-. by apply knownPost_uniq, knownPost_visited.
  - injection Hrun as <- <-. apply knownPost_uniq, knownPost_const.
  - destruct (consts fn 0 X out V) as [out1 V1| |] eqn:HX; try done.
    injection Hrun as <- <-. by apply knownPost_uniq, knownPost_convert, IHX.
  - destruct (decide (name ∈ V)).
    { injection Hrun as <- <-. by apply knownPost_uniq, knownPost_visited. }
    destruct (phiLoop _ _ _ _) as [out1 V1| |] eqn:Hloop; try done.
    injection Hrun as <- <-. apply knownPost_uniq, knownPost_phi.
    eapply phiLoop_known; [|exact Hloop]. intros; by apply IHfuel.
  - injection Hrun as <- <-. apply knownPost_uniq, knownPost_const.
  - destruct (consts fn (S fuel) X out V) as [out1 V1| |] eqn:HX; try done.
    injection Hrun as <- <-. by apply knownPost_uniq, knownPost_convert, IHX.
Qed.

(** A failed call met an instruction that is not resolved. *)
Lemma phiLoop_unknown (rec : Value → list Const → gset string → outcome cval)
    (vals : list Value) :
  (∀ v out V, v ∈ vals → rec v out V = Unknown →
     ∃ w, feeds v w ∧ notResolved w) →
  ∀ out V, phiLoop rec vals out V = Unknown →
    ∃ v w, v ∈ vals ∧ feeds v w ∧ notResolved w.
Proof.
  induction vals as [|e vals IH]; intros Hrec out V Hrun; simpl in Hrun; [done|].
  destruct (rec e out V) as [out1 V1| |] eqn:Hrec1; try done.
  - destruct (IH (λ v o V0 Hv, Hrec v o V0 (list_elem_of_further _ _ _ Hv)) _ _ Hrun)
      as (v & w & Hv & Hw).
    exists v, w. split; [by right|done].
  - destruct (Hrec _ _ _ (list_elem_of_here _ _) Hrec1) as (w & Hw).
    exists e, w. split; [left|done].
Qed.

Lemma consts_unknown (fuel : nat) (val : Value) (out : list Const) (V : gset string) :
  consts fn fuel val out V = Unknown → ∃ w, feeds val w ∧ notResolved w.
Proof.
  revert val out V.
  induction fuel as [|fuel IHfuel]; intros val;
    induction val as [name|c|X IHX|op X _ Y _|op X _|name|callee];
    intros out V Hrun; rewrite consts_unfold in Hrun;
    try (eexists; split; [apply rtc_refl|done]); try done.
  - by destruct (decide (name ∈ V)).
  - destruct (consts fn 0 X out V) as [out1 V1| |] eqn:HX; try done.
    destruct (IHX _ _ HX) as (w & Hf & Hw). exists w. split; [|done].
    eapply rtc_l; [|exact Hf]. done.
  - destruct (decide (name ∈ V)); [done|].
    destruct (phiLoop _ _ _ _) as [out1 V1| |] eqn:Hloop; try done.
    eapply phiLoop_unknown in Hloop as (v & w & Hv & Hf & Hw);
      [|intros; by eapply IHfuel].
    exists w. split; [|done]. eapply rtc_l; [|exact Hf]. done.
  - destruct (consts fn (S fuel) X out V) as [out1 V1| |] eqn:HX; try done.
    destruct (IHX _ _ HX) as (w & Hf & Hw). exists w. split; [|done].
    eapply rtc_l; [|exact Hf]. done.
Qed.

(** *** Termination: a phi is entered once *)

Lemma phiLoop_fuel (rec : Value → list Const → gset string → outcome cval)
    (vals : list Value) (V0 : gset string) :
  (∀ v out V out' V', rec v out V = Known out' V' → V ⊆ V') →
  (∀ v out V, v ∈ vals → V0 ⊆ V → rec v out V ≠ NoFuel) →
  ∀ out V, V0 ⊆ V → phiLoop rec vals out V ≠ NoFuel.
Proof.
  intros Hgrow. induction vals as [|e vals IH]; intros Hrec out V HV; simpl; [done|].
  destruct (rec e out V) as [out1 V1| |] eqn:Hrec1; [|done|].
  - apply IH.
    + intros v o V2 Hv HV2. apply Hrec; [by right|done].
    + apply Hgrow in Hrec1. set_solver.
  - exfalso. eapply Hrec; [left|exact HV|exact Hrec1].
Qed.

Lemma consts_grows (fuel : nat) (val : Value) out V out' V' :
  consts fn fuel val out V = Known out' V' → V ⊆ V'.
Proof. intros H. by apply consts_known in H as (? & _). Qed.

Lemma consts_fuel (fuel : nat) (val : Value) (out : list Const) (V : gset string) :
  size (dom (Phis fn) ∖ V) < fuel → consts fn fuel val out V ≠ NoFuel.
Proof.
  revert val out V. induction fuel as [|fuel IHfuel]; [lia|].
  intros val. induction val as [name|c|X IHX| | | | ];
    intros out V Hsize; rewrite consts_unfold; try done.
  - destruct (decide (name ∈ V)) as [Hin|Hnin]; [done|].
    destruct (phiLoop _ _ _ _) as [out1 V1| |] eqn:Hloop; [done|done|].
    exfalso. revert Hloop. unfold Operands.
    destruct (Phis fn !! name) as [ops|] eqn:Hops; simpl; [|done].
    apply (phiLoop_fuel _ _ ({[name]} ∪ V)); [apply consts_grows| |done].
    intros v o V2 _ HV2. apply IHfuel.
    assert (dom (Phis fn) ∖ V2 ⊂ dom (Phis fn) ∖ V) as Hsub.
    { assert (name ∈ dom (Phis fn)) by (apply elem_of_dom; eauto).
      set_solver. }
    apply subset_size in Hsub. lia.
  - specialize (IHX out V Hsize).
    by destruct (consts fn (S fuel) X out V).
Qed.

Lemma constsNil_total (val : Value) : constsNil fn val ≠ NoFuel.
Proof.
  apply consts_fuel. rewrite difference_empty_L, size_dom. lia.
Qed.

(** *** What a query returns *)

Lemma settled_feeds (O : list Const) (V : gset string) (v w : Value) :
  closedSince ∅ V O → settled O V v → feeds v w → settled O V w.
Proof.
  intros Hcl Hv Hf. induction Hf as [v|v v' w Hstep _ IH]; [done|].
  apply IH. destruct v; simpl in Hstep; try done.
  - eapply Hcl; [exact Hv| |exact Hstep]. apply not_elem_of_empty.
  - by subst.
Qed.

Lemma settled_resolved (O : list Const) (V : gset string) (v : Value) :
  settled O V v → ¬ notResolved v.
Proof. destruct v; simpl; tauto. Qed.

(** A successful query returns exactly the constant values that feed
    the value, and then no instruction that feeds it is unresolved. *)
Lemma constsNil_known (val : Value) (out : list Const) (V : gset string) :
  constsNil fn val = Known out V →
  (∀ x, x ∈ values out ↔ ∃ c, CValue c = x ∧ feeds val (VConst c))
  ∧ (∀ w, feeds val w → ¬ notResolved w).
Proof.
  intros (_ & _ & Hfrom & Hset & Hcl)%consts_known. split.
  - intros x. split.
    + intros Hx. destruct (Hfrom x Hx) as [Hx'|(v & c & <- & Hc & Hf)]; [|eauto].
      by apply elem_of_nil in Hx'.
    + intros (c & <- & Hf).
      by apply (settled_feeds _ _ _ _ Hcl (Hset _ eq_refl) Hf).
  - intros w Hf. eapply settled_resolved, settled_feeds; [exact Hcl| |exact Hf].
    by apply Hset.
Qed.

(** A query fails exactly when an unresolved instruction feeds the
    value. *)
Lemma constsNil_unknown (val : Value) :
  constsNil fn val = Unknown ↔ ∃ w, feeds val w ∧ notResolved w.
Proof.
  split; [apply consts_unknown|].
  intros (w & Hf & Hw).
  destruct (constsNil fn val) as [out V| |] eqn:Hq; [|done|].
  - apply constsNil_known in Hq as [_ Hres]. by destruct (Hres w Hf).
  - by destruct (constsNil_total val).
Qed.

Lemma feeds_phi_inv (name : string) (w : Value) :
  feeds (Phi name) w → w = Phi name ∨ ∃ e, e ∈ Operands fn name ∧ feeds e w.
Proof.
  intros [<-|(e & Hstep & Hf)]%rtc_inv; [by left|]. right. by exists e.
Qed.

(** The result of every call has passed through [uniq]. *)
Lemma consts_result_uniq (fuel : nat) (val : Value) out V out' V' :
  consts fn fuel val out V = Known out' V' → uniq out' = out'.
Proof.
  rewrite consts_unfold. intros Hrun.
  destruct val; try done.
  - destruct (decide (name ∈ V)).
    + injection Hrun as <- <-. apply uniq_idemp.
    + destruct fuel; [done|]. destruct (phiLoop _ _ _ _); try done.
      injection Hrun as <- <-. apply uniq_idemp.
  - injection Hrun as <- <-. apply uniq_idemp.
  - destruct (consts fn fuel val out V); try done.
    injection Hrun as <- <-. apply uniq_idemp.
Qed.

Lemma constsNil_convert (X : Value) : constsNil fn (Convert X) = constsNil fn X.
Proof.
  unfold constsNil. rewrite (consts_unfold _ (Convert X)).
  destruct (consts fn _ X [] ∅) as [out V| |] eqn:HX; [|done|done].
  by rewrite (consts_result_uniq _ _ _ _ _ _ HX).
Qed.


(** C2.  Resolution of a value by [consts]: a constant resolves to
    itself; a conversion to what its operand resolves to; a phi whose
    query succeeds to the union of what its operands resolve to, each of
    them resolving too, and a phi that is already in the visited map
    only returns the constants collected so far; every other instruction
    fails; a query fails exactly when an unresolved instruction feeds
    the value, so the failure of an operand is the failure of the phi,
    and with one level per phi of the function a query always ends. *)
Theorem consts_resolves_constants_conversions_phis :
  (∀ c, constsNil fn (VConst c) = Known [c] ∅)
  ∧ (∀ X, constsNil fn (Convert X) = constsNil fn X)
  ∧ (∀ name out V, constsNil fn (Phi name) = Known out V →
       (∀ e, e ∈ Operands fn name → ∃ oute Ve, constsNil fn e = Known oute Ve)
       ∧ (∀ x, x ∈ values out ↔
            ∃ e oute Ve, e ∈ Operands fn name
                         ∧ constsNil fn e = Known oute Ve ∧ x ∈ values oute))
  ∧ (∀ fuel name out visitedPhis, name ∈ visitedPhis →
       consts fn fuel (Phi name) out visitedPhis = Known (uniq out) visitedPhis)
  ∧ (∀ fuel val out visitedPhis, notResolved val →
       consts fn fuel val out visitedPhis = Unknown)
  ∧ (∀ val, constsNil fn val = Unknown ↔ ∃ w, feeds val w ∧ notResolved w)
  ∧ (∀ name e, e ∈ Operands fn name → constsNil fn e = Unknown →
       constsNil fn (Phi name) = Unknown)
  ∧ (∀ val, constsNil fn val ≠ NoFuel).
Proof.
  split_and!.
  - done.
  - apply constsNil_convert.
  - intros name out V Hq.
    assert (∀ e, e ∈ Operands fn name → ∃ oute Ve, constsNil fn e = Known oute Ve)
      as Hops.
    { intros e He. destruct (constsNil fn e) as [oute Ve| |] eqn:Hqe; [eauto| |].
      - apply constsNil_unknown in Hqe as (w & Hf & Hw).
        apply constsNil_known in Hq as [_ Hres].
        destruct (Hres w); [|done]. eapply rtc_l; [|exact Hf]. done.
      - by destruct (constsNil_total e). }
    split; [done|]. intros x.
    apply constsNil_known in Hq as [Hq _]. rewrite Hq. split.
    + intros (c & <- & [Heq|(e & He & Hf)]%feeds_phi_inv); [done|].
      destruct (Hops e He) as (oute & Ve & Hqe). exists e, oute, Ve.
      split_and!; [done|done|]. apply constsNil_known in Hqe as [-> _]. eauto.
    + intros (e & oute & Ve & He & Hqe & Hx).
      apply constsNil_known in Hqe as [Hqe _]. apply Hqe in Hx as (c & <- & Hf).
      exists c. split; [done|]. eapply rtc_l; [|exact Hf]. done.
  - intros fuel name out V Hin. rewrite consts_unfold.
    by destruct (decide (name ∈ V)).
  - intros fuel val out V Hval. rewrite consts_unfold. by destruct val.
  - apply constsNil_unknown.
  - intros name e He (w & Hf & Hw)%constsNil_unknown. apply constsNil_unknown.
    exists w. split; [|done]. eapply rtc_l; [|exact Hf]. done.
  - apply constsNil_total.
Qed.

(** *** Counting the pairs of a comparison *)

Variable Compare : option cval → Token → option cval → option bool.

(** How a pair with a nil constant is counted. *)
Lemma pairTrue_nil (x y : Const) (op : Token) :
  (CValue x = None → CValue y = None → pairTrue Compare x op y = Some true)
  ∧ (CValue x = None → CValue y ≠ None → pairTrue Compare x op y = Some false)
  ∧ (CValue x ≠ None → pairTrue Compare x op y = Compare (CValue x) op (CValue y)).
Proof.
  unfold pairTrue. destruct (CValue x), (CValue y); split_and!; done.
Qed.

Lemma countYs_spec (x : Const) (op : Token) (ys : list Const) (trues : nat) :
  match countYs Compare x op ys trues with
  | Some trues' =>
      trues ≤ trues' ≤ trues + length ys
      ∧ (trues' = trues ↔ ∀ y, y ∈ ys → pairTrue Compare x op y = Some false)
      ∧ (trues' = trues + length ys ↔
           ∀ y, y ∈ ys → pairTrue Compare x op y = Some true)
  | None => ∃ y, y ∈ ys ∧ pairTrue Compare x op y = None
  end.
Proof.
  revert trues. induction ys as [|y ys IH]; intros trues; simpl.
  - split_and!; [lia|lia| |]; (split; [by intros _ y Hy%elem_of_nil|lia]).
  - destruct (pairTrue Compare x op y) as [[|]|] eqn:Hy.
    + specialize (IH (S trues)).
      destruct (countYs Compare x op ys (S trues)) as [trues'|].
      * destruct IH as (Hb & _ & Hall). split_and!; [lia|lia| |].
        -- split; [lia|]. intros Hf. specialize (Hf y (list_elem_of_here _ _)). congruence.
        -- split.
           ++ intros Ht y' [->|Hy']%elem_of_cons; [done|]. apply Hall; [lia|done].
           ++ intros Ht. assert (trues' = S trues + length ys); [|lia].
              apply Hall. intros; apply Ht. by right.
      * destruct IH as (y' & Hy' & Hn). exists y'. split; [by right|done].
    + specialize (IH trues).
      destruct (countYs Compare x op ys trues) as [trues'|].
      * destruct IH as (Hb & Hnone & _). split_and!; [lia|lia| |].
        -- split.
           ++ intros Ht y' [->|Hy']%elem_of_cons; [done|]. by apply Hnone.
           ++ intros Ht. apply Hnone. intros; apply Ht. by right.
        -- split; [lia|]. intros Hf. specialize (Hf y (list_elem_of_here _ _)). congruence.
      * destruct IH as (y' & Hy' & Hn). exists y'. split; [by right|done].
    + exists y. split; [left|done].
Qed.

Lemma countXs_spec (xs : list Const) (op : Token) (ys : list Const) (trues : nat) :
  match countXs Compare xs op ys trues with
  | Some trues' =>
      trues ≤ trues' ≤ trues + length xs * length ys
      ∧ (trues' = trues ↔
           ∀ x y, x ∈ xs → y ∈ ys → pairTrue Compare x op y = Some false)
      ∧ (trues' = trues + length xs * length ys ↔
           ∀ x y, x ∈ xs → y ∈ ys → pairTrue Compare x op y = Some true)
  | None => ∃ x y, x ∈ xs ∧ y ∈ ys ∧ pairTrue Compare x op y = None
  end.
Proof.
  revert trues. induction xs as [|x xs IH]; intros trues; simpl.
  - split_and!; [lia|lia| |]; (split; [by intros _ x y Hx%elem_of_nil|lia]).
  - pose proof (countYs_spec x op ys trues) as Hys.
    destruct (countYs Compare x op ys trues) as [trues1|].
    + destruct Hys as (Hb1 & Hnone1 & Hall1). specialize (IH trues1).
      destruct (countXs Compare xs op ys trues1) as [trues'|].
      * destruct IH as (Hb & Hnone & Hall). split_and!; [lia|lia| |].
        -- split.
           ++ intros Ht x' y' [->|Hx']%elem_of_cons Hy'.
              ** apply Hnone1; [lia|done].
              ** apply Hnone; [lia|done|done].
           ++ intros Ht.
              assert (trues1 = trues) as -> by (apply Hnone1; intros; apply Ht; [left|done]).
              apply Hnone. intros; apply Ht; [by right|done].
        -- split.
           ++ intros Ht x' y' [->|Hx']%elem_of_cons Hy'.
              ** apply Hall1; [lia|done].
              ** apply Hall; [lia|done|done].
           ++ intros Ht.
              assert (trues1 = trues + length ys) as ->
                by (apply Hall1; intros; apply Ht; [left|done]).
              assert (trues' = trues + length ys + length xs * length ys); [|lia].
              apply Hall. intros; apply Ht; [by right|done].
      * destruct IH as (x' & y' & Hx' & Hy' & Hn). exists x', y'.
        split_and!; [by right|done|done].
    + destruct Hys as (y & Hy & Hn). exists x, y. split_and!; [left|done|done].
Qed.



End ConstsFacts.

(** *** The check on integer constants *)

Section ConstsExamples.
Import token Consts.

(** [x == x] where [x] resolves to the single constant 5. *)
Example same_single_constant_always_true :
  exampleReport EQL (Phi "t0") (Phi "t0") = Problem true [intConst 5] EQL [intConst 5].
Proof. vm_compute. reflexivity. Qed.

(** [x == y] where [x] is 1 or 2 and [y] is 3. *)
Example disjoint_constants_always_false :
  exampleReport EQL (Phi "t1") (VConst (intConst 3))
  = Problem false [intConst 1; intConst 2] EQL [intConst 3].
Proof. vm_compute. reflexivity. Qed.

(** [x == y] where [y] is a parameter, or the counter of a loop. *)
Example unresolved_operand_not_reported :
  exampleReport EQL (Phi "t1") (Param "y") = Silent
  ∧ exampleReport EQL (Phi "t3") (VConst (intConst 0)) = Silent.
Proof. split; vm_compute; reflexivity. Qed.

(** [x < y] where [x] is 1 or 2 and [y] is 2: the outcomes differ. *)
Example mixed_outcomes_not_reported :
  exampleReport LSS (Phi "t1") (VConst (intConst 2)) = Silent.
Proof. vm_compute. reflexivity. Qed.


(** C6 at [t2 = phi [1, 2, 1]] and at [t4 = phi [phi [1, 2], 1]]: the
    result of the query holds the constant 1 twice, since [uniq] only
    compares neighbours. *)
Lemma consts_keeps_distant_duplicates :
  (∃ V, constsNil exampleFn (Phi "t2") = Known [intConst 1; intConst 2; intConst 1] V)
  ∧ (∃ V, constsNil exampleFn (Phi "t4") = Known [intConst 1; intConst 2; intConst 1] V)
  ∧ ¬ NoDup (values [intConst 1; intConst 2; intConst 1]).
Proof.
  split_and!.
  - eexists. vm_compute. reflexivity.
  - eexists. vm_compute. reflexivity.
  - intros Hnd. apply NoDup_cons in Hnd as [Hnin _]. apply Hnin.
    simpl. right. left.
Qed.

(** C10.  Two nil constants count as true and a nil constant on the
    left of another constant counts as false, whatever the operator;
    a nil constant on the right of another constant is handed to
    [constant.Compare], which panics: at [0 == nil] the pair is not
    counted as false, and the check ends in the panic. *)
Lemma nil_right_operand_panics :
  (∀ op, pairTrue constant.Compare (nilConst "uintptr") op (nilConst "uintptr") = Some true)
  ∧ (∀ op z, pairTrue constant.Compare (nilConst "uintptr") op (intConst z) = Some false)
  ∧ (∀ op z, pairTrue constant.Compare (intConst z) op (nilConst "uintptr") = None)
  ∧ exampleReport EQL (VConst (intConst 0)) (VConst (nilConst "uintptr")) = Panic.
Proof. split_and!; [done|done|done|vm_compute; reflexivity]. Qed.

End ConstsExamples.

(** ** Self calls that cannot be followed by a return *)

Section RecursionFacts.
Import Recursion.

Variable Dominates : BasicBlock → BasicBlock → bool.

Lemma canReturn_iff (block : BasicBlock) (blocks : list BasicBlock) :
  canReturn Dominates block blocks = true
  ↔ ∃ b, b ∈ blocks ∧ Dominates block b = false ∧ endsInReturn b = true.
Proof.
  induction blocks as [|b rest IH]; simpl.
  - split; [done|]. by intros (b & Hb%elem_of_nil & _).
  - destruct (Dominates block b) eqn:Hdom.
    + rewrite IH. split.
      * intros (b' & Hb' & H). exists b'. split; [by right|done].
      * intros (b' & [->|Hb']%elem_of_cons & Hd & Hr); [congruence|eauto].
    + destruct (endsInReturn b) eqn:Hret.
      * split; [|done]. intros _. exists b. split; [left|done].
      * rewrite IH. split.
        -- intros (b' & Hb' & H). exists b'. split; [by right|done].
        -- intros (b' & [->|Hb']%elem_of_cons & Hd & Hr); [congruence|eauto].
Qed.

Lemma instrLoop_iff (ssafn : Function) (block : BasicBlock) (i0 : nat)
    (instrs : list Instruction) (n i : nat) :
  (n, i) ∈ instrLoop Dominates ssafn block i0 instrs
  ↔ n = Index block
    ∧ ∃ ins, i0 ≤ i ∧ instrs !! (i - i0) = Some ins
             ∧ isSelfCall ssafn ins = true
             ∧ canReturn Dominates block (Blocks ssafn) = false.
Proof.
  revert i0. induction instrs as [|ins rest IH]; intros i0; simpl.
  - split; [by intros ?%elem_of_nil|]. by intros (_ & ins & _ & ? & _).
  - rewrite elem_of_app, IH. split.
    + intros [Hhere|(-> & ins' & Hle & Hlook & Hself & Hcan)].
      * destruct (isSelfCall ssafn ins && negb (canReturn Dominates block (Blocks ssafn)))
          eqn:Hc; [|by apply elem_of_nil in Hhere].
        apply list_elem_of_singleton in Hhere as [= -> ->].
        apply andb_true_iff in Hc as [Hself Hcan%negb_true_iff].
        split; [done|]. exists ins. rewrite Nat.sub_diag. done.
      * split; [done|]. exists ins'. split_and!; [lia| |done|done].
        replace (i - i0) with (S (i - S i0)) by lia. done.
    + intros (-> & ins' & Hle & Hlook & Hself & Hcan).
      destruct (decide (i = i0)) as [->|Hne].
      * left. rewrite Nat.sub_diag in Hlook. injection Hlook as ->.
        rewrite Hself, Hcan. simpl. left.
      * right. split; [done|]. exists ins'. split_and!; [lia| |done|done].
        replace (i - i0) with (S (i - S i0)) in Hlook by lia. done.
Qed.

Lemma blockLoop_iff (ssafn : Function) (blocks : list BasicBlock) (n i : nat) :
  (n, i) ∈ blockLoop Dominates ssafn blocks
  ↔ ∃ block ins, block ∈ blocks ∧ Index block = n ∧ Instrs block !! i = Some ins
                 ∧ isSelfCall ssafn ins = true
                 ∧ canReturn Dominates block (Blocks ssafn) = false.
Proof.
  induction blocks as [|block rest IH]; simpl.
  - split; [by intros ?%elem_of_nil|]. by intros (b & ins & Hb%elem_of_nil & _).
  - rewrite elem_of_app, IH, instrLoop_iff. split.
    + intros [(-> & ins & _ & Hlook & Hself & Hcan)|(b & ins & Hb & H)].
      * rewrite Nat.sub_0_r in Hlook. exists block, ins. split; [left|done].
      * exists b, ins. split; [by right|done].
    + intros (b & ins & [->|Hb]%elem_of_cons & <- & Hlook & Hself & Hcan).
      * left. split; [done|]. exists ins. rewrite Nat.sub_0_r. split; [lia|done].
      * right. exists b, ins. done.
Qed.

(** C3, as the code decides it.  The [i]-th instruction of block [n] is
    reported exactly when it is a static call of the function itself
    and no block of the function that the call's block does not
    dominate ends in a return. *)
Theorem self_call_reported_iff_no_return_outside (ssafn : Function) (n i : nat) :
  (n, i) ∈ CheckInfiniteRecursion Dominates (Some ssafn)
  ↔ ∃ block ins, block ∈ Blocks ssafn ∧ Index block = n
                 ∧ Instrs block !! i = Some ins
                 ∧ isSelfCall ssafn ins = true
                 ∧ ∀ b, b ∈ Blocks ssafn → Dominates block b = false →
                        endsInReturn b = false.
Proof.
  unfold CheckInfiniteRecursion.
  assert (∀ block, canReturn Dominates block (Blocks ssafn) = false
                   ↔ ∀ b, b ∈ Blocks ssafn → Dominates block b = false →
                          endsInReturn b = false) as Hcan.
  { intros block. rewrite <- not_true_iff_false, canReturn_iff. split.
    - intros Hno b Hb Hd. apply not_true_iff_false. intros Hr. apply Hno. eauto.
    - intros Hall (b & Hb & Hd & Hr). rewrite (Hall b Hb Hd) in Hr. done. }
  destruct (decide (length (Blocks ssafn) = 0)) as [Hlen|Hlen].
  - split; [by intros ?%elem_of_nil|].
    intros (block & ins & Hb & _). destruct (Blocks ssafn); [|done].
    by apply elem_of_nil in Hb.
  - rewrite blockLoop_iff. by setoid_rewrite Hcan.
Qed.

End RecursionFacts.

Section RecursionExample.
Import Recursion.

Lemma callThenReturn_dominance (a b : BasicBlock) :
  a ∈ Blocks callThenReturn → b ∈ Blocks callThenReturn →
  callThenReturnDominates a b = true ↔ dominates callThenReturn a b.
Proof.
  intros Ha Hb. unfold callThenReturnDominates. rewrite bool_decide_eq_true.
  apply list_elem_of_In in Ha, Hb. simpl in Ha, Hb.
  split.
  - intros Hle entry rest [= <-] Hpath Hlast.
    destruct Ha as [<-|[<-|[]]]; [left|].
    destruct Hb as [<-|[<-|[]]]; [simpl in Hle; lia|].
    by apply last_Some_elem_of.
  - intros Hdom.
    destruct Ha as [<-|[<-|[]]]; [simpl; lia|].
    destruct Hb as [<-|[<-|[]]]; [|simpl; lia].
    specialize (Hdom _ [] eq_refl I eq_refl).
    apply list_elem_of_singleton in Hdom. discriminate.
Qed.

(** C3, the second clause as the claim states it, fails: the call of
    [callThenReturn] is followed by a return on the only path forward
    from its block, and the call is reported, under the dominance
    relation of that function. *)
Lemma reported_although_return_follows :
  (∀ a b, a ∈ Blocks callThenReturn → b ∈ Blocks callThenReturn →
     callThenReturnDominates a b = true ↔ dominates callThenReturn a b)
  ∧ (∃ block b, Blocks callThenReturn !! 0 = Some block
       ∧ isSelfCall callThenReturn (Call false (FunctionValue "f")) = true
       ∧ Instrs block !! 0 = Some (Call false (FunctionValue "f"))
       ∧ rtc (edge callThenReturn) block b ∧ endsInReturn b = true)
  ∧ CheckInfiniteRecursion callThenReturnDominates (Some callThenReturn) = [(0, 0)].
Proof.
  split; [apply callThenReturn_dominance|]. split; [|reflexivity].
  eexists _, (mkBlock 1 [Return] []). split_and!; [reflexivity..| |reflexivity].
  apply rtc_once. split_and!; simpl.
  - left.
  - right. left.
  - left.
Qed.

End RecursionExample.

(** ** Loops that are left unconditionally *)

Section LoopFacts.
Import token Loop.

(** Induction over the tree, through the children of a node. *)
Lemma Node_children_ind (P : Node → Prop) :
  (∀ n, Forall P (children n) → P n) → ∀ n, P n.
Proof.
  intros step. fix IH 1. intros n. apply step.
  destruct n as [ | ? l| ? l| ? l| ? l| ? h b| ? h ? b| ? ? st| ? l]; simpl.
  - constructor.
  - induction l; constructor; [apply IH|assumption].
  - induction l; constructor; [apply IH|assumption].
  - induction l; constructor; [apply IH|assumption].
  - induction l; constructor; [apply IH|assumption].
  - apply Forall_app. split.
    + induction h; constructor; [apply IH|assumption].
    + induction b; constructor; [apply IH|assumption].
  - apply Forall_app. split.
    + induction h; constructor; [apply IH|assumption].
    + induction b; constructor; [apply IH|assumption].
  - constructor; [apply IH|constructor].
  - induction l; constructor; [apply IH|assumption].
Qed.

Lemma Inspect_unfold {S : Type} (f : Node → S → S * bool) (node : Node) (s : S) :
  Inspect f node s =
  match f node s with
  | (s', false) => s'
  | (s', true) => InspectList f (children node) s'
  end.
Proof.
  assert (∀ l s0,
    (fix all (l : list Node) (s : S) : S :=
       match l with
       | [] => s
       | n :: l' => all l' (Inspect f n s)
       end) l s0 = InspectList f l s0) as Hall.
  { induction l as [|n l IH]; intros s0; [done|]. simpl. by rewrite IH. }
  destruct node; simpl; destruct (f _ s) as [s' []]; try done;
    rewrite ?Hall; try done; unfold InspectList; by rewrite foldl_app.
Qed.

Lemma InspectList_cons {S : Type} (f : Node → S → S * bool) n l (s : S) :
  InspectList f (n :: l) s = InspectList f l (Inspect f n s).
Proof. done. Qed.

Lemma within_child (n c m : Node) : c ∈ children n → within c m → within n m.
Proof. intros Hc Hm. by eapply rtc_l. Qed.

(** *** The walk that looks for a goto or a continue *)

Section Guard.
Variables (labels : gmap nat nat) (loop : nat).

Lemma exitGuard_defeated (node : Node) (x : option nat) :
  defeatsExit labels loop node → exitGuard labels loop node x = (None, false).
Proof.
  destruct node as [id tok Label| | | | | | | | ]; try done.
  destruct tok; try done. simpl.
  destruct Label as [l|]; [|done]. simpl. by intros ->.
Qed.

Lemma exitGuard_passed (node : Node) (x : option nat) :
  ¬ defeatsExit labels loop node → exitGuard labels loop node x = (x, true).
Proof.
  destruct node as [id tok Label| | | | | | | | ]; try done.
  destruct tok; try done; simpl.
  destruct Label as [l|]; simpl; [|done].
  by destruct (bool_decide (labels !! l = Some loop)).
Qed.

Lemma defeatsExit_dec (node : Node) :
  defeatsExit labels loop node ∨ ¬ defeatsExit labels loop node.
Proof.
  destruct node as [id tok Label| | | | | | | | ]; try (by right; intros []).
  destruct tok; try (by right; intros []); simpl; [|by left].
  destruct (targets labels loop Label); [by left|by right].
Qed.

Lemma guard_keeps_none (node : Node) :
  Inspect (exitGuard labels loop) node None = None.
Proof.
  induction node as [node IH] using Node_children_ind.
  rewrite Inspect_unfold.
  destruct (defeatsExit_dec node) as [Hd|Hd].
  - by rewrite exitGuard_defeated.
  - rewrite exitGuard_passed by done.
    induction IH as [|c l Hc _ IHl]; [done|].
    by rewrite InspectList_cons, Hc.
Qed.

Lemma guardList_keeps_none (l : list Node) :
  InspectList (exitGuard labels loop) l None = None.
Proof.
  induction l as [|n l IH]; [done|].
  by rewrite InspectList_cons, guard_keeps_none.
Qed.

Lemma guard_clear (node : Node) (x : option nat) :
  (∀ m, within node m → ¬ defeatsExit labels loop m) →
  Inspect (exitGuard labels loop) node x = x.
Proof.
  revert x. induction node as [node IH] using Node_children_ind. intros x Hclear.
  rewrite Inspect_unfold, exitGuard_passed by (apply Hclear, rtc_refl).
  assert (∀ c m, c ∈ children node → within c m → ¬ defeatsExit labels loop m) as Hsub.
  { intros c m Hc Hm. eapply Hclear, within_child; done. }
  clear Hclear. induction IH as [|c l Hc _ IHl]; [done|].
  rewrite InspectList_cons, Hc.
  - apply IHl. intros c' m Hc'. apply Hsub. by right.
  - intros m. apply Hsub. left.
Qed.

Lemma guardList_clear (l : list Node) (x : option nat) :
  (∀ s m, s ∈ l → within s m → ¬ defeatsExit labels loop m) →
  InspectList (exitGuard labels loop) l x = x.
Proof.
  intros Hclear. induction l as [|n l IH]; [done|].
  rewrite InspectList_cons, guard_clear.
  - apply IH. intros s m Hs. apply Hclear. by right.
  - intros m. apply Hclear. left.
Qed.

Lemma guardList_defeated (l : list Node) (x : option nat) (s m : Node) :
  s ∈ l → within s m → defeatsExit labels loop m →
  InspectList (exitGuard labels loop) l x = None.
Proof.
  intros Hs Hm Hd.
  assert (∀ n, within n m → ∀ x, Inspect (exitGuard labels loop) n x = None) as Hone.
  { clear s l x Hs Hm. intros n Hm.
    induction Hm as [n|n c m Hc _ IH]; intros x; rewrite Inspect_unfold.
    - by rewrite exitGuard_defeated.
    - destruct (defeatsExit_dec n) as [Hn|Hn].
      + by rewrite exitGuard_defeated.
      + rewrite exitGuard_passed by done.
        revert x. induction (children n) as [|c' l IHl]; intros x;
          [by apply elem_of_nil in Hc|].
        rewrite InspectList_cons.
        apply elem_of_cons in Hc as [<-|Hc].
        * rewrite IH by done. apply guardList_keeps_none.
        * by apply IHl. }
  revert x. induction l as [|n l IHl]; intros x; [by apply elem_of_nil in Hs|].
  rewrite InspectList_cons. apply elem_of_cons in Hs as [<-|Hs].
  - rewrite (Hone _ Hm). apply guardList_keeps_none.
  - by apply IHl.
Qed.

End Guard.


(** *** The scan of the statements of the body *)

Section DirectScan.
Variables (labels : gmap nat nat) (loop : nat).

Local Abbreviation classify := (Loop.classify labels loop).
Local Abbreviation directContinue := (Loop.directContinue labels loop).

Lemma directScan_cons (stmt : Node) (rest : list Node) (e : option nat) (b : bool) :
  directScan labels loop (stmt :: rest) e b =
  match classify stmt with
  | AContinue => None
  | AnExit => directScan labels loop rest (Some (nodeId stmt)) b
  | ABranching => directScan labels loop rest e true
  | Plain => directScan labels loop rest e b
  end.
Proof.
  destruct stmt as [id tok Label| | | | | | | | ]; try done.
  destruct tok; try done; simpl; by destruct (targets labels loop Label).
Qed.

Lemma classify_spec (stmt : Node) :
  (classify stmt = AContinue ↔ directContinue stmt)
  ∧ (classify stmt = AnExit ↔ isExit labels loop stmt)
  ∧ (classify stmt = ABranching ↔ isBranching stmt).
Proof.
  destruct stmt as [id tok Label| | | | | | | | ]; simpl;
    try (split_and!; split; (done || (by intros []))).
  destruct tok; simpl; try (split_and!; split; (done || (by intros []))).
  all: destruct (targets labels loop Label); split_and!; split; done || (by intros []).
Qed.

Lemma lastExit_skip (stmt : Node) (rest : list Node) (p : nat) :
  lastExit labels loop rest p → lastExit labels loop (stmt :: rest) p.
Proof.
  intros (pre & x & post & -> & Hx & Hp & Hpost).
  exists (stmt :: pre), x, post. done.
Qed.

Lemma lastExit_cons_inv (stmt : Node) (rest : list Node) (p : nat) :
  lastExit labels loop (stmt :: rest) p →
  lastExit labels loop rest p
  ∨ (isExit labels loop stmt ∧ nodeId stmt = p ∧ ∀ s, s ∈ rest → ¬ isExit labels loop s).
Proof.
  intros (pre & x & post & Heq & Hx & Hp & Hpost).
  destruct pre as [|y pre]; simpl in Heq; injection Heq as -> ->.
  - by right.
  - left. by exists pre, x, post.
Qed.

Lemma lastExit_exit (stmts : list Node) (p : nat) :
  lastExit labels loop stmts p → ∃ s, s ∈ stmts ∧ isExit labels loop s.
Proof.
  intros (pre & x & post & -> & Hx & _). exists x. split; [|done].
  apply elem_of_app. right. left.
Qed.

Lemma directScan_spec (stmts : list Node) (e0 : option nat) (b0 : bool) :
  match directScan labels loop stmts e0 b0 with
  | None => ∃ s, s ∈ stmts ∧ directContinue s
  | Some (e, b) =>
      (∀ s, s ∈ stmts → ¬ directContinue s)
      ∧ (b = true ↔ b0 = true ∨ ∃ s, s ∈ stmts ∧ isBranching s)
      ∧ ((e = e0 ∧ ∀ s, s ∈ stmts → ¬ isExit labels loop s)
         ∨ ∃ p, e = Some p ∧ lastExit labels loop stmts p)
  end.
Proof.
  revert e0 b0. induction stmts as [|stmt rest IH]; intros e0 b0.
  - simpl. split_and!.
    + by intros s ?%elem_of_nil.
    + split; [by left|]. by intros [?|(s & ?%elem_of_nil & _)].
    + left. split; [done|]. by intros s ?%elem_of_nil.
  - rewrite directScan_cons.
    destruct (classify_spec stmt) as (Hcont & Hexit & Hbranch).
    destruct (classify stmt) eqn:Hclass.
    + exists stmt. split; [left|]. by apply Hcont.
    + specialize (IH (Some (nodeId stmt)) b0).
      destruct (directScan labels loop rest (Some (nodeId stmt)) b0) as [[e b]|].
      * destruct IH as (Hnc & Hb & He). split_and!.
        -- intros s [->|Hs]%elem_of_cons; [|by apply Hnc].
           intros Hc%Hcont. congruence.
        -- rewrite Hb. split.
           ++ intros [?|(s & Hs & Hbr)]; [by left|]. right. exists s. split; [by right|done].
           ++ intros [?|(s & [->|Hs]%elem_of_cons & Hbr)]; [by left| |right; eauto].
              apply Hbranch in Hbr. congruence.
        -- right. destruct He as [[-> Hnone]|(p & -> & Hlast)].
           ++ exists (nodeId stmt). split; [done|].
              exists [], stmt, rest. split_and!; [done| |done|done]. by apply Hexit.
           ++ exists p. split; [done|]. by apply lastExit_skip.
      * destruct IH as (s & Hs & Hc). exists s. split; [by right|done].
    + specialize (IH e0 true).
      destruct (directScan labels loop rest e0 true) as [[e b]|].
      * destruct IH as (Hnc & Hb & He). split_and!.
        -- intros s [->|Hs]%elem_of_cons; [|by apply Hnc].
           intros Hc%Hcont. congruence.
        -- split; [|by intros; apply Hb; left].
           intros _. right. exists stmt. split; [left|]. by apply Hbranch.
        -- destruct He as [[-> Hnone]|(p & -> & Hlast)].
           ++ left. split; [done|]. intros s [->|Hs]%elem_of_cons; [|by apply Hnone].
              intros Hx%Hexit. congruence.
           ++ right. exists p. split; [done|]. by apply lastExit_skip.
      * destruct IH as (s & Hs & Hc). exists s. split; [by right|done].
    + specialize (IH e0 b0).
      destruct (directScan labels loop rest e0 b0) as [[e b]|].
      * destruct IH as (Hnc & Hb & He). split_and!.
        -- intros s [->|Hs]%elem_of_cons; [|by apply Hnc].
           intros Hc%Hcont. congruence.
        -- rewrite Hb. split.
           ++ intros [?|(s & Hs & Hbr)]; [by left|]. right. exists s. split; [by right|done].
           ++ intros [?|(s & [->|Hs]%elem_of_cons & Hbr)]; [by left| |right; eauto].
              apply Hbranch in Hbr. congruence.
        -- destruct He as [[-> Hnone]|(p & -> & Hlast)].
           ++ left. split; [done|]. intros s [->|Hs]%elem_of_cons; [|by apply Hnone].
              intros Hx%Hexit. congruence.
           ++ right. exists p. split; [done|]. by apply lastExit_skip.
      * destruct IH as (s & Hs & Hc). exists s. split; [by right|done].
Qed.

Lemma directContinue_defeats (stmt : Node) :
  directContinue stmt → defeatsExit labels loop stmt.
Proof. destruct stmt as [id tok Label| | | | | | | | ]; try done. by destruct tok. Qed.

Lemma lastExit_unique (stmts : list Node) (p q : nat) :
  lastExit labels loop stmts p → lastExit labels loop stmts q → p = q.
Proof.
  induction stmts as [|stmt rest IH]; intros Hp Hq.
  - destruct Hp as (pre & x & post & Heq & _). by destruct pre.
  - apply lastExit_cons_inv in Hp as [Hp|(Hx & <- & Hnone)];
      apply lastExit_cons_inv in Hq as [Hq|(Hy & <- & Hnone')]; [by apply IH| | |done].
    + apply lastExit_exit in Hp as (s & Hs & Hx). by destruct (Hnone' s).
    + apply lastExit_exit in Hq as (s & Hs & Hx'). by destruct (Hnone s).
Qed.

(** What the check of one loop reports. *)
Lemma checkLoop_reports (body : list Node) (p : nat) :
  (checkLoop labels loop body).1 = Some p
  ↔ 2 ≤ length body
    ∧ lastExit labels loop body p
    ∧ (∃ s, s ∈ body ∧ isBranching s)
    ∧ ∀ s m, s ∈ body → within s m → ¬ defeatsExit labels loop m.
Proof.
  unfold checkLoop.
  destruct (decide (length body < 2)) as [Hlen|Hlen].
  { split; [done|]. intros (? & _). lia. }
  pose proof (directScan_spec body None false) as Hscan.
  destruct (directScan labels loop body None false) as [[e b]|].
  - destruct Hscan as (Hnc & Hb & He).
    destruct e as [q|].
    + destruct He as [[? _]|(q' & [= <-] & Hlast)]; [done|].
      destruct b; simpl.
      * split.
        -- intros Hrun. assert (∀ s m, s ∈ body → within s m → ¬ defeatsExit labels loop m)
             as Hclear.
           { intros s m Hs Hm Hd.
             by rewrite (guardList_defeated _ _ _ _ _ _ Hs Hm Hd) in Hrun. }
           rewrite guardList_clear in Hrun by done. injection Hrun as <-.
           split_and!; [lia|done| |done].
           destruct Hb as [Hb _]. by destruct (Hb eq_refl).
        -- intros (_ & Hp & _ & Hclear). rewrite guardList_clear by done.
           f_equal. by eapply lastExit_unique.
      * split; [done|]. intros (_ & _ & Hbr & _).
        destruct Hb as [_ Hb]. by specialize (Hb (or_intror Hbr)).
    + simpl. split; [done|]. intros (_ & Hp & _).
      destruct He as [[_ Hnone]|(q' & ? & _)]; [|done].
      apply lastExit_exit in Hp as (s & Hs & Hx). by destruct (Hnone s).
  - simpl. split; [done|]. intros (_ & _ & _ & Hclear).
    destruct Hscan as (s & Hs & Hc%directContinue_defeats).
    destruct (Hclear s s Hs (rtc_refl _ _) Hc).
Qed.

End DirectScan.


(** *** The walk over the function body *)

Section Walk.
Variable labels : gmap nat nat.

Lemma walked_inv (n m : Node) :
  walked labels n m ↔
  m = n ∨ ((visit labels n).2 = true ∧ ∃ c, c ∈ children n ∧ walked labels c m).
Proof.
  split.
  - intros [->|(c & [Hd Hc] & Hm)]%rtc_inv; [by left|]. right. eauto.
  - intros [->|(Hd & c & Hc & Hm)]; [apply rtc_refl|]. by eapply rtc_l.
Qed.

Lemma reportList_walk (l : list Node) :
  Forall (λ n, ∀ rs p, p ∈ Inspect (report labels) n rs
                       ↔ p ∈ rs ∨ ∃ m, walked labels n m ∧ (visit labels m).1 = Some p) l →
  ∀ rs p, p ∈ InspectList (report labels) l rs
          ↔ p ∈ rs ∨ ∃ s m, s ∈ l ∧ walked labels s m ∧ (visit labels m).1 = Some p.
Proof.
  induction 1 as [|n l Hn _ IH]; intros rs p.
  - simpl. split; [by left|]. by intros [?|(s & m & ?%elem_of_nil & _)].
  - rewrite InspectList_cons, IH, Hn. split.
    + intros [[?|(m & Hm & Hv)]|(s & m & Hs & Hm & Hv)]; [by left|right..].
      * exists n, m. split; [left|done].
      * exists s, m. split; [by right|done].
    + intros [?|(s & m & [->|Hs]%elem_of_cons & Hm & Hv)]; [by left; left| |].
      * left. right. eauto.
      * right. eauto.
Qed.

Lemma report_walk (n : Node) (rs : list nat) (p : nat) :
  p ∈ Inspect (report labels) n rs
  ↔ p ∈ rs ∨ ∃ m, walked labels n m ∧ (visit labels m).1 = Some p.
Proof.
  revert rs p. induction n as [n IH] using Node_children_ind. intros rs p.
  pose proof (reportList_walk _ IH) as IHl. clear IH.
  rewrite Inspect_unfold. unfold report.
  destruct (visit labels n) as [o d] eqn:Hvisit.
  assert (∀ rs', (p ∈ rs' ↔ p ∈ rs ∨ o = Some p) →
            (if d then p ∈ InspectList (report labels) (children n) rs' else p ∈ rs')
            ↔ p ∈ rs ∨ ∃ m, walked labels n m ∧ (visit labels m).1 = Some p) as Hgoal.
  { intros rs' Hrs'. destruct d.
    - rewrite IHl, Hrs'. split.
      + intros [[?|Ho]|(c & m & Hc & Hm & Hv)]; [by left|right..].
        * exists n. split; [apply rtc_refl|]. by rewrite Hvisit.
        * exists m. split; [|done]. apply walked_inv. right. rewrite Hvisit. eauto.
      + intros [?|(m & Hm & Hv)]; [by left; left|].
        apply walked_inv in Hm as [->|(_ & c & Hc & Hm)].
        * left. right. by rewrite Hvisit in Hv.
        * right. eauto.
    - rewrite Hrs'. split.
      + intros [?|Ho]; [by left|]. right. exists n. split; [apply rtc_refl|].
        by rewrite Hvisit.
      + intros [?|(m & Hm & Hv)]; [by left|].
        apply walked_inv in Hm as [->|(Hd & _)].
        * right. by rewrite Hvisit in Hv.
        * by rewrite Hvisit in Hd. }
  assert (∀ exit, p ∈ rs ++ [exit] ↔ p ∈ rs ∨ Some exit = Some p) as Hsome.
  { intros exit. rewrite elem_of_app, list_elem_of_singleton. split.
    - intros [?|Hp]; [by left|right; by rewrite Hp].
    - intros [?|Hp]; [by left|right; by injection Hp]. }
  assert (p ∈ rs ↔ p ∈ rs ∨ None = Some p) as Hnone.
  { split; [by left|]. by intros [?|?]. }
  destruct o as [exit|]; destruct d; apply Hgoal; auto.
Qed.

End Walk.

(** What the check reports for a function: the statements reported at
    the nodes its walk gets to. *)
Lemma CheckIneffectiveLoop_walk (body : list Node) (p : nat) :
  p ∈ CheckIneffectiveLoop (Some body)
  ↔ ∃ s m, s ∈ body ∧ walked (InspectList recordLabel body ∅) s m
           ∧ (visit (InspectList recordLabel body ∅) m).1 = Some p.
Proof.
  unfold CheckIneffectiveLoop. rewrite reportList_walk.
  - split; [|by right]. by intros [?%elem_of_nil|?].
  - apply Forall_forall. intros n _. apply report_walk.
Qed.

Lemma visit_examined (labels : gmap nat nat) (node : Node) (p : nat) :
  (visit labels node).1 = Some p →
  ∃ loop body, examinedLoop node loop body ∧ (checkLoop labels loop body).1 = Some p.
Proof.
  destruct node as [ | | | | |id h b|id h [typ|] b| | ]; try done.
  - intros Hv. by exists id, b.
  - intros Hv. exists id, b. by destruct typ.
Qed.

Lemma examined_visit (labels : gmap nat nat) (node : Node) (loop : nat) (body : list Node) :
  examinedLoop node loop body → visit labels node = checkLoop labels loop body.
Proof.
  destruct node as [ | | | | |id h b|id h [typ|] b| | ]; try done.
  - by intros [-> ->].
  - intros (Htyp & -> & ->). by destruct typ.
Qed.

(** *** Walks that only append to their state *)

Section Appending.
Context {A : Type} (f : Node → list A → list A * bool).
Context (g : Node → list A) (d : Node → bool).
Hypothesis f_appends : ∀ n s, f n s = (s ++ g n, d n).

Lemma InspectList_appends_from (l : list Node) :
  Forall (λ n, ∀ s, Inspect f n s = s ++ Inspect f n []) l →
  ∀ s, InspectList f l s = s ++ InspectList f l [].
Proof.
  induction 1 as [|c l Hc _ IH]; intros s.
  - simpl. by rewrite app_nil_r.
  - rewrite !InspectList_cons, IH, Hc, (IH (Inspect f c [])). by rewrite app_assoc.
Qed.

Lemma Inspect_appends (n : Node) (s : list A) : Inspect f n s = s ++ Inspect f n [].
Proof.
  revert s. induction n as [n IH] using Node_children_ind. intros s.
  pose proof (InspectList_appends_from _ IH) as IHl.
  rewrite !Inspect_unfold, !f_appends. destruct (d n).
  - rewrite IHl, (IHl ([] ++ g n)). simpl. by rewrite app_assoc.
  - done.
Qed.

Lemma InspectList_appends (l : list Node) (s : list A) :
  InspectList f l s = s ++ InspectList f l [].
Proof.
  apply InspectList_appends_from, Forall_forall. intros n _. apply Inspect_appends.
Qed.

Lemma Inspect_nil (n : Node) :
  Inspect f n [] = g n ++ (if d n then InspectList f (children n) [] else []).
Proof.
  rewrite Inspect_unfold, f_appends. simpl. destruct (d n).
  - apply InspectList_appends.
  - by rewrite app_nil_r.
Qed.

Lemma InspectList_nil_cons (c : Node) (l : list Node) :
  InspectList f (c :: l) [] = Inspect f c [] ++ InspectList f l [].
Proof. rewrite InspectList_cons. apply InspectList_appends. Qed.

End Appending.

(** *** The identities of the nodes *)

Lemma nodeIdsOf_eq (n : Node) : nodeIdsOf n = nodeId n :: nodeIds (children n).
Proof. unfold nodeIdsOf. by rewrite (Inspect_nil collect (λ n, [nodeId n]) (λ _, true)). Qed.

Lemma nodeIds_cons (c : Node) (l : list Node) : nodeIds (c :: l) = nodeIdsOf c ++ nodeIds l.
Proof. apply (InspectList_nil_cons collect (λ n, [nodeId n]) (λ _, true)). done. Qed.

Lemma nodeIds_sub (l : list Node) (c : Node) (p : nat) :
  c ∈ l → p ∈ nodeIdsOf c → p ∈ nodeIds l.
Proof.
  induction l as [|a l IH]; intros Hc Hp; [by apply elem_of_nil in Hc|].
  rewrite nodeIds_cons, elem_of_app.
  apply elem_of_cons in Hc as [<-|Hc]; [by left|right; by apply IH].
Qed.

Lemma nodeIds_elem (l : list Node) (c : Node) : c ∈ l → nodeId c ∈ nodeIds l.
Proof. intros Hc. apply (nodeIds_sub l c); [done|]. rewrite nodeIdsOf_eq. left. Qed.

(** Two nodes of a block that hold the same identity are the same. *)
Lemma nodeIds_same_owner (l : list Node) (y c : Node) (p : nat) :
  NoDup (nodeIds l) → y ∈ l → c ∈ l → p ∈ nodeIdsOf y → p ∈ nodeIdsOf c → y = c.
Proof.
  induction l as [|a l IH]; intros Hnd Hy Hc Hpy Hpc; [by apply elem_of_nil in Hy|].
  rewrite nodeIds_cons in Hnd. apply NoDup_app in Hnd as (_ & Hdisj & Hl).
  apply elem_of_cons in Hy as [->|Hy]; apply elem_of_cons in Hc as [->|Hc].
  - done.
  - destruct (Hdisj p Hpy). by apply (nodeIds_sub l c).
  - destruct (Hdisj p Hpc). by apply (nodeIds_sub l y).
  - by apply IH.
Qed.

Lemma nodeIds_NoDup_elem (l : list Node) (c : Node) :
  NoDup (nodeIds l) → c ∈ l → NoDup (nodeIdsOf c).
Proof.
  induction l as [|a l IH]; intros Hnd Hc; [by apply elem_of_nil in Hc|].
  rewrite nodeIds_cons in Hnd. apply NoDup_app in Hnd as (Ha & _ & Hl).
  apply elem_of_cons in Hc as [->|Hc]; [done|by apply IH].
Qed.

(** The identities of the children of a node below [c] belong to the
    nodes below [c]. *)
Lemma within_ids (c m x : Node) :
  within c m → x ∈ children m → nodeId x ∈ nodeIds (children c).
Proof.
  induction 1 as [c|c c' m Hc' _ IH]; intros Hx; [by apply nodeIds_elem|].
  apply (nodeIds_sub _ c'); [done|]. rewrite nodeIdsOf_eq. right. by apply IH.
Qed.

(** *** Where a statement is reported *)

Section Reports.
Variable labels : gmap nat nat.

Local Abbreviation reportsOf n := (Inspect (report labels) n []).
Local Abbreviation reports l := (InspectList (report labels) l []).

Lemma report_appends (n : Node) (s : list nat) :
  report labels n s = (s ++ reported labels n, (visit labels n).2).
Proof.
  unfold report, reported. destruct (visit labels n) as [[exit|] descend]; simpl; [done|].
  by rewrite app_nil_r.
Qed.

Lemma reportsOf_eq (n : Node) :
  reportsOf n
  = reported labels n ++ (if (visit labels n).2 then reports (children n) else []).
Proof.
  apply (Inspect_nil (report labels) (reported labels) (λ n, (visit labels n).2)).
  apply report_appends.
Qed.

Lemma reports_cons (c : Node) (l : list Node) : reports (c :: l) = reportsOf c ++ reports l.
Proof. eapply InspectList_nil_cons, report_appends. Qed.

Lemma reports_elem (l : list Node) (p : nat) :
  p ∈ reports l → ∃ c, c ∈ l ∧ p ∈ reportsOf c.
Proof.
  induction l as [|a l IH]; [by intros ?%elem_of_nil|].
  rewrite reports_cons. intros [Hp|Hp]%elem_of_app.
  - exists a. split; [left|done].
  - destruct (IH Hp) as (c & Hc & Hpc). exists c. split; [by right|done].
Qed.

Lemma examined_children (node : Node) (loop : nat) (body : list Node) (x : Node) :
  examinedLoop node loop body → x ∈ body → x ∈ children node.
Proof.
  destruct node as [ | | | | |id h b|id h [typ|] b| | ]; try done; simpl.
  - intros [_ ->] Hx. apply elem_of_app. by right.
  - intros (_ & _ & ->) Hx. apply elem_of_app. by right.
Qed.

(** A statement reported at a node is one of its children. *)
Lemma reported_child (n : Node) (p : nat) :
  p ∈ reported labels n → ∃ x, x ∈ children n ∧ nodeId x = p.
Proof.
  unfold reported. destruct (visit labels n).1 as [exit|] eqn:Hv; [|by intros ?%elem_of_nil].
  intros ->%list_elem_of_singleton.
  apply visit_examined in Hv as (loop & body & Hex & Hv).
  apply checkLoop_reports in Hv as (_ & (pre & x & post & -> & _ & Hp & _) & _).
  exists x. split; [|done]. apply (examined_children _ _ _ _ Hex).
  apply elem_of_app. right. left.
Qed.

(** The statements reported at a node and below it are nodes below
    it. *)
Lemma reportsOf_below (n : Node) (p : nat) :
  p ∈ reportsOf n → p ∈ nodeIds (children n).
Proof.
  revert p. induction n as [n IH] using Node_children_ind. intros p.
  rewrite reportsOf_eq. intros [Hp|Hp]%elem_of_app.
  - apply reported_child in Hp as (x & Hx & <-). by apply nodeIds_elem.
  - destruct (visit labels n).2; [|by apply elem_of_nil in Hp].
    apply reports_elem in Hp as (c & Hc & Hp).
    apply (nodeIds_sub _ c); [done|]. rewrite nodeIdsOf_eq. right.
    rewrite Forall_forall in IH. by apply IH.
Qed.

(** No statement of a block is reported at the nodes of the block or
    below them. *)
Lemma reports_not_top (l : list Node) (c : Node) :
  NoDup (nodeIds l) → c ∈ l → nodeId c ∉ reports l.
Proof.
  intros Hnd Hc (c' & Hc' & Hp%reportsOf_below)%reports_elem.
  assert (c' = c) as ->.
  { apply (nodeIds_same_owner l c' c (nodeId c)); [done..| |].
    - rewrite nodeIdsOf_eq. by right.
    - rewrite nodeIdsOf_eq. left. }
  pose proof (nodeIds_NoDup_elem l c Hnd Hc) as Hndc.
  rewrite nodeIdsOf_eq in Hndc. by apply NoDup_cons in Hndc as [? _].
Qed.

Lemma reports_NoDup_from (l : list Node) :
  Forall (λ n, NoDup (nodeIdsOf n) → NoDup (reportsOf n)) l →
  NoDup (nodeIds l) → NoDup (reports l).
Proof.
  induction 1 as [|a l Ha _ IH]; intros Hnd; [constructor|].
  rewrite reports_cons. rewrite nodeIds_cons in Hnd.
  apply NoDup_app in Hnd as (Hnda & Hdisj & Hndl).
  apply NoDup_app. split_and!; [by apply Ha| |by apply IH].
  intros p Hpa%reportsOf_below (c & Hc & Hpc%reportsOf_below)%reports_elem.
  apply (Hdisj p).
  - rewrite nodeIdsOf_eq. by right.
  - apply (nodeIds_sub l c); [done|]. rewrite nodeIdsOf_eq. by right.
Qed.

(** No statement is reported twice. *)
Lemma reportsOf_NoDup (n : Node) : NoDup (nodeIdsOf n) → NoDup (reportsOf n).
Proof.
  induction n as [n IH] using Node_children_ind. intros Hnd.
  rewrite nodeIdsOf_eq in Hnd. apply NoDup_cons in Hnd as [_ Hnd].
  rewrite reportsOf_eq. apply NoDup_app. split_and!.
  - unfold reported. destruct (visit labels n).1; [apply NoDup_singleton|constructor].
  - intros p (x & Hx & <-)%reported_child Hp.
    destruct (visit labels n).2; [|by apply elem_of_nil in Hp].
    by apply (reports_not_top (children n) x).
  - destruct (visit labels n).2; [|constructor]. by apply reports_NoDup_from.
Qed.

Lemma reports_NoDup (l : list Node) : NoDup (nodeIds l) → NoDup (reports l).
Proof.
  apply reports_NoDup_from, Forall_forall. intros n _. apply reportsOf_NoDup.
Qed.

(** A statement of the node [m] is reported only by the callback at
    [m], and only if the walk gets to [m]. *)
Lemma reportsOf_parent (n m x : Node) :
  within n m → NoDup (nodeIdsOf n) → x ∈ children m →
  nodeId x ∈ reportsOf n →
  walked labels n m ∧ (visit labels m).1 = Some (nodeId x).
Proof.
  induction 1 as [n|n c m Hc Hm IH]; intros Hnd Hx Hp.
  - rewrite nodeIdsOf_eq in Hnd. apply NoDup_cons in Hnd as [_ Hnd].
    split; [apply rtc_refl|].
    rewrite reportsOf_eq in Hp. apply elem_of_app in Hp as [Hp|Hp].
    + unfold reported in Hp.
      destruct (visit labels n).1 as [exit|]; [|by apply elem_of_nil in Hp].
      by apply list_elem_of_singleton in Hp as ->.
    + destruct (visit labels n).2; [|by apply elem_of_nil in Hp].
      by destruct (reports_not_top (children n) x).
  - rewrite nodeIdsOf_eq in Hnd. apply NoDup_cons in Hnd as [_ Hnd].
    pose proof (nodeIds_NoDup_elem _ c Hnd Hc) as Hndc.
    assert (nodeId x ∈ nodeIds (children c)) as Hxc by by apply (within_ids c m).
    rewrite reportsOf_eq in Hp. apply elem_of_app in Hp as [Hp|Hp].
    + apply reported_child in Hp as (y & Hy & Heq).
      assert (y = c) as ->.
      { apply (nodeIds_same_owner (children n) y c (nodeId x)); [done..| |].
        - rewrite nodeIdsOf_eq, <- Heq. left.
        - rewrite nodeIdsOf_eq. by right. }
      rewrite nodeIdsOf_eq, Heq in Hndc. by apply NoDup_cons in Hndc as [? _].
    + destruct (visit labels n).2 eqn:Hdescend; [|by apply elem_of_nil in Hp].
      apply reports_elem in Hp as (c' & Hc' & Hp).
      assert (c' = c) as ->.
      { apply (nodeIds_same_owner (children n) c' c (nodeId x)); [done..| |].
        - rewrite nodeIdsOf_eq. right. by apply reportsOf_below.
        - rewrite nodeIdsOf_eq. by right. }
      destruct (IH Hndc Hx Hp) as [Hwalk Hv]. split; [|done].
      by eapply rtc_l.
Qed.

Lemma reports_parent (l : list Node) (s m x : Node) :
  NoDup (nodeIds l) → s ∈ l → within s m → x ∈ children m →
  nodeId x ∈ reports l →
  walked labels s m ∧ (visit labels m).1 = Some (nodeId x).
Proof.
  intros Hnd Hs Hm Hx (c & Hc & Hp)%reports_elem.
  assert (c = s) as ->.
  { apply (nodeIds_same_owner l c s (nodeId x)); [done..| |].
    - rewrite nodeIdsOf_eq. right. by apply reportsOf_below.
    - rewrite nodeIdsOf_eq. right. by apply (within_ids s m). }
  apply (reportsOf_parent s m x); [done| |done..].
  by apply (nodeIds_NoDup_elem l).
Qed.

End Reports.



Lemma walked_within (labels : gmap nat nat) (n m : Node) :
  walked labels n m → within n m.
Proof.
  induction 1 as [n|n c m [_ Hc] _ IH]; [apply rtc_refl|]. by eapply rtc_l.
Qed.

(** C9.  At a [range] loop over a map the callback reports nothing and
    lets the walk go on, whatever the loop holds; every statement the
    check reports for a function is reported at a node of it that is
    not a [range] loop over a map; and, in a tree of distinct nodes, no
    statement of a [range] loop over a map is reported, wherever the
    loop stands in the function and whatever it holds. *)
Theorem map_range_never_reported :
  (∀ labels id header body,
     visit labels (RangeStmt id header (Some Map) body) = (None, true))
  ∧ (∀ fnBody p, p ∈ CheckIneffectiveLoop (Some fnBody) →
       ∃ s node, s ∈ fnBody
         ∧ walked (InspectList recordLabel fnBody ∅) s node
         ∧ (visit (InspectList recordLabel fnBody ∅) node).1 = Some p
         ∧ ∀ id header body, node ≠ RangeStmt id header (Some Map) body)
  ∧ (∀ fnBody s id header body x,
       NoDup (nodeIds fnBody) →
       s ∈ fnBody → within s (RangeStmt id header (Some Map) body) →
       x ∈ header ++ body →
       nodeId x ∉ CheckIneffectiveLoop (Some fnBody)).
Proof.
  split_and!; [done| |].
  - intros fnBody p (s & node & Hs & Hm & Hv)%CheckIneffectiveLoop_walk.
    exists s, node. split_and!; [done..|]. by intros id header body ->.
  - intros fnBody s id header body x Hnd Hs Hm Hx Hp.
    by destruct (reports_parent (InspectList recordLabel fnBody ∅) fnBody s _ x
                   Hnd Hs Hm Hx Hp) as [_ Hv].
Qed.

(** The return of the loop of [mapRangeBody] is not reported. *)
Lemma map_range_never_reported_witness :
  NoDup (nodeIds mapRangeBody) ∧ 5 ∉ CheckIneffectiveLoop (Some mapRangeBody).
Proof.
  assert (NoDup (nodeIds mapRangeBody)) as Hnd
    by (apply (bool_decide_unpack _); vm_compute; exact I).
  split; [exact Hnd|].
  destruct map_range_never_reported as (_ & _ & Hmap).
  apply (Hmap mapRangeBody
           (RangeStmt 1 [OtherNode 2 []] (Some Map)
              [IfStmt 3 [OtherNode 4 []]; ReturnStmt 5 []])
           1 [OtherNode 2 []] [IfStmt 3 [OtherNode 4 []]; ReturnStmt 5 []]
           (ReturnStmt 5 []) Hnd).
  - left.
  - apply rtc_refl.
  - right. right. left.
Defined.

End LoopFacts.

Section LoopExamples.
Import token Loop.


(** A loop below a loop whose check gave up is not looked at: the
    callback returns [false] at the outer loop of [nestedBody], which
    has no exit of its own, so the inner loop is not reported. *)
Example nested_loop_skipped : CheckIneffectiveLoop (Some nestedBody) = [].
Proof. reflexivity. Qed.

(** A continue that carries the label of the loop withholds the
    report. *)
Example labelled_continue_withholds : CheckIneffectiveLoop (Some labelledContinueBody) = [].
Proof. reflexivity. Qed.

End LoopExamples.

(** ** Stores to fields of a value receiver that are never read *)

Section FieldsFacts.
Import token Fields.

(** *** The search for a read *)

Section Search.
Variables (fn : Function) (rd : gmap nat (gmap nat Value)) (write : Value).

Local Abbreviation searched := (Fields.searched fn rd write).
Local Abbreviation blockIndices := (Fields.blockIndices fn).

Lemma searched_trans (S0 S1 S2 : gset nat) :
  S1 ⊆ S2 → searched S0 S1 → searched S1 S2 → searched S0 S2.
Proof.
  intros Hsub H1 H2 n Hn Hnot.
  destruct (decide (n ∈ S1)) as [Hin|Hnin].
  - destruct (H1 n Hin Hnot) as [Hr Hs]. split; [done|]. intros s Hs'. by apply Hsub, Hs.
  - by apply H2.
Qed.

Lemma succLoop_false (rec : nat → gset nat → option (bool * gset nat)) (succs : list nat) :
  (∀ b S S', rec b S = Some (false, S') → {[b]} ∪ S ⊆ S' ∧ searched S S') →
  ∀ S S', succLoop rec succs S = Some (false, S') →
    S ⊆ S' ∧ searched S S' ∧ ∀ s, s ∈ succs → s ∈ S'.
Proof.
  intros Hrec. induction succs as [|succ rest IH]; intros S S' Hrun; simpl in Hrun.
  - injection Hrun as <-. split_and!; [done| |by intros s ?%elem_of_nil].
    by intros n Hn Hnot.
  - destruct (decide (succ ∈ S)) as [Hin|Hnin].
    + destruct (IH _ _ Hrun) as (Hsub & Hsearched & Hall). split_and!; [done..|].
      intros s [->|Hs]%elem_of_cons; [by apply Hsub|by apply Hall].
    + destruct (rec succ S) as [[[] S1]|] eqn:Hcall; [done| |done].
      destruct (Hrec _ _ _ Hcall) as (Hsub1 & Hsearched1).
      destruct (IH _ _ Hrun) as (Hsub & Hsearched & Hall). split_and!.
      * set_solver.
      * apply (searched_trans _ S1); [done| |done].
        intros n Hn Hnot. by apply Hsearched1.
      * intros s [->|Hs]%elem_of_cons; [|by apply Hall].
        apply Hsub, Hsub1, elem_of_union. left. by apply elem_of_singleton.
Qed.

Lemma hasRead_false (fuel : nat) (block : nat) (S S' : gset nat) :
  hasRead fn rd fuel block write S = Some (false, S') →
  {[block]} ∪ S ⊆ S' ∧ searched S S'.
Proof.
  revert block S S'. induction fuel as [|fuel IH]; intros block S S' Hrun; [done|].
  simpl in Hrun. destruct (readInBlock rd block write) eqn:Hread; [done|].
  apply succLoop_false in Hrun as (Hsub & Hsearched & Hall); [|exact IH].
  split; [done|]. intros n Hn Hnot.
  destruct (decide (n = block)) as [->|Hne]; [done|].
  apply Hsearched; [done|]. set_solver.
Qed.

Lemma succLoop_true (rec : nat → gset nat → option (bool * gset nat)) (succs : list nat)
    (P : nat → Prop) :
  (∀ b S S', b ∈ succs → rec b S = Some (true, S') → P b) →
  ∀ S S', succLoop rec succs S = Some (true, S') → ∃ s, s ∈ succs ∧ P s.
Proof.
  induction succs as [|succ rest IH]; intros Hrec S S' Hrun; simpl in Hrun; [done|].
  assert (∀ S0 S1, succLoop rec rest S0 = Some (true, S1) → ∃ s, s ∈ succ :: rest ∧ P s)
    as Hrest.
  { intros S0 S1 H0. destruct (IH (λ b S2 S3 Hb, Hrec b S2 S3 (list_elem_of_further _ _ _ Hb))
      _ _ H0) as (s & Hs & HP). exists s. split; [by right|done]. }
  destruct (decide (succ ∈ S)) as [Hin|Hnin]; [by eapply Hrest|].
  destruct (rec succ S) as [[[] S1]|] eqn:Hcall; [|by eapply Hrest|done].
  exists succ. split; [left|]. eapply Hrec; [left|exact Hcall].
Qed.

Lemma hasRead_true (fuel : nat) (block : nat) (S S' : gset nat) :
  hasRead fn rd fuel block write S = Some (true, S') →
  ∃ block', flows fn block block' ∧ readInBlock rd block' write = true.
Proof.
  revert block S S'. induction fuel as [|fuel IH]; intros block S S' Hrun; [done|].
  simpl in Hrun. destruct (readInBlock rd block write) eqn:Hread.
  - exists block. split; [apply rtc_refl|done].
  - apply (succLoop_true _ _ (λ s, ∃ b', flows fn s b' ∧ readInBlock rd b' write = true))
      in Hrun as (s & Hs & b' & Hflow & Hb').
    + exists b'. split; [|done]. by eapply rtc_l.
    + intros b S0 S1 _ Hcall. by eapply IH.
Qed.

Lemma succsOf_valid (block s : nat) : s ∈ succsOf fn block → block ∈ blockIndices.
Proof.
  unfold succsOf, blockIndices. intros Hs. apply elem_of_set_seq.
  destruct (Blocks fn !! block) as [b|] eqn:Hb; [|by apply elem_of_nil in Hs].
  apply lookup_lt_Some in Hb. lia.
Qed.

Lemma succLoop_fuel (rec : nat → gset nat → option (bool * gset nat)) (succs : list nat)
    (S0 : gset nat) :
  (∀ b S r S', rec b S = Some (r, S') → S ⊆ S') →
  (∀ b S, b ∉ S → S0 ⊆ S → rec b S ≠ None) →
  ∀ S, S0 ⊆ S → succLoop rec succs S ≠ None.
Proof.
  intros Hgrow Hrec. induction succs as [|succ rest IH]; intros S HS; simpl; [done|].
  destruct (decide (succ ∈ S)) as [Hin|Hnin]; [by apply IH|].
  destruct (rec succ S) as [[[] S1]|] eqn:Hcall; [done| |by destruct (Hrec succ S)].
  apply IH. apply Hgrow in Hcall. set_solver.
Qed.

Lemma succLoop_grows (rec : nat → gset nat → option (bool * gset nat)) (succs : list nat) :
  (∀ b S r S', rec b S = Some (r, S') → S ⊆ S') →
  ∀ S r S', succLoop rec succs S = Some (r, S') → S ⊆ S'.
Proof.
  intros Hgrow. induction succs as [|succ rest IH]; intros S r S' Hrun; simpl in Hrun.
  - by injection Hrun as <- <-.
  - destruct (decide (succ ∈ S)) as [Hin|Hnin]; [by eapply IH|].
    destruct (rec succ S) as [[[] S1]|] eqn:Hcall; [| |done].
    + injection Hrun as <- <-. by eapply Hgrow.
    + apply Hgrow in Hcall. apply IH in Hrun. set_solver.
Qed.

Lemma hasRead_grows (fuel : nat) (block : nat) (S : gset nat) (r : bool) (S' : gset nat) :
  hasRead fn rd fuel block write S = Some (r, S') → S ⊆ S'.
Proof.
  revert block S r S'. induction fuel as [|fuel IH]; intros block S r S' Hrun; [done|].
  simpl in Hrun. destruct (readInBlock rd block write).
  - injection Hrun as <- <-. set_solver.
  - apply succLoop_grows in Hrun; [set_solver|exact IH].
Qed.

(** A call for a block that was not entered yet. *)
Lemma hasRead_fuel_fresh (fuel : nat) (block : nat) (S : gset nat) :
  block ∉ S → size (blockIndices ∖ S) < fuel →
  hasRead fn rd fuel block write S ≠ None.
Proof.
  revert block S. induction fuel as [|fuel IH]; intros block S Hfresh Hsize; [lia|].
  simpl. destruct (readInBlock rd block write); [done|].
  destruct (succsOf fn block) as [|s0 succs] eqn:Hsuccs; [done|].
  assert (block ∈ blockIndices) as Hvalid.
  { apply (succsOf_valid block s0). rewrite Hsuccs. left. }
  apply (succLoop_fuel _ _ ({[block]} ∪ S)); [apply hasRead_grows| |done].
  intros b S1 Hb HS1. apply IH; [done|].
  assert (blockIndices ∖ S1 ⊂ blockIndices ∖ S) as Hsub by set_solver.
  apply subset_size in Hsub. lia.
Qed.

Lemma hasRead_unfold (fuel : nat) (block : nat) (seen : gset nat) :
  hasRead fn rd (1 + fuel) block write seen =
  if readInBlock rd block write then Some (true, {[block]} ∪ seen)
  else succLoop (λ succ seen', hasRead fn rd fuel succ write seen')
                (succsOf fn block) ({[block]} ∪ seen).
Proof. done. Qed.

(** Any call made by [writeLoop]. *)
Lemma hasRead_never_out_of_fuel (block : nat) (seen : gset nat) :
  hasRead fn rd (depth fn) block write seen ≠ None.
Proof.
  unfold depth. replace (length (Blocks fn) + 2) with (1 + (1 + length (Blocks fn))) by lia.
  rewrite hasRead_unfold.
  destruct (readInBlock rd block write); [done|].
  apply (succLoop_fuel _ _ ({[block]} ∪ seen)); [apply hasRead_grows| |done].
  intros b seen1 Hb Hseen1. apply hasRead_fuel_fresh; [done|].
  assert (size (blockIndices ∖ seen1) ≤ size blockIndices) as Hle
    by (apply subseteq_size, subseteq_difference_l; done).
  unfold blockIndices in *. rewrite size_set_seq in Hle. lia.
Qed.

(** With a fresh [seen], [hasRead] answers whether a block that control
    can reach from [block] holds a read for the write. *)
Lemma hasRead_fresh (block : nat) :
  ∃ r S', hasRead fn rd (depth fn) block write ∅ = Some (r, S')
          ∧ (r = true ↔ ∃ block', flows fn block block'
                                   ∧ readInBlock rd block' write = true).
Proof.
  destruct (hasRead fn rd (depth fn) block write ∅) as [[r S']|] eqn:Hrun;
    [|by destruct (hasRead_never_out_of_fuel block ∅)].
  exists r, S'. split; [done|]. destruct r.
  - split; [|done]. intros _. by eapply hasRead_true.
  - split; [done|]. intros (b' & Hflow & Hread).
    apply hasRead_false in Hrun as (Hsub & Hsearched).
    assert (∀ x y, flows fn x y → x ∈ S' → y ∈ S') as Hclosed.
    { induction 1 as [x|x y z Hxy _ IH]; [done|]. intros Hx. apply IH.
      apply (Hsearched x); [done|apply not_elem_of_empty|done]. }
    assert (b' ∈ S') as Hin.
    { apply (Hclosed block); [done|].
      apply Hsub, elem_of_union. left. by apply elem_of_singleton. }
    destruct (Hsearched b' Hin) as [Hno _]; [apply not_elem_of_empty|]. congruence.
Qed.

End Search.


(** *** The facts the scan collects *)

Lemma record_FieldAddr (block : nat) (v : Value) (m : gmap nat (gmap nat Value)) :
  isFieldAddr v → writesAreFieldAddrs m → writesAreFieldAddrs (record block v m).
Proof.
  intros Hv Hm b ws k w Hb Hk. unfold record in Hb.
  destruct (decide (block = b)) as [->|Hne].
  - rewrite lookup_insert_eq in Hb. injection Hb as <-.
    destruct (decide (k = valueId v)) as [->|Hnek].
    + rewrite lookup_insert_eq in Hk. by injection Hk as <-.
    + rewrite lookup_insert_ne in Hk by done.
      destruct (m !! b) as [ws|] eqn:Hmb; simpl in Hk; [by eapply Hm|].
      by rewrite lookup_empty in Hk.
  - rewrite lookup_insert_ne in Hb by done. by eapply Hm.
Qed.

Lemma touch_FieldAddr (block : nat) (m : gmap nat (gmap nat Value)) :
  writesAreFieldAddrs m → writesAreFieldAddrs (touch block m).
Proof.
  intros Hm b ws k w Hb Hk. unfold touch in Hb.
  destruct (m !! block) eqn:Hmb; [by eapply Hm|].
  destruct (decide (block = b)) as [->|Hne].
  - rewrite lookup_insert_eq in Hb. injection Hb as <-. by rewrite lookup_empty in Hk.
  - rewrite lookup_insert_ne in Hb by done. by eapply Hm.
Qed.

Lemma scanInstr_FieldAddr (block : nat) (ins : Instruction) (st : Facts) :
  writesAreFieldAddrs (writes st) → writesAreFieldAddrs (writes (scanInstr block ins st)).
Proof.
  intros Hst. destruct ins as [Addr Val|v|]; simpl; [| |done].
  - destruct Addr; simpl; try done.
    destruct (decide _); simpl; [|done]. by apply record_FieldAddr.
  - destruct v as [| | |id pos Op X|]; simpl; try done.
    destruct Op; simpl; try done.
    destruct (decide _); simpl; [done|].
    destruct X; simpl; try done. by destruct (decide _).
Qed.

Lemma scan_FieldAddr (fn : Function) (recv : Value) :
  writesAreFieldAddrs (writes (scan fn recv)).
Proof.
  unfold scan.
  assert (∀ blocks st, writesAreFieldAddrs (writes st) →
            writesAreFieldAddrs (writes (foldl (scanBlock fn) st blocks))) as Hblocks.
  { induction blocks as [|block blocks IH]; intros st Hst; [done|].
    simpl. apply IH. unfold scanBlock.
    assert (∀ instrs st0, writesAreFieldAddrs (writes st0) →
              writesAreFieldAddrs
                (writes (foldl (λ st1 ins, scanInstr block ins st1) st0 instrs))) as Hins.
    { induction instrs as [|ins instrs IHi]; intros st0 Hst0; [done|].
      simpl. by apply IHi, scanInstr_FieldAddr. }
    apply Hins. simpl. by apply touch_FieldAddr. }
  apply Hblocks. simpl. intros b ws k w Hb. by rewrite lookup_empty in Hb.
Qed.

Lemma readInBlock_readFor (st : Facts) (write : Value) (block : nat) :
  readInBlock (reads st) block write = true ↔ readFor st write block.
Proof.
  unfold readInBlock, readFor. rewrite existsb_exists. split.
  - intros ([k read] & Hin & Hread). apply list_elem_of_In, elem_of_map_to_list in Hin.
    destruct (reads st !! block) as [rs|]; simpl in Hin; [|by rewrite lookup_empty in Hin].
    exists rs, k, read. done.
  - intros (rs & k & read & -> & Hk & Hread). exists (k, read). split; [|done].
    by apply list_elem_of_In, elem_of_map_to_list.
Qed.

(** *** The two loops over the writes *)

Section Reporting.
Variable rangeBlocks : list (nat * gmap nat Value) → list (nat * gmap nat Value).
Variable rangeWrites : nat → list (nat * Value) → list (nat * Value).
Hypothesis rangeBlocks_perm : ∀ l, rangeBlocks l ≡ₚ l.
Hypothesis rangeWrites_perm : ∀ block l, rangeWrites block l ≡ₚ l.

Variables (fn : Function) (recv : Value) (fields : list string) (st : Facts).
Hypothesis recv_struct : ∃ id, recv = Param id (Struct fields).
Hypothesis writes_FieldAddrs : writesAreFieldAddrs (writes st).
Hypothesis one_store : oneStorePerBlock st.
Hypothesis in_range : fieldsInRange st fields.

Lemma fieldName_fields (i : nat) : fieldName recv i = fields !! i.
Proof. by destruct recv_struct as [id ->]. Qed.

Lemma writeLoop_block (block : nat) (ws : gmap nat Value) (problems : list (nat * string)) :
  writes st !! block = Some ws →
  ∃ added,
    writeLoop fn (reads st) recv block (rangeWrites block (map_to_list ws)) ∅ problems
      = Finished (problems ++ added)
    ∧ (∀ id name, (id, name) ∈ added ↔
         ∃ k pos X Field, ws !! k = Some (FieldAddr id pos X Field)
                          ∧ fields !! Field = Some name
                          ∧ deadStore fn st block (FieldAddr id pos X Field))
    ∧ length added ≤ 1
    ∧ (added = [] ∨ ∃ k w, ws !! k = Some w).
Proof.
  intros Hws. pose proof (one_store _ _ Hws) as Hsize.
  pose proof (rangeWrites_perm block (map_to_list ws)) as Hperm.
  rewrite <- length_map_to_list in Hsize.
  destruct (map_to_list ws) as [|[k w] [|? ?]] eqn:Hlist; simpl in Hsize; [| |lia].
  - apply Permutation_nil_r in Hperm as ->. simpl. exists [].
    rewrite app_nil_r. split_and!; [done| |done|by left].
    intros id name. split; [by intros ?%elem_of_nil|].
    intros (k & pos & X & Field & Hk & _).
    apply elem_of_map_to_list in Hk. rewrite Hlist in Hk. by apply elem_of_nil in Hk.
  - apply Permutation_singleton_r in Hperm as ->.
    assert (ws !! k = Some w) as Hk.
    { apply elem_of_map_to_list. rewrite Hlist. left. }
    assert (∀ k' w', ws !! k' = Some w' → k' = k ∧ w' = w) as Honly.
    { intros k' w' Hk'. apply elem_of_map_to_list in Hk'. rewrite Hlist in Hk'.
      apply list_elem_of_singleton in Hk'. by injection Hk'. }
    pose proof (writes_FieldAddrs _ _ _ _ Hws Hk) as Hw.
    destruct w as [| |id pos X Field| |]; try done. simpl.
    destruct (hasRead_fresh fn (reads st) (FieldAddr id pos X Field) block)
      as (r & seen' & -> & Hr).
    assert (Field < length fields) as Hlt.
    { eapply in_range. by exists ws, k. }
    apply lookup_lt_is_Some in Hlt as [name Hname].
    assert ((∃ block', flows fn block block'
                       ∧ readFor st (FieldAddr id pos X Field) block') ↔ r = true) as Hread.
    { rewrite Hr. by setoid_rewrite readInBlock_readFor. }
    destruct r.
    + exists []. rewrite app_nil_r. split_and!; [done| |simpl; lia|by left].
      intros id' name'. split; [by intros ?%elem_of_nil|].
      intros (k' & pos' & X' & Field' & Hk' & _ & Hd).
      destruct (Honly _ _ Hk') as [-> [= -> -> -> ->]].
      destruct Hd. by apply Hread.
    + rewrite fieldName_fields, Hname. exists [(id, name)].
      split_and!; [done| |done|right; eauto].
      intros id' name'. rewrite list_elem_of_singleton. split.
      * intros [= -> ->]. exists k, pos, X, Field. split_and!; [done|done|].
        intros Hex. by apply Hread in Hex.
      * intros (k' & pos' & X' & Field' & Hk' & Hname' & _).
        destruct (Honly _ _ Hk') as [-> [= -> -> -> ->]]. congruence.
Qed.

Lemma blockLoop_entries (bs : list (nat * gmap nat Value)) (problems : list (nat * string)) :
  (∀ e, e ∈ bs → writes st !! e.1 = Some e.2) →
  ∃ added,
    blockLoop rangeWrites fn (reads st) recv bs problems = Finished (problems ++ added)
    ∧ (∀ id name, (id, name) ∈ added ↔
         ∃ e k pos X Field, e ∈ bs ∧ e.2 !! k = Some (FieldAddr id pos X Field)
                            ∧ fields !! Field = Some name
                            ∧ deadStore fn st e.1 (FieldAddr id pos X Field))
    ∧ length added ≤ length (filter (λ e, size e.2 ≠ 0) bs).
Proof.
  revert problems. induction bs as [|[block ws] bs IH]; intros problems Hbs.
  - exists []. simpl. rewrite app_nil_r. split_and!; [done| |done].
    intros id name. split; [by intros ?%elem_of_nil|].
    by intros (e & k & pos & X & Field & ?%elem_of_nil & _).
  - simpl.
    destruct (writeLoop_block block ws problems) as (added1 & -> & Hadded1 & Hlen1 & Hne1);
      [apply (Hbs (block, ws)); left|].
    destruct (IH (problems ++ added1)) as (added2 & -> & Hadded2 & Hlen2);
      [intros e He; apply Hbs; by right|].
    exists (added1 ++ added2). rewrite app_assoc. split_and!; [done| |].
    + intros id name. rewrite elem_of_app, Hadded1, Hadded2. split.
      * intros [(k & pos & X & Field & H)|(e & k & pos & X & Field & He & H)].
        -- exists (block, ws), k, pos, X, Field. split; [left|done].
        -- exists e, k, pos, X, Field. split; [by right|done].
      * intros (e & k & pos & X & Field & [->|He]%elem_of_cons & H).
        -- left. by exists k, pos, X, Field.
        -- right. by exists e, k, pos, X, Field.
    + rewrite length_app, filter_cons. simpl.
      destruct Hne1 as [->|(k & w & Hk)]; simpl.
      * destruct (decide (size ws ≠ 0)); simpl; lia.
      * destruct (decide (size ws ≠ 0)) as [_|Hz]; simpl; [lia|].
        exfalso. apply Hz. intros Hsz. apply map_size_empty_iff in Hsz.
        by rewrite Hsz, lookup_empty in Hk.
Qed.

End Reporting.

Lemma same_key_length {A : Type} (l : list (nat * A)) (b : nat) :
  NoDup (l.*1) → (∀ e, e ∈ l → e.1 = b) → length l ≤ 1.
Proof.
  intros Hnd Hall. destruct l as [|e1 [|e2 l]]; simpl; [lia|lia|].
  exfalso. simpl in Hnd. apply NoDup_cons in Hnd as [Hnin _]. apply Hnin.
  rewrite (Hall e1), <- (Hall e2); [left|right; left|left].
Qed.


End FieldsFacts.

Section FieldsExamples.
Import token Fields.

Lemma scan_setName (heap : bool) :
  reads (scan (setName heap) recvT) = {[0 := ∅]}
  ∧ writes (scan (setName heap) recvT) = {[0 := {[3 := FieldAddr 3 10 (localT heap) 0]}]}.
Proof. destruct heap; split; vm_compute; reflexivity. Qed.

Lemma setName_tracked (heap : bool) (block : nat) (write : Value) :
  trackedStore (scan (setName heap) recvT) block write
  ↔ block = 0 ∧ write = FieldAddr 3 10 (localT heap) 0.
Proof.
  unfold trackedStore. rewrite (proj2 (scan_setName heap)). split.
  - intros (ws & k & [<- <-]%lookup_singleton_Some & [_ <-]%lookup_singleton_Some). done.
  - intros [-> ->]. eexists _, 3. split; [apply lookup_singleton_eq|apply lookup_singleton_eq].
Qed.

Lemma setName_dead (heap : bool) (block : nat) (write : Value) :
  deadStore (setName heap) (scan (setName heap) recvT) block write.
Proof.
  intros (block' & _ & rs & k & read & Hrs & Hk & _).
  rewrite (proj1 (scan_setName heap)) in Hrs.
  apply lookup_singleton_Some in Hrs as [_ <-]. by rewrite lookup_empty in Hk.
Qed.

(** The end-to-end scenario: [setName] stores to [Name] and never reads
    it; one problem is reported, which names the field. *)
Example setName_reported :
  ascendingRun (mkFuncDecl true (Some (setName false))) = Finished [(3, "Name")].
Proof. vm_compute. reflexivity. Qed.



Lemma scan_setBoth :
  reads (scan setBoth recvT)
    = {[0 := ∅; 1 := {[5 := FieldAddr 5 12 (localT false) 0;
                        7 := FieldAddr 7 13 (localT false) 1]}; 2 := ∅]}
  ∧ writes (scan setBoth recvT)
    = {[0 := {[3 := FieldAddr 3 10 (localT false) 0;
               4 := FieldAddr 4 11 (localT false) 1]}; 1 := ∅; 2 := ∅]}.
Proof. split; vm_compute; reflexivity. Qed.

(** C7 at [setBoth]: both stores of block 0 are read in block 1, which
    control reaches from block 0; with [seen] shared by the two writes
    of the block, the write examined second finds block 1 visited and
    is reported.  Which one that is depends on the order in which the
    map of writes is ranged over, so two runs on the same function
    report different stores: the run that examines the store to [Name]
    first reports the store to [Age], and the other way round. *)
Lemma runs_differ_with_iteration_order :
  (∀ l : list (nat * gmap nat Value), ascending l ≡ₚ l)
  ∧ (∀ l : list (nat * Value), ascending l ≡ₚ l)
  ∧ (∀ l : list (nat * Value), descending l ≡ₚ l)
  ∧ flows setBoth 0 1
  ∧ readFor (scan setBoth recvT) (FieldAddr 3 10 (localT false) 0) 1
  ∧ readFor (scan setBoth recvT) (FieldAddr 4 11 (localT false) 1) 1
  ∧ ascendingRun (mkFuncDecl true (Some setBoth)) = Finished [(4, "Age")]
  ∧ descendingRun (mkFuncDecl true (Some setBoth)) = Finished [(3, "Name")].
Proof.
  split_and!.
  - intros l. apply merge_sort_Permutation.
  - intros l. apply merge_sort_Permutation.
  - intros l. apply merge_sort_Permutation.
  - apply rtc_once. simpl. left.
  - unfold readFor. rewrite (proj1 scan_setBoth).
    eexists _, 5, _. split_and!; [reflexivity|reflexivity|reflexivity].
  - unfold readFor. rewrite (proj1 scan_setBoth).
    eexists _, 7, _. split_and!; [reflexivity|reflexivity|reflexivity].
  - vm_compute. reflexivity.
  - vm_compute. reflexivity.
Qed.

End FieldsExamples.

(** ** Results of append that only feed other appends *)

Section AppendFacts.
Import Append.

Variable fn : Function.

Local Abbreviation classifyRef := (Append.classifyRef fn).
Local Abbreviation walkedThrough := (Append.walkedThrough fn).
Local Abbreviation unusedPost := (Append.unusedPost fn).

Lemma refLoop_cons (rec : list nat → bool → gset nat → option (bool * gset nat))
    (ref : nat) (rest : list nat) (isUsed : bool) (visited : gset nat) :
  refLoop rec fn (ref :: rest) isUsed visited =
  if decide (ref ∈ visited) then refLoop rec fn rest isUsed visited
  else match classifyRef ref with
       | Skipped => refLoop rec fn rest isUsed ({[ref]} ∪ visited)
       | WalkedThrough referrers =>
           match rec referrers isUsed ({[ref]} ∪ visited) with
           | Some (isUsed', visited') => refLoop rec fn rest isUsed' visited'
           | None => None
           end
       | Used => refLoop rec fn rest true ({[ref]} ∪ visited)
       | NotAValue => Some (true, {[ref]} ∪ visited)
       end.
Proof.
  simpl. unfold classifyRef. destruct (decide (ref ∈ visited)); [done|].
  destruct (Instrs fn !! ref) as [[i referrers]|]; [|done].
  destruct i as [| |inv callee|]; try done. by destruct (isAppend (Call inv callee)).
Qed.

Lemma classifyRef_spec (ref : nat) :
  match classifyRef ref with
  | Skipped => ¬ consumer fn ref ∧ ∀ m, ¬ feeds fn ref m
  | WalkedThrough referrers => ¬ consumer fn ref ∧ ∀ m, feeds fn ref m ↔ m ∈ referrers
  | Used => consumer fn ref
  | NotAValue => consumer fn ref
  end.
Proof.
  unfold classifyRef, consumer, feeds.
  destruct (Instrs fn !! ref) as [[i referrers]|] eqn:Href; [|done].
  destruct i as [| |inv callee|]; cbn -[isAppend].
  - split; [tauto|]. intros m (node & [= <-] & [?|?] & _); done.
  - split; [tauto|]. intros m. split.
    + by intros (node & [= <-] & _ & Hm).
    + intros Hm. eexists. split_and!; [done|by left|done].
  - destruct (isAppend (Call inv callee)) eqn:Happ; [|done].
    split; [done|]. intros m. split.
    + by intros (node & [= <-] & _ & Hm).
    + intros Hm. eexists. split_and!; [done|by right|done].
  - done.
Qed.

Lemma walkedThrough_trans (V0 V1 V2 : gset nat) :
  V1 ⊆ V2 → walkedThrough V0 V1 → walkedThrough V1 V2 → walkedThrough V0 V2.
Proof.
  intros Hsub H1 H2 n Hn Hnot. destruct (decide (n ∈ V1)) as [Hin|Hnin].
  - destruct (H1 n Hin Hnot) as [Hc Hs]. split; [done|]. intros m Hm. by apply Hsub, Hs.
  - by apply H2.
Qed.

Lemma refLoop_unused (rec : list nat → bool → gset nat → option (bool * gset nat))
    (refs : list nat) :
  (∀ refs' u V V', rec refs' u V = Some (false, V') → unusedPost refs' u V V') →
  ∀ u V V', refLoop rec fn refs u V = Some (false, V') → unusedPost refs u V V'.
Proof.
  intros Hrec. induction refs as [|ref rest IH]; intros u V V' Hrun.
  - simpl in Hrun. injection Hrun as -> <-.
    split_and!; [done|done|by intros r ?%elem_of_nil|by intros n ? ?].
  - rewrite refLoop_cons in Hrun.
    destruct (decide (ref ∈ V)) as [Hin|Hnin].
    { destruct (IH _ _ _ Hrun) as (Hu & Hsub & Hrefs & Hw). split_and!; [done..| |done].
      intros r [->|Hr]%elem_of_cons; [by apply Hsub|by apply Hrefs]. }
    pose proof (classifyRef_spec ref) as Hclass.
    assert (∀ V1, {[ref]} ∪ V ⊆ V1 → (¬ consumer fn ref ∧ ∀ m, feeds fn ref m → m ∈ V1) →
              walkedThrough ({[ref]} ∪ V) V1 → walkedThrough V V1) as Hjoin.
    { intros V1 Hsub1 Href Hw n Hn Hnot. destruct (decide (n = ref)) as [->|Hne]; [done|].
      apply Hw; [done|]. set_solver. }
    destruct (classifyRef ref) as [|referrers| |].
    + destruct (IH _ _ _ Hrun) as (Hu & Hsub & Hrefs & Hw).
      destruct Hclass as [Hnc Hnf]. split_and!; [done|set_solver| |].
      * intros r [->|Hr]%elem_of_cons; [|by apply Hrefs].
        apply Hsub, elem_of_union. left. by apply elem_of_singleton.
      * apply Hjoin; [done| |done]. split; [done|]. intros m Hm. by destruct (Hnf m).
    + destruct (rec referrers u ({[ref]} ∪ V)) as [[u1 V1]|] eqn:Hcall; [|done].
      destruct (IH _ _ _ Hrun) as (-> & Hsub & Hrefs & Hw).
      destruct (Hrec _ _ _ _ Hcall) as (Hu & Hsub1 & Hrefs1 & Hw1).
      destruct Hclass as [Hnc Hf]. split_and!; [done|set_solver| |].
      * intros r [->|Hr]%elem_of_cons; [|by apply Hrefs].
        apply Hsub, Hsub1, elem_of_union. left. by apply elem_of_singleton.
      * apply Hjoin; [set_solver| |by apply (walkedThrough_trans _ V1)].
        split; [done|]. intros m Hm%Hf. by apply Hsub, Hrefs1.
    + by destruct (IH _ _ _ Hrun) as (? & _).
    + done.
Qed.

Lemma walkRefs_unused (fuel : nat) (refs : list nat) (u : bool) (V V' : gset nat) :
  walkRefs fn fuel refs u V = Some (false, V') → unusedPost refs u V V'.
Proof.
  revert refs u V V'. induction fuel as [|fuel IH]; intros refs u V V' Hrun; [done|].
  simpl in Hrun. by eapply refLoop_unused.
Qed.

Lemma refLoop_used (rec : list nat → bool → gset nat → option (bool * gset nat))
    (refs : list nat) :
  (∀ refs' u V V', rec refs' u V = Some (true, V') →
     u = true ∨ reachesConsumer fn refs') →
  ∀ u V V', refLoop rec fn refs u V = Some (true, V') →
    u = true ∨ reachesConsumer fn refs.
Proof.
  intros Hrec. induction refs as [|ref rest IH]; intros u V V' Hrun.
  - simpl in Hrun. injection Hrun as -> <-. by left.
  - rewrite refLoop_cons in Hrun.
    assert (∀ u0 V0, refLoop rec fn rest u0 V0 = Some (true, V') →
              u0 = true ∨ reachesConsumer fn (ref :: rest)) as Hrest.
    { intros u0 V0 H0. destruct (IH _ _ _ H0) as [?|(r0 & r & Hr0 & H)]; [by left|].
      right. exists r0, r. split; [by right|done]. }
    assert (consumer fn ref → reachesConsumer fn (ref :: rest)) as Hhere.
    { intros Hc. exists ref, ref. split_and!; [left|apply rtc_refl|done]. }
    destruct (decide (ref ∈ V)) as [Hin|Hnin]; [by eapply Hrest|].
    pose proof (classifyRef_spec ref) as Hclass.
    destruct (classifyRef ref) as [|referrers| |].
    + by eapply Hrest.
    + destruct (rec referrers u ({[ref]} ∪ V)) as [[u1 V1]|] eqn:Hcall; [|done].
      destruct (Hrest _ _ Hrun) as [->|?]; [|by right].
      destruct (Hrec _ _ _ _ Hcall) as [?|(r0 & r & Hr0 & Hreach & Hc)]; [by left|].
      right. exists ref, r. split_and!; [left| |done].
      eapply rtc_l; [|exact Hreach]. by apply Hclass.
    + right. by apply Hhere.
    + right. by apply Hhere.
Qed.

Lemma walkRefs_used (fuel : nat) (refs : list nat) (u : bool) (V V' : gset nat) :
  walkRefs fn fuel refs u V = Some (true, V') → u = true ∨ reachesConsumer fn refs.
Proof.
  revert refs u V V'. induction fuel as [|fuel IH]; intros refs u V V' Hrun; [done|].
  simpl in Hrun. by eapply refLoop_used.
Qed.

(** *** Termination *)

Lemma refLoop_grows (rec : list nat → bool → gset nat → option (bool * gset nat))
    (refs : list nat) :
  (∀ refs' u V u' V', rec refs' u V = Some (u', V') → V ⊆ V') →
  ∀ u V u' V', refLoop rec fn refs u V = Some (u', V') → V ⊆ V'.
Proof.
  intros Hrec. induction refs as [|ref rest IH]; intros u V u' V' Hrun.
  - simpl in Hrun. by injection Hrun as <- <-.
  - rewrite refLoop_cons in Hrun.
    destruct (decide (ref ∈ V)) as [Hin|Hnin]; [by eapply IH|].
    destruct (classifyRef ref) as [|referrers| |].
    + apply IH in Hrun. set_solver.
    + destruct (rec referrers u ({[ref]} ∪ V)) as [[u1 V1]|] eqn:Hcall; [|done].
      apply Hrec in Hcall. apply IH in Hrun. set_solver.
    + apply IH in Hrun. set_solver.
    + injection Hrun as <- <-. set_solver.
Qed.

Lemma walkRefs_grows (fuel : nat) (refs : list nat) (u : bool) (V : gset nat)
    (u' : bool) (V' : gset nat) :
  walkRefs fn fuel refs u V = Some (u', V') → V ⊆ V'.
Proof.
  revert refs u V u' V'. induction fuel as [|fuel IH]; intros refs u V u' V' Hrun; [done|].
  simpl in Hrun. by eapply refLoop_grows.
Qed.

Lemma classifyRef_listed (ref : nat) (referrers : list nat) :
  classifyRef ref = WalkedThrough referrers → ref ∈ dom (Instrs fn).
Proof.
  unfold classifyRef. intros Hc. apply elem_of_dom.
  by destruct (Instrs fn !! ref).
Qed.

Lemma walkRefs_fuel (fuel : nat) (refs : list nat) (u : bool) (V : gset nat) :
  size (dom (Instrs fn) ∖ V) < fuel → walkRefs fn fuel refs u V ≠ None.
Proof.
  revert refs u V. induction fuel as [|fuel IH]; intros refs u V Hsize; [lia|].
  simpl. revert u V Hsize.
  induction refs as [|ref rest IHrefs]; intros u V Hsize; [done|].
  rewrite refLoop_cons.
  assert (∀ V1, V ⊆ V1 → size (dom (Instrs fn) ∖ V1) < S fuel) as Hmono.
  { intros V1 HV1.
    assert (size (dom (Instrs fn) ∖ V1) ≤ size (dom (Instrs fn) ∖ V)); [|lia].
    apply subseteq_size. set_solver. }
  destruct (decide (ref ∈ V)) as [Hin|Hnin]; [by apply IHrefs|].
  destruct (classifyRef ref) as [|referrers| |] eqn:Hclass.
  - apply IHrefs, Hmono. set_solver.
  - destruct (walkRefs fn fuel referrers u ({[ref]} ∪ V)) as [[u1 V1]|] eqn:Hcall.
    + apply IHrefs, Hmono. apply walkRefs_grows in Hcall. set_solver.
    + exfalso. revert Hcall. apply IH.
      assert (dom (Instrs fn) ∖ ({[ref]} ∪ V) ⊂ dom (Instrs fn) ∖ V) as Hsub.
      { apply classifyRef_listed in Hclass. set_solver. }
      apply subset_size in Hsub. lia.
  - apply IHrefs, Hmono. set_solver.
  - done.
Qed.

Lemma walkRefs_never_out_of_fuel (refs : list nat) :
  walkRefs fn (depth fn) refs false ∅ ≠ None.
Proof.
  apply walkRefs_fuel. unfold depth. rewrite difference_empty_L, size_dom. lia.
Qed.

(** The walk from the referrers of a value leaves [isUsed] false
    exactly when it reaches no instruction that uses the value. *)
Lemma walkRefs_decides (refs : list nat) :
  ∃ isUsed visited,
    walkRefs fn (depth fn) refs false ∅ = Some (isUsed, visited)
    ∧ (isUsed = true ↔ reachesConsumer fn refs).
Proof.
  destruct (walkRefs fn (depth fn) refs false ∅) as [[u V']|] eqn:Hrun;
    [|by destruct (walkRefs_never_out_of_fuel refs)].
  exists u, V'. split; [done|]. destruct u.
  - split; [|done]. intros _. by apply walkRefs_used in Hrun as [?|?].
  - split; [done|]. intros (r0 & r & Hr0 & Hreach & Hc).
    apply walkRefs_unused in Hrun as (_ & _ & Hrefs & Hw).
    assert (∀ x y, rtc (feeds fn) x y → x ∈ V' → y ∈ V') as Hclosed.
    { induction 1 as [x|x y z Hxy _ IH]; [done|]. intros Hx. apply IH.
      apply (Hw x); [done|apply not_elem_of_empty|done]. }
    assert (r ∈ V') as Hr by (apply (Hclosed r0); auto).
    by destruct (Hw r Hr (not_elem_of_empty _)) as [Hnc _].
Qed.

End AppendFacts.

(** C8, as the code decides it.  The assignment is reported exactly
    when it assigns, to an identifier other than the blank one that is
    not a named result of the function, the call of something named
    append whose SSA value is an instruction of the function, and the
    walk from the referrers of that value, through phis and calls of
    append, reaches no instruction that uses the value. *)
Theorem append_reported_iff (assign : Append.AssignStmt) (fn : Append.Function) :
  Append.CheckIneffectiveAppend assign (Some fn) = true
  ↔ ∃ Name obj funObj expr node,
      Append.Lhs assign = [Append.Ident Name obj]
      ∧ Name ≠ "_"
      ∧ Append.Rhs assign
        = [Append.CallExpr (Append.Ident "append" funObj) (Some expr)]
      ∧ Append.isNamedResult fn obj = false
      ∧ Append.Instrs fn !! expr = Some node
      ∧ ¬ Append.reachesConsumer fn (Append.Referrers node).
Proof.
  unfold Append.CheckIneffectiveAppend. split.
  - destruct (Append.Lhs assign) as [|[Name obj| |] [|]]; try done.
    destruct (Append.Rhs assign) as [|[| [callName funObj| |] value|] [|]]; try done.
    destruct (decide (Name = "_")) as [|HName]; [done|].
    destruct (decide (callName = "append")) as [->|]; [|done].
    destruct (Append.isNamedResult fn obj) eqn:Hres; [done|].
    destruct value as [expr|]; [|done].
    destruct (Append.Instrs fn !! expr) as [node|] eqn:Hnode; [|done].
    destruct (walkRefs_decides fn (Append.Referrers node)) as (u & V & -> & Hu).
    intros Hneg%negb_true_iff. subst u.
    exists Name, obj, funObj, expr, node. split_and!; try done.
    intros Hreach. by apply Hu in Hreach.
  - intros (Name & obj & funObj & expr & node & -> & HName & -> & -> & -> & Hno).
    destruct (decide (Name = "_")); [done|].
    destruct (decide ("append" = "append")); [|done].
    destruct (walkRefs_decides fn (Append.Referrers node)) as (u & V & -> & Hu).
    destruct u; [|done]. destruct Hno. by apply Hu.
Qed.

Section AppendExamples.
Import Append.

(** C8 as the claim states it fails at a named result: in
    [appendThenPanic] the walk from the result of the call reaches
    nothing but the phi, the call itself and a debug reference, yet
    the assignment is not reported; without the named result it is. *)
Lemma append_to_named_result_not_reported :
  (∃ node, Instrs appendThenPanic !! 10 = Some node
           ∧ ¬ reachesConsumer appendThenPanic (Referrers node))
  ∧ CheckIneffectiveAppend assignAppend (Some appendThenPanic) = false
  ∧ CheckIneffectiveAppend assignAppend (Some appendOnly) = true.
Proof.
  split; [|split; vm_compute; reflexivity].
  exists (mkNode appendCall [11; 12]). split; [reflexivity|].
  destruct (walkRefs_decides appendThenPanic [11; 12]) as (u & V & Hrun & Hu).
  assert (u = false) as -> by (vm_compute in Hrun; congruence).
  intros Hreach. apply Hu in Hreach. discriminate.
Qed.

(** A result that is returned is used. *)
Example returned_append_not_reported :
  CheckIneffectiveAppend assignAppend (Some appendThenReturn) = false.
Proof. vm_compute. reflexivity. Qed.

End AppendExamples.

(** * Part III. Further properties *)

(** ** Constant resolution *)

Section ConstsReach.
Import token Consts.
Context {cval : Type} `{!EqDecision cval}.
Variable fn : Function cval.


End ConstsReach.


(** ** Self calls and the paths to a return *)

Section RecursionPaths.
Import Recursion.
Variable Dominates : BasicBlock → BasicBlock → bool.

Lemma isPath_last_block (fn : Function) (a b : BasicBlock) (rest : list BasicBlock) :
  a ∈ Blocks fn → isPath fn a rest → last (a :: rest) = Some b → b ∈ Blocks fn.
Proof.
  revert a. induction rest as [|c rest IH]; intros a Ha Hpath Hlast.
  - by injection Hlast as <-.
  - destruct Hpath as [(_ & Hc & _) Hpath]. apply (IH c); [done..|].
    by rewrite last_cons_cons in Hlast.
Qed.

(** X2.  Where [Dominates] answers true only for blocks that dominate,
    a reported call stands in a block that every path from the entry
    block to a block ending in a return passes through: the function
    cannot return without getting to the block of the call. *)
Theorem reported_call_on_every_path_to_return (ssafn : Function) (n i : nat) :
  (∀ a b, a ∈ Blocks ssafn → b ∈ Blocks ssafn →
     Dominates a b = true → dominates ssafn a b) →
  (n, i) ∈ CheckInfiniteRecursion Dominates (Some ssafn) →
  ∃ block, block ∈ Blocks ssafn ∧ Index block = n
    ∧ (∃ ins, Instrs block !! i = Some ins ∧ isSelfCall ssafn ins = true)
    ∧ ∀ entry rest b,
        head (Blocks ssafn) = Some entry → isPath ssafn entry rest →
        last (entry :: rest) = Some b → endsInReturn b = true →
        block ∈ entry :: rest.
Proof.
  intros Hsound Hrep. unfold CheckInfiniteRecursion in Hrep.
  destruct (decide (length (Blocks ssafn) = 0)); [by apply elem_of_nil in Hrep|].
  apply blockLoop_iff in Hrep as (block & ins & Hblock & Hn & Hins & Hself & Hcan).
  exists block. split_and!; [done|done|by exists ins|].
  intros entry rest b Hentry Hpath Hlast Hret.
  assert (entry ∈ Blocks ssafn) as Hin.
  { destruct (Blocks ssafn) as [|e bs]; [done|]. injection Hentry as ->. left. }
  pose proof (isPath_last_block ssafn entry b rest Hin Hpath Hlast) as Hb.
  destruct (Dominates block b) eqn:Hdom.
  - by apply (Hsound block b Hblock Hb Hdom entry rest).
  - assert (canReturn Dominates block (Blocks ssafn) = true) as Hyes
      by (apply canReturn_iff; eauto).
    congruence.
Qed.

End RecursionPaths.

(** The call of [callThenReturn] stands on the path to its return. *)
Lemma reported_call_on_every_path_to_return_witness :
  ∃ block, block ∈ Recursion.Blocks Recursion.callThenReturn
    ∧ Recursion.Index block = 0
    ∧ (∃ ins, Recursion.Instrs block !! 0 = Some ins
              ∧ Recursion.isSelfCall Recursion.callThenReturn ins = true)
    ∧ ∀ entry rest b,
        head (Recursion.Blocks Recursion.callThenReturn) = Some entry →
        Recursion.isPath Recursion.callThenReturn entry rest →
        last (entry :: rest) = Some b → Recursion.endsInReturn b = true →
        block ∈ entry :: rest.
Proof.
  apply (reported_call_on_every_path_to_return Recursion.callThenReturnDominates
           Recursion.callThenReturn 0 0).
  - intros a b Ha Hb Hdom. by apply callThenReturn_dominance.
  - vm_compute. left.
Defined.

(** ** Stores to fields, with any number of stores in a block *)

Section FieldsAnyOrder.
Import token Fields.

Variable rangeBlocks : list (nat * gmap nat Value) → list (nat * gmap nat Value).
Variable rangeWrites : nat → list (nat * Value) → list (nat * Value).
Hypothesis rangeBlocks_perm : ∀ l, rangeBlocks l ≡ₚ l.
Hypothesis rangeWrites_perm : ∀ block l, rangeWrites block l ≡ₚ l.

Variables (fn : Function) (recv : Value) (fields : list string) (st : Facts).
Hypothesis recv_struct : ∃ id, recv = Param id (Struct fields).

(** The loop over the writes of a block, from any [seen]: every dead
    store is reported, and a store that is reported has no read for it
    in the block itself. *)
Lemma writeLoop_complete (block : nat) (ws : list (nat * Value)) :
  (∀ e, e ∈ ws → ∃ id pos X Field, e.2 = FieldAddr id pos X Field ∧ Field < length fields) →
  ∀ seen problems,
  ∃ added,
    writeLoop fn (reads st) recv block ws seen problems = Finished (problems ++ added)
    ∧ (∀ k id pos X Field name,
         (k, FieldAddr id pos X Field) ∈ ws → fields !! Field = Some name →
         deadStore fn st block (FieldAddr id pos X Field) → (id, name) ∈ added)
    ∧ (∀ id name, (id, name) ∈ added →
         ∃ k pos X Field, (k, FieldAddr id pos X Field) ∈ ws
                          ∧ fields !! Field = Some name
                          ∧ ¬ readFor st (FieldAddr id pos X Field) block)
    ∧ length added ≤ length ws.
Proof.
  destruct recv_struct as [id0 ->].
  induction ws as [|[k write] ws IH]; intros Hws seen problems.
  - exists []. simpl. rewrite app_nil_r. split_and!; [done| | |done].
    + by intros k id pos X Field name ?%elem_of_nil.
    + by intros id name ?%elem_of_nil.
  - destruct (Hws (k, write)) as (id & pos & X & Field & Hw & Hlt); [left|].
    simpl in Hw. subst write.
    assert (∀ e, e ∈ ws → ∃ id pos X Field,
              e.2 = FieldAddr id pos X Field ∧ Field < length fields) as Hrest
      by (intros e He; apply Hws; by right).
    apply lookup_lt_is_Some in Hlt as [name Hname].
    simpl.
    pose proof (hasRead_never_out_of_fuel fn (reads st) (FieldAddr id pos X Field)
                  block seen) as Hfuel.
    destruct (hasRead fn (reads st) (depth fn) block (FieldAddr id pos X Field) seen)
      as [[[] seen']|] eqn:Hrun; [| |done].
    + destruct (IH Hrest seen' problems) as (added & -> & Hdead & Hrep & Hlen).
      exists added. split_and!; [done| | |simpl; lia].
      * intros k' id' pos' X' Field' name' [[= <- <- <- <- <-]|Hin]%elem_of_cons Hn Hd;
          [|by eapply Hdead].
        destruct Hd. apply hasRead_true in Hrun as (block' & Hflow & Hread).
        exists block'. split; [done|]. by apply readInBlock_readFor.
      * intros id' name' (k' & pos' & X' & Field' & Hin & Hrest')%Hrep.
        exists k', pos', X', Field'. split; [by right|done].
    + simpl. rewrite Hname.
      destruct (IH Hrest seen' (problems ++ [(id, name)])) as (added & -> & Hdead & Hrep & Hlen).
      exists ((id, name) :: added). split_and!.
      * by rewrite <- app_assoc.
      * intros k' id' pos' X' Field' name' [[= <- <- <- <- <-]|Hin]%elem_of_cons Hn Hd.
        -- rewrite Hname in Hn. injection Hn as <-. left.
        -- right. by eapply Hdead.
      * intros id' name' [[= -> ->]|Hin]%elem_of_cons.
        -- exists k, pos, X, Field. split_and!; [left|done|].
           intros Hread%readInBlock_readFor.
           unfold depth in Hrun. rewrite Nat.add_comm in Hrun. simpl in Hrun.
           by rewrite Hread in Hrun.
        -- apply Hrep in Hin as (k' & pos' & X' & Field' & Hin & Hrest').
           exists k', pos', X', Field'. split; [by right|done].
      * simpl. lia.
Qed.

Hypothesis writes_FieldAddrs : writesAreFieldAddrs (writes st).
Hypothesis in_range : fieldsInRange st fields.

Lemma blockLoop_complete (bs : list (nat * gmap nat Value)) :
  (∀ e, e ∈ bs → writes st !! e.1 = Some e.2) →
  ∀ problems,
  ∃ added,
    blockLoop rangeWrites fn (reads st) recv bs problems = Finished (problems ++ added)
    ∧ (∀ e k id pos X Field name,
         e ∈ bs → e.2 !! k = Some (FieldAddr id pos X Field) →
         fields !! Field = Some name →
         deadStore fn st e.1 (FieldAddr id pos X Field) → (id, name) ∈ added)
    ∧ (∀ id name, (id, name) ∈ added →
         ∃ e k pos X Field, e ∈ bs ∧ e.2 !! k = Some (FieldAddr id pos X Field)
                            ∧ fields !! Field = Some name
                            ∧ ¬ readFor st (FieldAddr id pos X Field) e.1).
Proof.
  induction bs as [|[block ws] bs IH]; intros Hbs problems.
  - exists []. simpl. rewrite app_nil_r. split_and!; [done| |].
    + by intros e k id pos X Field name ?%elem_of_nil.
    + by intros id name ?%elem_of_nil.
  - assert (writes st !! block = Some ws) as Hws by (apply (Hbs (block, ws)); left).
    assert (∀ k w, (k, w) ∈ rangeWrites block (map_to_list ws) ↔ ws !! k = Some w) as Hentry.
    { intros k w. rewrite rangeWrites_perm. apply elem_of_map_to_list. }
    destruct (writeLoop_complete block (rangeWrites block (map_to_list ws))) with
      (seen := (∅ : gset nat)) (problems := problems) as (added1 & Hrun1 & Hdead1 & Hrep1 & _).
    { intros [k w] Hin%Hentry. simpl.
      pose proof (writes_FieldAddrs block ws k w Hws Hin) as Hfa.
      destruct w as [| |id pos X Field| |]; try done.
      exists id, pos, X, Field. split; [done|].
      apply (in_range block id pos X Field). by exists ws, k. }
    simpl. rewrite Hrun1.
    destruct (IH (λ e He, Hbs e (list_elem_of_further _ _ _ He)) (problems ++ added1))
      as (added2 & -> & Hdead2 & Hrep2).
    exists (added1 ++ added2). split_and!.
    + by rewrite app_assoc.
    + intros e k id pos X Field name [->|He]%elem_of_cons Hk Hn Hd; apply elem_of_app.
      * left. apply (Hdead1 k id pos X Field name); [by apply Hentry|done..].
      * right. by eapply Hdead2.
    + intros id name [Hin|Hin]%elem_of_app.
      * apply Hrep1 in Hin as (k & pos & X & Field & Hin%Hentry & Hrest).
        exists (block, ws), k, pos, X, Field. split; [left|done].
      * apply Hrep2 in Hin as (e & k & pos & X & Field & He & Hrest).
        exists e, k, pos, X, Field. split; [by right|done].
Qed.

End FieldsAnyOrder.

(** X3.  For a method the check analyses, whatever the number of
    tracked stores in a block and whatever the order in which the maps
    are ranged over: the run finishes; every tracked store that is
    dead is reported under the name of its field; and every store that
    is reported is a tracked store with no read for it in its own
    block. *)
Theorem dead_stores_reported_in_every_order
    (rangeBlocks : list (nat * gmap nat Fields.Value) → list (nat * gmap nat Fields.Value))
    (rangeWrites : nat → list (nat * Fields.Value) → list (nat * Fields.Value))
    (decl : Fields.FuncDecl) (fn : Fields.Function) (recv : Fields.Value)
    (fields : list string) :
  (∀ l, rangeBlocks l ≡ₚ l) →
  (∀ block l, rangeWrites block l ≡ₚ l) →
  Fields.analysed decl fn recv fields →
  Fields.fieldsInRange (Fields.scan fn recv) fields →
  ∃ problems,
    Fields.CheckIneffecitiveFieldAssignments rangeBlocks rangeWrites decl
      = Fields.Finished problems
    ∧ (∀ block id pos X Field name,
         Fields.trackedStore (Fields.scan fn recv) block (Fields.FieldAddr id pos X Field) →
         fields !! Field = Some name →
         Fields.deadStore fn (Fields.scan fn recv) block (Fields.FieldAddr id pos X Field) →
         (id, name) ∈ problems)
    ∧ (∀ id name, (id, name) ∈ problems →
         ∃ block pos X Field,
           Fields.trackedStore (Fields.scan fn recv) block (Fields.FieldAddr id pos X Field)
           ∧ fields !! Field = Some name
           ∧ ¬ Fields.readFor (Fields.scan fn recv) (Fields.FieldAddr id pos X Field) block).
Proof.
  intros HpermB HpermW (HRecv & Hssafn & Hblocks & (id0 & params & -> & HParams)
                        & (locals & HLocals)) Hrange.
  unfold Fields.CheckIneffecitiveFieldAssignments.
  rewrite HRecv, Hssafn, HParams, HLocals.
  destruct (decide (length (Fields.Blocks fn) = 0)) as [Hz|_];
    [by destruct (Fields.Blocks fn)|].
  set (recv := Fields.Param id0 (Fields.Struct fields)) in *.
  set (st := Fields.scan fn recv) in *.
  pose proof (HpermB (map_to_list (Fields.writes st))) as Hperm.
  assert (∀ e, e ∈ rangeBlocks (map_to_list (Fields.writes st)) ↔
               Fields.writes st !! e.1 = Some e.2) as Hentries.
  { intros [b ws]. rewrite Hperm. apply elem_of_map_to_list. }
  destruct (blockLoop_complete rangeWrites HpermW fn recv fields st
              (ex_intro _ id0 eq_refl) (scan_FieldAddr fn recv) Hrange
              (rangeBlocks (map_to_list (Fields.writes st)))
              (λ e He, proj1 (Hentries e) He) [])
    as (problems & Hrun & Hdead & Hrep).
  exists problems. split; [done|]. split.
  - intros block id pos X Field name (ws & k & Hws & Hk) Hname Hd.
    apply (Hdead (block, ws) k id pos X Field name); [by apply Hentries|done..].
  - intros id name ([b ws] & k & pos & X & Field & He & Hk & Hname & Hnr)%Hrep.
    exists b, pos, X, Field. split_and!; [|done|done].
    exists ws, k. split; [by apply Hentries in He|done].
Qed.

(** In [setBoth], where block 0 holds two stores, both orders report a
    store whose own block holds no read for it. *)
Lemma dead_stores_reported_in_every_order_witness :
  ∃ problems,
    Fields.descendingRun (Fields.mkFuncDecl true (Some Fields.setBoth))
      = Fields.Finished problems
    ∧ ∀ id name, (id, name) ∈ problems →
        ∃ block pos X Field,
          Fields.trackedStore (Fields.scan Fields.setBoth Fields.recvT) block
            (Fields.FieldAddr id pos X Field)
          ∧ ["Name"; "Age"] !! Field = Some name
          ∧ ¬ Fields.readFor (Fields.scan Fields.setBoth Fields.recvT)
                (Fields.FieldAddr id pos X Field) block.
Proof.
  destruct (dead_stores_reported_in_every_order Fields.ascending (λ _, Fields.descending)
              (Fields.mkFuncDecl true (Some Fields.setBoth)) Fields.setBoth Fields.recvT
              ["Name"; "Age"]) as (problems & Hrun & _ & Hrep).
  - intros l. apply merge_sort_Permutation.
  - intros _ l. apply merge_sort_Permutation.
  - split_and!; [done|done|done| |by eexists]. by eexists 0, _.
  - intros block id pos X Field (ws & k & Hws & Hk).
    rewrite (proj2 scan_setBoth) in Hws.
    assert (Field = 0 ∨ Field = 1) as [-> | ->]; [|simpl; lia..].
    destruct (decide (block = 0)) as [->|Hb0].
    + rewrite lookup_insert_eq in Hws. injection Hws as <-.
      apply lookup_insert_Some in Hk as [[_ [= _ _ _ <-]]|[_ Hk]]; [by left|].
      apply lookup_singleton_Some in Hk as [_ [= _ _ _ <-]]. by right.
    + rewrite lookup_insert_ne in Hws by done.
      apply lookup_insert_Some in Hws as [[_ <-]|[_ Hws]]; [by rewrite lookup_empty in Hk|].
      apply lookup_singleton_Some in Hws as [_ <-]. by rewrite lookup_empty in Hk.
  - exists problems. split; [exact Hrun|exact Hrep].
Defined.

(** ** The table of labels of [CheckIneffectiveLoop] *)

Section LoopLabels.
Import token Loop.

Lemma recordLabel_step (n : Node) (L : gmap nat nat) :
  recordLabel n L
  = (match n with
     | LabeledStmt _ label stmt => <[label := nodeId stmt]> L
     | _ => L
     end, true).
Proof. by destruct n. Qed.

Lemma recordLabel_from_list (l : list Node) (label p : nat) :
  Forall (λ n, ∀ L, Inspect recordLabel n L !! label = Some p →
                 L !! label = Some p
                 ∨ ∃ id stmt, within n (LabeledStmt id label stmt) ∧ nodeId stmt = p) l →
  ∀ L, InspectList recordLabel l L !! label = Some p →
    L !! label = Some p
    ∨ ∃ s id stmt, s ∈ l ∧ within s (LabeledStmt id label stmt) ∧ nodeId stmt = p.
Proof.
  induction 1 as [|c l Hc _ IH]; intros L HR; [by left|].
  rewrite InspectList_cons in HR.
  apply IH in HR as [HR|(s & id & stmt & Hs & Hrest)].
  - apply Hc in HR as [HR|(id & stmt & Hrest)]; [by left|].
    right. exists c, id, stmt. split; [left|done].
  - right. exists s, id, stmt. split; [by right|done].
Qed.

Lemma recordLabel_from (n : Node) (label p : nat) (L : gmap nat nat) :
  Inspect recordLabel n L !! label = Some p →
  L !! label = Some p ∨ ∃ id stmt, within n (LabeledStmt id label stmt) ∧ nodeId stmt = p.
Proof.
  revert L. induction n as [n IH] using Node_children_ind. intros L.
  rewrite Inspect_unfold, recordLabel_step.
  intros [HR|(s & id & stmt & Hs & Hin & Hp)]%(recordLabel_from_list _ _ _ IH).
  - destruct n as [ | | | | | | |id l stmt| ]; try (by left).
    apply lookup_insert_Some in HR as [[<- <-]|[_ HR]]; [|by left].
    right. exists id, stmt. split; [apply rtc_refl|done].
  - right. exists id, stmt. split; [|done]. by eapply within_child.
Qed.

Lemma recordLabel_keeps_list (l : list Node) (label : nat) :
  Forall (λ n, ∀ L, is_Some (L !! label) → is_Some (Inspect recordLabel n L !! label)) l →
  ∀ L, is_Some (L !! label) → is_Some (InspectList recordLabel l L !! label).
Proof.
  induction 1 as [|c l Hc _ IH]; intros L HL; [done|].
  rewrite InspectList_cons. by apply IH, Hc.
Qed.

Lemma recordLabel_keeps (n : Node) (label : nat) (L : gmap nat nat) :
  is_Some (L !! label) → is_Some (Inspect recordLabel n L !! label).
Proof.
  revert L. induction n as [n IH] using Node_children_ind. intros L HL.
  rewrite Inspect_unfold, recordLabel_step.
  apply (recordLabel_keeps_list _ _ IH).
  destruct n as [ | | | | | | |id l stmt| ]; try done.
  destruct (decide (l = label)) as [->|Hne].
  - rewrite lookup_insert_eq. by eexists.
  - by rewrite lookup_insert_ne.
Qed.

Lemma recordLabel_defined (n m : Node) (id label : nat) (stmt : Node) :
  within n m → m = LabeledStmt id label stmt →
  ∀ L, is_Some (Inspect recordLabel n L !! label).
Proof.
  induction 1 as [n|n c m Hc Hm IH]; intros Heq L.
  - subst n. rewrite Inspect_unfold, recordLabel_step.
    apply recordLabel_keeps_list.
    + apply Forall_forall. intros x _ L0. apply recordLabel_keeps.
    + rewrite lookup_insert_eq. by eexists.
  - rewrite Inspect_unfold, recordLabel_step.
    generalize (match n with
                | LabeledStmt _ label0 stmt0 => <[label0:=nodeId stmt0]> L
                | _ => L
                end). intros L'.
    revert L'. induction (children n) as [|c' l IHl]; intros L';
      [by apply elem_of_nil in Hc|].
    rewrite InspectList_cons. apply elem_of_cons in Hc as [<-|Hc].
    + apply recordLabel_keeps_list; [|by apply IH].
      apply Forall_forall. intros x _ L0. apply recordLabel_keeps.
    + by apply IHl.
Qed.

Lemma recordLabel_defined_list (l : list Node) (s m : Node) (id label : nat) (stmt : Node) :
  s ∈ l → within s m → m = LabeledStmt id label stmt →
  ∀ L, is_Some (InspectList recordLabel l L !! label).
Proof.
  intros Hs Hm Heq. induction l as [|c l IH]; intros L; [by apply elem_of_nil in Hs|].
  rewrite InspectList_cons. apply elem_of_cons in Hs as [<-|Hs].
  - apply recordLabel_keeps_list; [|by eapply recordLabel_defined].
    apply Forall_forall. intros x _ L0. apply recordLabel_keeps.
  - by apply IH.
Qed.

(** X4.  The table that the first walk of [CheckIneffectiveLoop] fills
    (lines 1555-1563): an entry for a label is the statement of some
    labelled statement of the body with that label; every label of a
    labelled statement of the body has an entry; and when a label
    labels one statement only, as the objects of a Go function do, its
    entry is that statement. *)
Theorem label_table_resolves (body : list Node) (label : nat) :
  (∀ p, InspectList recordLabel body ∅ !! label = Some p →
     ∃ s id stmt, s ∈ body ∧ within s (LabeledStmt id label stmt) ∧ nodeId stmt = p)
  ∧ (∀ s id stmt, s ∈ body → within s (LabeledStmt id label stmt) →
       is_Some (InspectList recordLabel body ∅ !! label))
  ∧ ((∀ s s' id id' stmt stmt',
        s ∈ body → s' ∈ body →
        within s (LabeledStmt id label stmt) → within s' (LabeledStmt id' label stmt') →
        nodeId stmt = nodeId stmt') →
     ∀ s id stmt, s ∈ body → within s (LabeledStmt id label stmt) →
       InspectList recordLabel body ∅ !! label = Some (nodeId stmt)).
Proof.
  assert (∀ p, InspectList recordLabel body ∅ !! label = Some p →
            ∃ s id stmt, s ∈ body ∧ within s (LabeledStmt id label stmt) ∧ nodeId stmt = p)
    as Hfrom.
  { intros p HR. apply recordLabel_from_list in HR as [HR|?]; [by rewrite lookup_empty in HR|done|].
    apply Forall_forall. intros n _ L. apply recordLabel_from. }
  split_and!; [done| |].
  - intros s id stmt Hs Hm. by eapply recordLabel_defined_list.
  - intros Hone s id stmt Hs Hm.
    destruct (recordLabel_defined_list body s _ id label stmt Hs Hm eq_refl ∅) as [p Hp].
    rewrite Hp. f_equal.
    destruct (Hfrom p Hp) as (s' & id' & stmt' & Hs' & Hm' & <-).
    exact (Hone s' s id' id stmt' stmt Hs' Hs Hm' Hm).
Qed.

(** The table of [labelledContinueBody]: the label 7 is the loop 2. *)
Lemma label_table_resolves_witness :
  InspectList recordLabel labelledContinueBody ∅ !! 7 = Some 2.
Proof.
  destruct (label_table_resolves labelledContinueBody 7) as (_ & _ & Hone).
  apply (Hone) with
    (s := LabeledStmt 1 7
            (ForStmt 2 []
               [ IfStmt 3 [OtherNode 4 []; BranchStmt 5 CONTINUE (Some 7)]; ReturnStmt 6 [] ]))
    (id := 1)
    (stmt := ForStmt 2 []
               [ IfStmt 3 [OtherNode 4 []; BranchStmt 5 CONTINUE (Some 7)]; ReturnStmt 6 [] ]).
  - intros s s' id id' stmt stmt' Hs Hs' Hm Hm'.
    assert (∀ t i st, t ∈ labelledContinueBody → within t (LabeledStmt i 7 st) →
              nodeId st = 2) as Honly.
    { clear. intros t i st Ht Hm.
      apply list_elem_of_singleton in Ht as ->.
      apply rtc_inv in Hm as [[= <- <-]|(c & Hc & Hm)]; [done|].
      simpl in Hc. apply list_elem_of_singleton in Hc as ->.
      apply rtc_inv in Hm as [?|(c & Hc & Hm)]; [done|].
      simpl in Hc. apply elem_of_cons in Hc as [->|Hc].
      - apply rtc_inv in Hm as [?|(c & Hc & Hm)]; [done|].
        simpl in Hc. apply elem_of_cons in Hc as [->|Hc].
        + apply rtc_inv in Hm as [?|(c & Hc & Hm)]; [done|]. by apply elem_of_nil in Hc.
        + apply list_elem_of_singleton in Hc as ->.
          apply rtc_inv in Hm as [?|(c & Hc & Hm)]; [done|]. by apply elem_of_nil in Hc.
      - apply list_elem_of_singleton in Hc as ->.
        apply rtc_inv in Hm as [?|(c & Hc & Hm)]; [done|]. by apply elem_of_nil in Hc. }
    rewrite (Honly s id stmt Hs Hm). by rewrite (Honly s' id' stmt' Hs' Hm').
  - left.
  - apply rtc_refl.
Defined.

End LoopLabels.

(** ** Values that are assigned and never read *)

Section UnreadFacts.
Import Append Unread.
Variable fn : Function.

Lemma filterDebug_from (instr out : list nat) :
  foldl (λ out ins, if isDebugRef fn ins then out else out ++ [ins]) out instr
  = out ++ filter (λ ins, isDebugRef fn ins = false) instr.
Proof.
  revert out. induction instr as [|ins instr IH]; intros out; simpl.
  - by rewrite app_nil_r.
  - rewrite IH. destruct (isDebugRef fn ins) eqn:Hd.
    + rewrite filter_cons_False by (rewrite Hd; done). done.
    + rewrite filter_cons_True by done. by rewrite <- app_assoc.
Qed.

Lemma filterDebug_filter (instr : list nat) :
  filterDebug fn instr = filter (λ ins, isDebugRef fn ins = false) instr.
Proof. unfold filterDebug. by rewrite filterDebug_from. Qed.

Lemma filterDebug_empty (instr : list nat) :
  length (filterDebug fn instr) = 0 ↔ ∀ ins, ins ∈ instr → isDebugRef fn ins = true.
Proof.
  rewrite filterDebug_filter, length_zero_iff_nil. split.
  - intros Hnil ins Hin. destruct (isDebugRef fn ins) eqn:Hd; [done|].
    assert (ins ∈ filter (λ ins, isDebugRef fn ins = false) instr) as Hf
      by (by apply list_elem_of_filter).
    rewrite Hnil in Hf. by apply elem_of_nil in Hf.
  - intros Hall. induction instr as [|ins instr IH]; [done|].
    rewrite filter_cons_False.
    + apply IH. intros i Hi. apply Hall. by right.
    + rewrite (Hall ins) by left. done.
Qed.

(** X5.  [filterDebug] returns the instructions of its argument that
    are not debug references, in their order, and nothing else:
    filtering twice changes nothing, the result of a concatenation is
    the concatenation of the results, and the result is empty exactly
    when every instruction is a debug reference. *)
Theorem filterDebug_keeps_the_others (instr : list nat) :
  filterDebug fn instr = filter (λ ins, isDebugRef fn ins = false) instr
  ∧ (∀ ins, ins ∈ filterDebug fn instr ↔ ins ∈ instr ∧ isDebugRef fn ins = false)
  ∧ filterDebug fn instr `sublist_of` instr
  ∧ filterDebug fn (filterDebug fn instr) = filterDebug fn instr
  ∧ (∀ more, filterDebug fn (instr ++ more) = filterDebug fn instr ++ filterDebug fn more)
  ∧ (length (filterDebug fn instr) = 0 ↔ ∀ ins, ins ∈ instr → isDebugRef fn ins = true).
Proof.
  split_and!.
  - apply filterDebug_filter.
  - intros ins. rewrite filterDebug_filter, list_elem_of_filter. tauto.
  - rewrite filterDebug_filter. apply sublist_filter.
  - rewrite !filterDebug_filter. apply list_filter_filter_l. tauto.
  - intros more. rewrite !filterDebug_filter. apply filter_app.
  - apply filterDebug_empty.
Qed.

Lemma lhsLoop_spec (lhs : list Expr) (rhs : list (option nat)) (i0 i : nat) :
  length lhs = length rhs →
  i ∈ lhsLoop fn i0 lhs rhs
  ↔ i0 ≤ i
    ∧ (∃ Name obj val node,
         lhs !! (i - i0) = Some (Ident Name obj) ∧ Name ≠ "_"
         ∧ rhs !! (i - i0) = Some (Some val)
         ∧ Instrs fn !! val = Some node
         ∧ ∀ ref, ref ∈ Referrers node → isDebugRef fn ref = true)
    ∧ ∀ j, j < i - i0 → ¬ endsLoop fn (mkAssign lhs rhs) j.
Proof.
  revert rhs i0. induction lhs as [|l lhs IH]; intros [|r rhs] i0 Hlen; try done.
  { simpl. split; [by intros ?%elem_of_nil|]. by intros (_ & (? & ? & ? & ? & ? & _) & _). }
  injection Hlen as Hlen. specialize (IH rhs (S i0) Hlen).
  assert (i ∈ lhsLoop fn (S i0) lhs rhs
          ↔ i0 < i
            ∧ (∃ Name obj val node,
                 (l :: lhs) !! (i - i0) = Some (Ident Name obj) ∧ Name ≠ "_"
                 ∧ (r :: rhs) !! (i - i0) = Some (Some val)
                 ∧ Instrs fn !! val = Some node
                 ∧ ∀ ref, ref ∈ Referrers node → isDebugRef fn ref = true)
            ∧ ∀ j, j < i - S i0 → ¬ endsLoop fn (mkAssign lhs rhs) j) as IH'.
  { rewrite IH. split.
    - intros (Hle & Hex & Hno). split; [lia|]. split; [|done].
      replace (i - i0) with (S (i - S i0)) by lia. done.
    - intros (Hlt & Hex & Hno). split; [lia|]. split; [|done].
      replace (i - i0) with (S (i - S i0)) in Hex by lia. done. }
  clear IH.
  assert (∀ j, endsLoop fn (mkAssign (l :: lhs) (r :: rhs)) (S j)
               ↔ endsLoop fn (mkAssign lhs rhs) j) as Hshift by done.
  assert (¬ endsLoop fn (mkAssign (l :: lhs) (r :: rhs)) 0 →
          (i ∈ lhsLoop fn (S i0) lhs rhs
           ↔ i0 < i
             ∧ (∃ Name obj val node,
                  (l :: lhs) !! (i - i0) = Some (Ident Name obj) ∧ Name ≠ "_"
                  ∧ (r :: rhs) !! (i - i0) = Some (Some val)
                  ∧ Instrs fn !! val = Some node
                  ∧ ∀ ref, ref ∈ Referrers node → isDebugRef fn ref = true)
             ∧ ∀ j, j < i - i0 → ¬ endsLoop fn (mkAssign (l :: lhs) (r :: rhs)) j)) as Hrest.
  { intros Hzero. rewrite IH'. split.
    - intros (Hlt & Hex & Hno). split_and!; [done..|].
      intros [|j] Hj; [done|]. rewrite Hshift. apply Hno. lia.
    - intros (Hlt & Hex & Hno). split_and!; [done..|].
      intros j Hj. rewrite <- Hshift. apply Hno. lia. }
  assert (∀ P : Prop, ¬ (∃ Name obj val node,
              (l :: lhs) !! 0 = Some (Ident Name obj) ∧ Name ≠ "_"
              ∧ (r :: rhs) !! 0 = Some (Some val)
              ∧ Instrs fn !! val = Some node
              ∧ ∀ ref, ref ∈ Referrers node → isDebugRef fn ref = true) →
            ¬ endsLoop fn (mkAssign (l :: lhs) (r :: rhs)) 0 →
            (i ∈ lhsLoop fn (S i0) lhs rhs
             ↔ i0 ≤ i
               ∧ (∃ Name obj val node,
                    (l :: lhs) !! (i - i0) = Some (Ident Name obj) ∧ Name ≠ "_"
                    ∧ (r :: rhs) !! (i - i0) = Some (Some val)
                    ∧ Instrs fn !! val = Some node
                    ∧ ∀ ref, ref ∈ Referrers node → isDebugRef fn ref = true)
               ∧ ∀ j, j < i - i0 → ¬ endsLoop fn (mkAssign (l :: lhs) (r :: rhs)) j)) as Hskip.
  { intros _ Hnot Hzero. rewrite (Hrest Hzero). split.
    - intros (Hlt & Hrest'). split; [lia|done].
    - intros (Hle & Hex & Hno). split; [|done].
      destruct (decide (i = i0)) as [->|]; [|lia].
      rewrite Nat.sub_diag in Hex. by destruct Hnot. }
  simpl.
  destruct l as [Name obj| |].
  - destruct (decide (Name = "_")) as [->|Hname].
    + apply (Hskip True).
      * by intros (? & ? & ? & ? & [= <- <-] & ? & _).
      * by intros (? & ? & ? & [= <- <-] & ? & _).
    + destruct r as [val|].
      * destruct (Instrs fn !! val) as [node|] eqn:Hval.
        -- assert (¬ endsLoop fn (mkAssign (Ident Name obj :: lhs) (Some val :: rhs)) 0)
             as Hzero.
           { intros (? & ? & ? & _ & _ & [= <-] & Hnone). simpl in *. congruence. }
           rewrite elem_of_app, (Hrest Hzero).
           destruct (decide (length (filterDebug fn (Referrers node)) = 0)) as [He|He].
           ++ pose proof (proj1 (filterDebug_empty _) He) as Hall. split.
              ** intros [->%list_elem_of_singleton|(Hlt & Hrest')].
                 --- rewrite Nat.sub_diag. split_and!; [lia| |intros j; lia].
                     exists Name, obj, val, node. done.
                 --- split; [lia|done].
              ** intros (Hle & Hex & Hno).
                 destruct (decide (i = i0)) as [->|]; [left; left|].
                 right. split; [lia|done].
           ++ split.
              ** intros [?%elem_of_nil|(Hlt & Hrest')]; [done|]. split; [lia|done].
              ** intros (Hle & Hex & Hno). right. split; [|done].
                 destruct (decide (i = i0)) as [->|]; [|lia].
                 rewrite Nat.sub_diag in Hex.
                 destruct Hex as (? & ? & ? & node' & _ & _ & [= <-] & Hn & Hall).
                 simpl in *. rewrite Hval in Hn. injection Hn as <-.
                 by apply (proj2 (filterDebug_empty _)) in Hall.
        -- split; [by intros ?%elem_of_nil|].
           intros (Hle & Hex & Hno).
           destruct (decide (i = i0)) as [->|].
           ++ rewrite Nat.sub_diag in Hex.
              destruct Hex as (? & ? & ? & node' & _ & _ & [= <-] & Hn & _). congruence.
           ++ destruct (Hno 0); [lia|]. by exists Name, obj, val.
      * apply (Hskip True).
        -- by intros (? & ? & ? & ? & _ & _ & ? & _).
        -- by intros (? & ? & ? & _ & _ & ? & _).
  - apply (Hskip True).
    + by intros (? & ? & ? & ? & ? & _).
    + by intros (? & ? & ? & ? & _).
  - apply (Hskip True).
    + by intros (? & ? & ? & ? & ? & _).
    + by intros (? & ? & ? & ? & _).
Qed.

(** X6.  The position [i] of an assignment is reported exactly when
    the assignment has as many left-hand as right-hand sides, its
    [i]-th left-hand side is an identifier other than the blank one,
    the value of the [i]-th right-hand side is known and has a list of
    referrers that holds debug references only, and no earlier
    position ended the loop with a value without referrers. *)
Theorem unread_value_reported_iff (assign : AssignStmt) (i : nat) :
  i ∈ CheckUnreadVariableValues (Some fn) assign
  ↔ length (Lhs assign) = length (Rhs assign)
    ∧ (∃ Name obj val node,
         Lhs assign !! i = Some (Ident Name obj) ∧ Name ≠ "_"
         ∧ Rhs assign !! i = Some (Some val)
         ∧ Instrs fn !! val = Some node
         ∧ ∀ ref, ref ∈ Referrers node → isDebugRef fn ref = true)
    ∧ ∀ j, j < i → ¬ endsLoop fn assign j.
Proof.
  unfold CheckUnreadVariableValues. destruct assign as [lhs rhs]. simpl.
  destruct (decide (length lhs ≠ length rhs)) as [Hne|Heq].
  - split; [by intros ?%elem_of_nil|]. by intros (? & _).
  - assert (length lhs = length rhs) as Hlen by lia.
    rewrite (lhsLoop_spec lhs rhs 0 i Hlen), Nat.sub_0_r. split.
    + intros (_ & Hex & Hno). done.
    + intros (_ & Hex & Hno). split; [lia|done].
Qed.

(** X7.  The two checks agree on a result of append that nothing
    refers to but debug references: when [CheckUnreadVariableValues]
    reports the assignment [x = append(...)], and [x] is not a named
    result of the function, [CheckIneffectiveAppend] reports it as
    well. *)
Theorem unread_append_is_ineffective (Name : string) (obj funObj val : nat) :
  0 ∈ CheckUnreadVariableValues (Some fn) (Unread.mkAssign [Ident Name obj] [Some val]) →
  isNamedResult fn obj = false →
  CheckIneffectiveAppend
    (Append.mkAssign [Ident Name obj] [CallExpr (Ident "append" funObj) (Some val)])
    (Some fn) = true.
Proof.
  intros Hrep Hres.
  unfold CheckUnreadVariableValues in Hrep. simpl in Hrep.
  destruct (decide (Name = "_")) as [->|Hname]; [by apply elem_of_nil in Hrep|].
  destruct (Instrs fn !! val) as [node|] eqn:Hval; [|by apply elem_of_nil in Hrep].
  destruct (decide (length (filterDebug fn (Referrers node)) = 0)) as [He|He];
    [|by apply elem_of_nil in Hrep].
  pose proof (proj1 (filterDebug_empty _) He) as Hall. clear He.
  unfold CheckIneffectiveAppend. cbn -[walkRefs depth].
  destruct (decide (Name = "_")); [done|].
  rewrite Hres, Hval.
  destruct (walkRefs_decides fn (Referrers node)) as (u & V & -> & Hu).
  destruct u; [|done].
  destruct Hu as [Hu _]. destruct (Hu eq_refl) as (r0 & r & Hr0 & Hpath & Hcons).
  pose proof (Hall r0 Hr0) as He. unfold isDebugRef in He.
  destruct (Instrs fn !! r0) as [[[] refs]|] eqn:Hr; try done.
  apply rtc_inv in Hpath as [<-|(m & (node' & Hn & Hkind & _) & _)].
  - unfold consumer in Hcons. by rewrite Hr in Hcons.
  - rewrite Hr in Hn. injection Hn as <-. simpl in Hkind. by destruct Hkind.
Qed.

End UnreadFacts.

(** A call of append that only a debug reference refers to is
    reported by both checks. *)
Lemma unread_append_is_ineffective_witness :
  Append.CheckIneffectiveAppend
    (Append.mkAssign [Append.Ident "xs" 1]
       [Append.CallExpr (Append.Ident "append" 0) (Some 10)])
    (Some (Append.mkFunction
             (<[10 := Append.mkNode Append.appendCall [12]]>
              (<[12 := Append.mkNode Append.DebugRef []]> ∅)) (Some []))) = true.
Proof.
  apply unread_append_is_ineffective.
  - vm_compute. left.
  - reflexivity.
Defined.

(** ** Data that [binary.Write] cannot encode *)

Section BinaryFacts.
Import Binary.

(** Induction over a type, through the types it holds. *)
Lemma Typ_ind' (P : Typ → Prop) :
  (∀ kind, P (Basic kind)) →
  (∀ len elem, P elem → P (Array len elem)) →
  (∀ elem, P elem → P (Slice elem)) →
  (∀ fields, Forall P fields → P (Struct fields)) →
  (∀ elem, P elem → P (Pointer elem)) →
  P Tuple → P Signature → P Interface →
  (∀ key elem, P key → P elem → P (Map key elem)) →
  (∀ elem, P elem → P (Chan elem)) →
  (∀ name underlying, P underlying → P (Named name underlying)) →
  ∀ t, P t.
Proof.
  intros HB HA HS HSt HP HT HSi HI HM HC HN. fix IH 1. intros t.
  destruct t as [kind|len elem|elem|fields|elem| | | |key elem|elem|name underlying].
  - apply HB.
  - apply HA, IH.
  - apply HS, IH.
  - apply HSt. induction fields as [|f fields IHf]; constructor; [apply IH|apply IHf].
  - apply HP, IH.
  - apply HT.
  - apply HSi.
  - apply HI.
  - apply HM; apply IH.
  - apply HC, IH.
  - apply HN, IH.
Qed.

Lemma Underlying_not_named (t : Typ) : ∀ name u, Underlying t ≠ Named name u.
Proof. induction t using Typ_ind'; try done. Qed.

Lemma Underlying_idemp (t : Typ) : Underlying (Underlying t) = Underlying t.
Proof. induction t using Typ_ind'; try done. Qed.

(** The function in the shape of the source: the switch of line 330
    over [typ.Underlying()]. *)
Lemma validEncodingBinaryType_unfold (typ : Typ) :
  validEncodingBinaryType typ
  = match Underlying typ with
    | Basic kind => validKind kind
    | Struct fields => forallb validEncodingBinaryType fields
    | Array _ elem => validEncodingBinaryType elem
    | Interface => true
    | _ => false
    end.
Proof. induction typ using Typ_ind'; try done. Qed.

Lemma valid_Underlying (typ : Typ) :
  validEncodingBinaryType (Underlying typ) = validEncodingBinaryType typ.
Proof. induction typ using Typ_ind'; try done. Qed.

(** X8.  A type is valid exactly when every leaf that is met from it
    through named types, fields of structs and elements of arrays is
    an interface or a basic type of one of the sized kinds (or the
    invalid kind): one string, bool, int, slice, map, pointer, channel
    or function at any depth makes the type invalid. *)
Theorem valid_iff_all_leaves_valid (typ : Typ) :
  validEncodingBinaryType typ = true
  ↔ ∀ leaf, rtc partOf typ leaf → isLeaf leaf → validLeaf leaf.
Proof.
  induction typ as [kind|len elem IH|elem _|fields IH|elem _| | | |key elem _ _|elem _
                   |name underlying IH] using Typ_ind'; simpl.
  - split.
    + intros Hk leaf [<-|(u & [] & _)]%rtc_inv _. done.
    + intros Hall. exact (Hall (Basic kind) (rtc_refl _ _) I).
  - rewrite IH. split.
    + intros Hall leaf [<-|(u & -> & Hu)]%rtc_inv Hleaf; [done|]. by apply Hall.
    + intros Hall leaf Hu Hleaf. apply Hall; [|done]. by eapply rtc_l.
  - split; [done|]. intros Hall. destruct (Hall (Slice elem) (rtc_refl _ _) I).
  - rewrite forallb_forall. split.
    + intros Hall leaf [<-|(u & Hin & Hu)]%rtc_inv Hleaf; [done|].
      rewrite Forall_forall in IH. apply (IH u Hin); [|done..].
      apply Hall. by apply list_elem_of_In.
    + intros Hall f Hin%list_elem_of_In.
      rewrite Forall_forall in IH. apply (IH f Hin).
      intros leaf Hu Hleaf. apply Hall; [|done]. by eapply rtc_l.
  - split; [done|]. intros Hall. destruct (Hall (Pointer elem) (rtc_refl _ _) I).
  - split; [done|]. intros Hall. destruct (Hall Tuple (rtc_refl _ _) I).
  - split; [done|]. intros Hall. destruct (Hall Signature (rtc_refl _ _) I).
  - split; [|done]. intros _ leaf [<-|(u & [] & _)]%rtc_inv _. done.
  - split; [done|]. intros Hall. destruct (Hall (Map key elem) (rtc_refl _ _) I).
  - split; [done|]. intros Hall. destruct (Hall (Chan elem) (rtc_refl _ _) I).
  - rewrite IH. split.
    + intros Hall leaf [<-|(u & -> & Hu)]%rtc_inv Hleaf; [done|]. by apply Hall.
    + intros Hall leaf Hu Hleaf. apply Hall; [|done]. by eapply rtc_l.
Qed.

Lemma dataType_valid (typ : Typ) :
  validEncodingBinaryType typ = true →
  validEncodingBinaryType (dataType typ) = true.
Proof.
  intros Hvalid. rewrite <- valid_Underlying in Hvalid. unfold dataType.
  pose proof (Underlying_not_named typ) as Hnn.
  destruct (Underlying typ) as [kind|len elem|elem|fields|elem| | | |key elem|elem
                               |name underlying]; try done.
Qed.

(** X9.  Data that the check takes for encodable is not reported, be
    it handed over as a value, as a slice, through a pointer, or as a
    pointer to a slice: when [validEncodingBinaryType] holds of a type
    [T], a call of [binary.Write] with data of type [T], [[]T], [*T]
    or [*[]T] is not reported.  Data that is a pointer to a pointer is
    always reported. *)
Theorem encodable_data_not_reported (T : Typ) (w order : option Typ) :
  validEncodingBinaryType T = true →
  CheckEncodingBinary true [w; order; Some T] = false
  ∧ CheckEncodingBinary true [w; order; Some (Slice T)] = false
  ∧ CheckEncodingBinary true [w; order; Some (Pointer T)] = false
  ∧ CheckEncodingBinary true [w; order; Some (Pointer (Slice T))] = false
  ∧ (∀ U, CheckEncodingBinary true [w; order; Some (Pointer (Pointer U))] = true).
Proof.
  intros Hvalid. unfold CheckEncodingBinary. split_and!.
  - by rewrite dataType_valid.
  - unfold dataType. simpl. by rewrite Hvalid.
  - apply negb_false_iff. pose proof (dataType_valid T Hvalid) as Hd.
    unfold dataType in *. simpl.
    pose proof Hvalid as Hu. rewrite <- valid_Underlying in Hu.
    destruct (Underlying T) as [kind|len elem|elem|fields|elem| | | |key elem|elem
                               |name underlying]; try done.
  - unfold dataType. simpl. by rewrite Hvalid.
  - done.
Qed.

End BinaryFacts.

(** [binary.Write(w, order, &h)] with [h] a [Header] is not
    reported. *)
Lemma encodable_data_not_reported_witness :
  Binary.validEncodingBinaryType Binary.Header = true
  ∧ Binary.CheckEncodingBinary true [None; None; Some (Binary.Pointer Binary.Header)] = false.
Proof.
  split; [reflexivity|].
  apply (encodable_data_not_reported Binary.Header None None). reflexivity.
Defined.

(** A struct with a field of type [int] or [string] is reported, and
    so is a slice of such structs. *)
Example int_field_reported :
  Binary.CheckEncodingBinary true
    [None; None; Some (Binary.Struct [Binary.Basic Binary.Uint8; Binary.Basic Binary.Int])]
  = true
  ∧ Binary.CheckEncodingBinary true
      [None; None;
       Some (Binary.Slice (Binary.Struct [Binary.Basic Binary.String]))] = true.
Proof. split; reflexivity. Qed.

(** ** Comparisons of strings of different sizes *)

Section SizesFacts.
Import token Sizes.

(** Induction over an expression, through the operand of a slice
    expression. *)
Lemma Expr_operand_ind (P : Expr → Prop) :
  (∀ X Low High, P X → P (SliceExpr X Low High)) →
  (∀ id Value, P (OtherExpr id Value)) →
  ∀ expr, P expr.
Proof.
  intros Hslice Hother. fix IH 1. intros [X Low High|id Value].
  - apply Hslice, IH.
  - apply Hother.
Qed.

Lemma substring_length (s : string) (n m : nat) :
  n + m ≤ String.length s → String.length (String.substring n m s) = m.
Proof.
  revert n m. induction s as [|c s IH]; intros [|n] [|m] Hle; simpl in *;
    try done; try lia.
  - f_equal. apply IH. lia.
  - apply IH. lia.
  - apply IH. lia.
Qed.

Lemma wrap_id (z : Z) : (minInt ≤ z ≤ maxInt)%Z → wrap z = z.
Proof.
  unfold wrap, minInt, maxInt. intros Hz.
  rewrite Z.mod_small by lia. lia.
Qed.

Lemma constantInt_eval (ρ : nat → option CValue) (expr : Expr) (z : Z) :
  constantInt expr = Some z →
  eval ρ expr = Some (IntVal z) ∧ (minInt ≤ z ≤ maxInt)%Z.
Proof.
  unfold constantInt. destruct expr as [X Low High|id [[s|z'|]|]]; simpl; try done.
  destruct (decide (minInt ≤ z' ≤ maxInt)%Z); [|done]. by intros [= <-].
Qed.

Lemma eval_fits (ρ : nat → option CValue) (expr : Expr) (s : string) :
  stringsFit ρ expr → eval ρ expr = Some (StringVal s) → fits s.
Proof.
  revert s. induction expr as [X Low High IH|id [v|]] using Expr_operand_ind;
    intros s Hfit Hev; simpl in *.
  - destruct (eval ρ X) as [[sX|z|]|]; try done.
    specialize (IH sX Hfit eq_refl).
    destruct (match Low with
              | Some l => eval ρ l
              | None => Some (IntVal 0)
              end) as [[?|low|]|]; try done.
    destruct (match High with
              | Some h => eval ρ h
              | None => Some (IntVal (Z.of_nat (String.length sX)))
              end) as [[?|high|]|]; try done.
    destruct (decide (0 ≤ low ≤ high ∧ high ≤ Z.of_nat (String.length sX))%Z)
      as [Hb|]; [|done].
    injection Hev as <-. unfold fits in *.
    rewrite substring_length by lia. lia.
  - injection Hev as ->. done.
  - by apply Hfit.
Qed.

Lemma sliceSize_eval (ρ : nat → option CValue) (expr : Expr) (s : string) (n : Z) :
  stringsFit ρ expr →
  eval ρ expr = Some (StringVal s) →
  sliceSize expr = Some n →
  n = Z.of_nat (String.length s).
Proof.
  revert s n. induction expr as [X Low High IH|id [v|]] using Expr_operand_ind;
    intros s n Hfit Hev Hsize.
  - simpl in *.
    destruct (eval ρ X) as [[sX|z|]|] eqn:HX; try done.
    pose proof (eval_fits ρ X sX Hfit HX) as HfX. unfold fits in HfX.
    assert (∃ low, (match Low with
                    | Some l => constantInt l
                    | None => Some 0%Z
                    end) = Some low
                   ∧ (match Low with
                      | Some l => eval ρ l
                      | None => Some (IntVal 0)
                      end) = Some (IntVal low)) as (low & Hlow & HlowE).
    { destruct Low as [l|]; [|by exists 0%Z].
      destruct (constantInt l) as [low|] eqn:Hl; [|done].
      exists low. split; [done|]. by apply constantInt_eval. }
    rewrite Hlow in Hsize. rewrite HlowE in Hev.
    assert (∃ high, (match High with
                     | Some h => eval ρ h
                     | None => Some (IntVal (Z.of_nat (String.length sX)))
                     end) = Some (IntVal high)
                    ∧ n = wrap (high - low)) as (high & HhighE & ->).
    { destruct High as [h|].
      - destruct (constantInt h) as [high|] eqn:Hh; [|done].
        exists high. injection Hsize as <-. split; [|done]. by apply constantInt_eval.
      - destruct (sliceSize X) as [high|] eqn:HsX; [|done].
        injection Hsize as <-. rewrite (IH sX high Hfit eq_refl eq_refl).
        by eexists. }
    rewrite HhighE in Hev.
    destruct (decide (0 ≤ low ≤ high ∧ high ≤ Z.of_nat (String.length sX))%Z)
      as [Hb|]; [|done].
    injection Hev as <-. rewrite substring_length by lia.
    rewrite wrap_id by (unfold minInt, maxInt in *; lia). lia.
  - simpl in *. injection Hev as ->. by injection Hsize as <-.
  - done.
Qed.

(** X10.  [sliceSize] is right about the strings it sizes: when the
    expression evaluates to a string, and the strings it slices have
    lengths that an [int] holds, a size that [sliceSize] returns is
    the length of that string; it is not negative, and the
    subtraction that gave it did not wrap around. *)
Theorem sliceSize_is_length (ρ : nat → option CValue) (expr : Expr) (s : string) (n : Z) :
  stringsFit ρ expr →
  eval ρ expr = Some (StringVal s) →
  sliceSize expr = Some n →
  n = Z.of_nat (String.length s) ∧ (0 ≤ n ≤ maxInt)%Z.
Proof.
  intros Hfit Hev Hsize.
  pose proof (sliceSize_eval ρ expr s n Hfit Hev Hsize) as ->.
  split; [done|]. split; [lia|]. by apply (eval_fits ρ expr).
Qed.

(** [s[:2]], where [s] holds ["hello"], has the size 2. *)
Lemma sliceSize_is_length_witness :
  eval holdsHello prefixOfS = Some (StringVal "he")
  ∧ sliceSize prefixOfS = Some 2%Z
  ∧ 2%Z = Z.of_nat (String.length "he").
Proof.
  split; [reflexivity|]. split; [reflexivity|].
  apply (sliceSize_is_length holdsHello prefixOfS "he" 2).
  - simpl. intros s. unfold holdsHello. simpl. intros [= <-]. by vm_compute.
  - reflexivity.
  - reflexivity.
Defined.

(** X11.  A comparison that [CheckDiffSizeComparison] reports compares
    for equality, has a slice expression on one side at least, and,
    when both sides evaluate to strings, these strings have different
    lengths: they are not equal. *)
Theorem reported_comparison_of_different_strings (ρ : nat → option CValue)
    (Op : Token) (X Y : Expr) (sx sy : string) :
  CheckDiffSizeComparison Op X Y = true →
  stringsFit ρ X → stringsFit ρ Y →
  eval ρ X = Some (StringVal sx) → eval ρ Y = Some (StringVal sy) →
  (Op = EQL ∨ Op = NEQ)
  ∧ (isSliceExpr X = true ∨ isSliceExpr Y = true)
  ∧ String.length sx ≠ String.length sy
  ∧ sx ≠ sy.
Proof.
  intros Hrep HfX HfY HX HY. unfold CheckDiffSizeComparison in Hrep.
  assert (Op = EQL ∨ Op = NEQ) as HOp by (destruct Op; try done; auto).
  assert ((if negb (isSliceExpr X) && negb (isSliceExpr Y) then false
           else match sliceSize X, sliceSize Y with
                | Some left_, Some right_ => negb (left_ =? right_)%Z
                | _, _ => false
                end) = true) as Hrep' by (by destruct HOp as [-> | ->]).
  clear Hrep.
  destruct (negb (isSliceExpr X) && negb (isSliceExpr Y)) eqn:Hslice; [done|].
  destruct (sliceSize X) as [left_|] eqn:HsX; [|done].
  destruct (sliceSize Y) as [right_|] eqn:HsY; [|done].
  apply negb_true_iff, Z.eqb_neq in Hrep'.
  rewrite (sliceSize_eval ρ X sx left_ HfX HX HsX) in Hrep'.
  rewrite (sliceSize_eval ρ Y sy right_ HfY HY HsY) in Hrep'.
  assert (String.length sx ≠ String.length sy) as Hlen by (intros Heq; by rewrite Heq in Hrep').
  split_and!; [done| |done|by intros ->].
  apply andb_false_iff in Hslice as [Hs|Hs]; apply negb_false_iff in Hs; auto.
Qed.

(** [s[:2] == "abc"] is reported; where [s] holds ["hello"], it
    compares ["he"] with ["abc"]. *)
Lemma reported_comparison_of_different_strings_witness :
  CheckDiffSizeComparison EQL prefixOfS abc = true
  ∧ eval holdsHello prefixOfS = Some (StringVal "he")
  ∧ eval holdsHello abc = Some (StringVal "abc")
  ∧ "he" ≠ "abc".
Proof.
  split; [reflexivity|]. split; [reflexivity|]. split; [reflexivity|].
  apply (reported_comparison_of_different_strings holdsHello EQL prefixOfS abc "he" "abc").
  - reflexivity.
  - simpl. intros s. unfold holdsHello. simpl. intros [= <-]. by vm_compute.
  - by vm_compute.
  - reflexivity.
  - reflexivity.
Defined.

End SizesFacts.

(** ** Constant indices beyond the end of a slice *)

Section BoundsFacts.
Import constant Bounds.

Lemma checkIndexAddr_reported (X Index : Value) :
  checkIndexAddr X Index = Some true →
  ∃ idx, Index = Const (Some (int64Val idx))
    ∧ (X = Const None
       ∨ ∃ x Low High high,
           X = Slice x Low High
           ∧ (High = Some (Const (Some (int64Val high)))
              ∨ High = None ∧ ∃ id, x = Alloc id (Some high))
           ∧ (high ≤ idx)%Z).
Proof.
  unfold checkIndexAddr.
  destruct Index as [[[idx|b]|]|id len|x Low High|id]; try done.
  simpl. intros Hrep. exists idx. split; [done|].
  destruct X as [[c|]|id len|x Low High|id]; try done; [by left|]. right.
  destruct High as [h|].
  - destruct (decide (-1 = -1)%Z); [|done].
    destruct h as [[[high|b]|]|? ?|? ? ?|?]; try done.
    simpl in Hrep. injection Hrep as Hle%bool_decide_eq_true.
    exists x, Low, (Some (Const (Some (int64Val high)))), high. auto.
  - destruct x as [c|id [len|]|x' Low' High'|id]; simpl in Hrep; try done.
    destruct (decide (len = -1)%Z); [done|].
    injection Hrep as Hle%bool_decide_eq_true.
    exists (Alloc id (Some len)), Low, None, len. split_and!; [done| |done].
    right. split; [done|]. by exists id.
Qed.

Lemma checkIndexAddr_out_of_range (ρ lens : nat → option Z) (X Index : Value) (n : Z) :
  checkIndexAddr X Index = Some true →
  lenOf ρ lens X = Some n →
  ∃ idx, Index = Const (Some (int64Val idx)) ∧ ¬ (0 ≤ idx < n)%Z.
Proof.
  intros (idx & -> & HX)%checkIndexAddr_reported Hlen. exists idx. split; [done|].
  destruct HX as [->|(x & Low & High & high & -> & Hhigh & Hle)].
  - simpl in Hlen. injection Hlen as <-. lia.
  - simpl in Hlen.
    destruct (match Low with
              | Some l => intOf ρ l
              | None => Some 0%Z
              end) as [low|]; [|done].
    assert ((match High with
             | Some h => intOf ρ h
             | None =>
                 match x with
                 | Alloc _ (Some len) => Some len
                 | OtherValue id => lens id
                 | _ => None
                 end
             end) = Some high) as Hhi.
    { destruct Hhigh as [->|[-> [id ->]]]; done. }
    rewrite Hhi in Hlen.
    destruct (decide (0 ≤ low ≤ high)%Z); [|done].
    injection Hlen as <-. lia.
Qed.

Lemma instrLoop_spec (n : nat) (instrs : list Instruction) (i0 : nat)
    (problems : list (nat * nat)) :
  instrLoop n i0 instrs = Some problems →
  ∀ b i, (b, i) ∈ problems
    ↔ b = n ∧ i0 ≤ i
      ∧ ∃ X Index, instrs !! (i - i0) = Some (IndexAddr X Index)
                   ∧ checkIndexAddr X Index = Some true.
Proof.
  revert i0 problems. induction instrs as [|ins rest IH]; intros i0 problems Hrun b i.
  - injection Hrun as <-. split; [by intros ?%elem_of_nil|].
    by intros (_ & _ & ? & ? & ? & _).
  - simpl in Hrun.
    destruct (match ins with
              | IndexAddr X Index => checkIndexAddr X Index
              | OtherInstruction => Some false
              end) as [reported|] eqn:Hins; [|done].
    destruct (instrLoop n (S i0) rest) as [more|] eqn:Hrest; [|done].
    injection Hrun as <-. rewrite elem_of_app, (IH (S i0) more Hrest). split.
    + intros [Hhere|(-> & Hle & X & Index & Hlook & Hc)].
      * destruct reported; [|by apply elem_of_nil in Hhere].
        apply list_elem_of_singleton in Hhere as [= -> ->].
        split_and!; [done|lia|]. rewrite Nat.sub_diag.
        destruct ins as [X Index|]; [|done]. by exists X, Index.
      * split_and!; [done|lia|]. exists X, Index.
        replace (i - i0) with (S (i - S i0)) by lia. done.
    + intros (-> & Hle & X & Index & Hlook & Hc).
      destruct (decide (i = i0)) as [->|Hne].
      * left. rewrite Nat.sub_diag in Hlook. injection Hlook as ->.
        rewrite Hc in Hins. injection Hins as <-. left.
      * right. split_and!; [done|lia|]. exists X, Index.
        replace (i - i0) with (S (i - S i0)) in Hlook by lia. done.
Qed.

Lemma blockLoop_spec (blocks : list (list Instruction)) (n0 : nat)
    (problems : list (nat * nat)) :
  blockLoop n0 blocks = Some problems →
  ∀ b i, (b, i) ∈ problems
    ↔ n0 ≤ b
      ∧ ∃ block X Index, blocks !! (b - n0) = Some block
                         ∧ block !! i = Some (IndexAddr X Index)
                         ∧ checkIndexAddr X Index = Some true.
Proof.
  revert n0 problems. induction blocks as [|block rest IH]; intros n0 problems Hrun b i.
  - injection Hrun as <-. split; [by intros ?%elem_of_nil|].
    by intros (_ & ? & ? & ? & ? & _).
  - simpl in Hrun.
    destruct (instrLoop n0 0 block) as [here|] eqn:Hhere; [|done].
    destruct (blockLoop (S n0) rest) as [more|] eqn:Hrest; [|done].
    injection Hrun as <-.
    rewrite elem_of_app, (IH (S n0) more Hrest), (instrLoop_spec n0 block 0 here Hhere).
    rewrite Nat.sub_0_r. split.
    + intros [(-> & _ & X & Index & Hlook & Hc)|(Hle & blk & X & Index & Hb & Hlook & Hc)].
      * split; [lia|]. exists block, X, Index. by rewrite Nat.sub_diag.
      * split; [lia|]. exists blk, X, Index.
        replace (b - n0) with (S (b - S n0)) by lia. done.
    + intros (Hle & blk & X & Index & Hb & Hlook & Hc).
      destruct (decide (b = n0)) as [->|Hne].
      * left. rewrite Nat.sub_diag in Hb. injection Hb as ->.
        split_and!; [done|lia|]. by exists X, Index.
      * right. split; [lia|]. exists blk, X, Index.
        replace (b - n0) with (S (b - S n0)) in Hb by lia. done.
Qed.



End BoundsFacts.

(** ** Loops below a loop that the check gave up on *)

Section LoopsBelow.
Import token Loop.
Variable labels : gmap nat nat.

Lemma within_id (c m : Node) : within c m → nodeId m ∈ nodeIdsOf c.
Proof.
  induction 1 as [c|c c' m Hc' _ IH].
  - rewrite nodeIdsOf_eq. left.
  - rewrite nodeIdsOf_eq. right. by apply (nodeIds_sub _ c').
Qed.

Lemma not_within_child (n c : Node) :
  NoDup (nodeIdsOf n) → c ∈ children n → ¬ within c n.
Proof.
  intros Hnd Hc Hcyc%within_id.
  rewrite nodeIdsOf_eq in Hnd. apply NoDup_cons in Hnd as [Hnin _].
  apply Hnin. by apply (nodeIds_sub _ c).
Qed.

(** In a tree of distinct nodes the walk gets to a node through the
    nodes above it. *)
Lemma walked_through (s n c m : Node) :
  NoDup (nodeIdsOf s) → within s n → c ∈ children n → within c m →
  walked labels s m → (visit labels n).2 = true.
Proof.
  intros Hnd Hn. revert Hnd. induction Hn as [n|s s' n Hs' Hn IH]; intros Hnd Hc Hm Hwalk.
  - apply walked_inv in Hwalk as [->|[Hdescend _]]; [|done].
    by destruct (not_within_child n c).
  - assert (within s' m) as Hs'm.
    { eapply rtc_trans; [exact Hn|]. by eapply rtc_l. }
    apply walked_inv in Hwalk as [->|(Hdescend & c' & Hc' & Hwalk)].
    { by destruct (not_within_child s s'). }
    pose proof Hnd as Hnds. rewrite nodeIdsOf_eq in Hnds. apply NoDup_cons in Hnds as [_ Hnds].
    assert (c' = s') as ->.
    { apply (nodeIds_same_owner (children s) c' s' (nodeId m)); [done..| |].
      - by apply within_id, (walked_within labels).
      - by apply within_id. }
    apply IH; [|done..]. by apply (nodeIds_NoDup_elem (children s)).
Qed.

End LoopsBelow.

(** X13.  A loop that stands below a loop at which the callback
    returned false (a body with a continue of that loop among its
    statements, without an exit, or without branching) is not looked
    at: in a tree of distinct nodes none of its statements is
    reported, whatever the inner loop holds. *)
Theorem nothing_reported_below_abandoned_loop (body : list Loop.Node)
    (s n c m x : Loop.Node) :
  NoDup (Loop.nodeIds body) →
  s ∈ body → Loop.within s n →
  (Loop.visit (Loop.InspectList Loop.recordLabel body ∅) n).2 = false →
  c ∈ Loop.children n → Loop.within c m → x ∈ Loop.children m →
  Loop.nodeId x ∉ Loop.CheckIneffectiveLoop (Some body).
Proof.
  intros Hnd Hs Hn Hstop Hc Hm Hx Hrep.
  assert (Loop.within s m) as Hsm.
  { eapply rtc_trans; [exact Hn|]. by eapply rtc_l. }
  destruct (reports_parent (Loop.InspectList Loop.recordLabel body ∅) body s m x
              Hnd Hs Hsm Hx Hrep) as [Hwalk _].
  rewrite (walked_through _ s n c m) in Hstop; [done| |done..].
  by apply (nodeIds_NoDup_elem body).
Qed.

(** The inner loop of [nestedBody] stands below a loop without an
    exit: its return is not reported. *)
Lemma nothing_reported_below_abandoned_loop_witness :
  6 ∉ Loop.CheckIneffectiveLoop (Some Loop.nestedBody).
Proof.
  apply (nothing_reported_below_abandoned_loop Loop.nestedBody
           (Loop.ForStmt 1 []
              [ Loop.OtherNode 2 [];
                Loop.ForStmt 3 []
                  [ Loop.IfStmt 4 [Loop.OtherNode 5 []]; Loop.ReturnStmt 6 [] ] ])
           (Loop.ForStmt 1 []
              [ Loop.OtherNode 2 [];
                Loop.ForStmt 3 []
                  [ Loop.IfStmt 4 [Loop.OtherNode 5 []]; Loop.ReturnStmt 6 [] ] ])
           (Loop.ForStmt 3 []
              [ Loop.IfStmt 4 [Loop.OtherNode 5 []]; Loop.ReturnStmt 6 [] ])
           (Loop.ForStmt 3 []
              [ Loop.IfStmt 4 [Loop.OtherNode 5 []]; Loop.ReturnStmt 6 [] ])
           (Loop.ReturnStmt 6 [])).
  - apply (bool_decide_unpack _). vm_compute. exact I.
  - left.
  - apply rtc_refl.
  - reflexivity.
  - right. left.
  - apply rtc_refl.
  - right. left.
Defined.

(** ** Finalizers that close over the object *)

Section FinalizerFacts.
Import Finalizer.
Variables (prog : Program) (obj : option nat).

Local Abbreviation edge := (Finalizer.edge prog).
Local Abbreviation reaches := (Finalizer.reaches prog).
Local Abbreviation capturing := (Finalizer.capturing prog obj).
Local Abbreviation visitedPost := (Finalizer.visitedPost prog obj).

Lemma checkFn_capturing (v Fn : nat) :
  Values prog !! v = Some (MakeClosure Fn) →
  checkFn prog obj Fn = true ↔ capturing v.
Proof.
  intros Hv. unfold checkFn, Finalizer.capturing. rewrite existsb_exists. split.
  - intros (fv & Hin%list_elem_of_In & ->%bool_decide_eq_true). by exists Fn.
  - intros (Fn' & Hv' & Hin). rewrite Hv in Hv'. injection Hv' as <-.
    exists (Some obj). split; [by apply list_elem_of_In|by apply bool_decide_eq_true].
Qed.

Lemma checkValue_unfold (fuel : nat) (val : nat) (seen : gset nat) (reports : list nat) :
  checkValue prog obj fuel val seen reports =
  if decide (val ∈ seen) then Some (reports, seen)
  else
    match Values prog !! val with
    | Some (Phi edges) =>
        match fuel with
        | O => None
        | S fuel' =>
            edgesLoop (checkValue prog obj fuel') edges ({[val]} ∪ seen) reports
        end
    | Some (MakeClosure Fn) =>
        Some (if checkFn prog obj Fn then reports ++ [val] else reports, {[val]} ∪ seen)
    | _ => Some (reports, {[val]} ∪ seen)
    end.
Proof. by destruct fuel. Qed.

Lemma visitedPost_seen (val : nat) (seen : gset nat) (reports : list nat) :
  val ∈ seen → visitedPost (eq val) seen reports seen reports.
Proof.
  intros Hin. split_and!; [done|by intros s <-| |by intros n ? ?].
  exists []. rewrite app_nil_r. split_and!; [done|constructor|].
  intros v. split; [by intros ?%elem_of_nil|]. by intros (? & ? & _).
Qed.

(** A value without operands: a closure, or any other value. *)
Lemma visitedPost_leaf (val : nat) (seen : gset nat) (reports added : list nat) :
  val ∉ seen → (∀ m, ¬ edge val m) →
  (added = [val] ∧ capturing val ∨ added = [] ∧ ¬ capturing val) →
  visitedPost (eq val) seen reports ({[val]} ∪ seen) (reports ++ added).
Proof.
  intros Hnin Hleaf Hadded. split_and!.
  - set_solver.
  - intros s <-. set_solver.
  - exists added. split; [done|]. destruct Hadded as [[-> Hc]|[-> Hc]].
    + split; [apply NoDup_singleton|]. intros v. rewrite list_elem_of_singleton. split.
      * intros ->. split_and!; [set_solver|done|done].
      * intros (Hin & Hv & _). set_solver.
    + split; [constructor|]. intros v. split; [by intros ?%elem_of_nil|].
      intros (Hin & Hv & Hcv). assert (v = val) as -> by set_solver. done.
  - intros n Hn Hnew. assert (n = val) as -> by set_solver.
    split; [exists val; split; [done|apply rtc_refl]|].
    intros m Hm. by destruct (Hleaf m).
Qed.

Lemma edgesLoop_post (rec : nat → gset nat → list nat → option (list nat * gset nat))
    (edges : list nat) :
  (∀ e seen reports reports' seen', e ∈ edges →
     rec e seen reports = Some (reports', seen') →
     visitedPost (eq e) seen reports seen' reports') →
  ∀ seen reports reports' seen',
    edgesLoop rec edges seen reports = Some (reports', seen') →
    visitedPost (λ e, e ∈ edges) seen reports seen' reports'.
Proof.
  intros Hrec. induction edges as [|e rest IH]; intros seen reports reports' seen' Hrun.
  - injection Hrun as <- <-. split_and!; [done|by intros s ?%elem_of_nil| |by intros n ? ?].
    exists []. rewrite app_nil_r. split_and!; [done|constructor|].
    intros v. split; [by intros ?%elem_of_nil|]. by intros (? & ? & _).
  - simpl in Hrun.
    destruct (rec e seen reports) as [[reports1 seen1]|] eqn:Hcall; [|done].
    apply Hrec in Hcall as (Hsub1 & Hsrc1 & (added1 & -> & Hnd1 & Hadd1) & Hnew1); [|left].
    apply IH in Hrun as (Hsub2 & Hsrc2 & (added2 & -> & Hnd2 & Hadd2) & Hnew2).
    2:{ intros e' s r r' s' He'. apply Hrec. by right. }
    split_and!.
    + set_solver.
    + intros s [->|Hs]%elem_of_cons; [|by apply Hsrc2].
      apply Hsub2, Hsrc1. done.
    + exists (added1 ++ added2). split; [by rewrite app_assoc|]. split.
      * apply NoDup_app. split_and!; [done| |done].
        intros v (Hv1 & _)%Hadd1 (_ & Hv2 & _)%Hadd2. done.
      * intros v. rewrite elem_of_app, Hadd1, Hadd2. split.
        -- intros [(Hin & Hnin & Hc)|(Hin & Hnin & Hc)]; split_and!; [set_solver|done..| |done].
           set_solver.
        -- intros (Hin & Hnin & Hc).
           destruct (decide (v ∈ seen1)); [left|right]; done.
    + intros n Hn Hnin. destruct (decide (n ∈ seen1)) as [Hn1|Hn1].
      * destruct (Hnew1 n Hn1 Hnin) as [(s & <- & Hreach) Hclosed]. split.
        -- exists e. split; [left|done].
        -- intros m Hm. by apply Hsub2, Hclosed.
      * destruct (Hnew2 n Hn Hn1) as [(s & Hs & Hreach) Hclosed]. split; [|done].
        exists s. split; [by right|done].
Qed.

Lemma checkValue_leaf (fuel : nat) (val : nat) (seen : gset nat) (reports : list nat)
    (reports' : list nat) (seen' : gset nat) :
  val ∉ seen → (∀ edges, Values prog !! val ≠ Some (Phi edges)) →
  checkValue prog obj fuel val seen reports = Some (reports', seen') →
  visitedPost (eq val) seen reports seen' reports'.
Proof.
  intros Hnin Hnophi Hrun. rewrite checkValue_unfold in Hrun.
  destruct (decide (val ∈ seen)); [done|].
  assert (∀ m, ¬ edge val m) as Hleaf by (intros m (edges & Hv & _); by destruct (Hnophi edges)).
  destruct (Values prog !! val) as [[edges|Fn|]|] eqn:Hval.
  - by destruct (Hnophi edges).
  - injection Hrun as <- <-.
    replace (if checkFn prog obj Fn then reports ++ [val] else reports)
      with (reports ++ (if checkFn prog obj Fn then [val] else []))
      by (destruct (checkFn prog obj Fn); [done|by rewrite app_nil_r]).
    apply visitedPost_leaf; [done..|].
    pose proof (checkFn_capturing val Fn Hval) as Hc.
    destruct (checkFn prog obj Fn); [left|right]; (split; [done|]).
    + by apply Hc.
    + intros Hcap%Hc. done.
  - injection Hrun as <- <-. rewrite <- (app_nil_r reports) at 2.
    apply visitedPost_leaf; [done..|]. right. split; [done|].
    intros (Fn & HFn & _). congruence.
  - injection Hrun as <- <-. rewrite <- (app_nil_r reports) at 2.
    apply visitedPost_leaf; [done..|]. right. split; [done|].
    intros (Fn & HFn & _). congruence.
Qed.

Lemma checkValue_post (fuel : nat) (val : nat) (seen : gset nat) (reports : list nat)
    (reports' : list nat) (seen' : gset nat) :
  checkValue prog obj fuel val seen reports = Some (reports', seen') →
  visitedPost (eq val) seen reports seen' reports'.
Proof.
  revert val seen reports reports' seen'.
  induction fuel as [|fuel IH]; intros val seen reports reports' seen' Hrun.
  - destruct (decide (val ∈ seen)) as [Hin|Hnin].
    { rewrite checkValue_unfold in Hrun. destruct (decide (val ∈ seen)); [|done].
      injection Hrun as <- <-. by apply visitedPost_seen. }
    apply (checkValue_leaf 0); [done| |done].
    intros edges Hval. rewrite checkValue_unfold, Hval in Hrun.
    by destruct (decide (val ∈ seen)).
  - destruct (decide (val ∈ seen)) as [Hin|Hnin].
    { rewrite checkValue_unfold in Hrun. destruct (decide (val ∈ seen)); [|done].
      injection Hrun as <- <-. by apply visitedPost_seen. }
    destruct (Values prog !! val) as [[edges|Fn|]|] eqn:Hval.
    2-4: apply (checkValue_leaf (S fuel)); [done| |done]; intros edges'; congruence.
    rewrite checkValue_unfold, Hval in Hrun. destruct (decide (val ∈ seen)); [done|].
    apply edgesLoop_post in Hrun as (Hsub & Hsrc & (added & -> & Hnd & Hadd) & Hnew).
    2:{ intros e s r r' s' _. apply IH. }
    split_and!.
    + set_solver.
    + intros s <-. set_solver.
    + exists added. split_and!; [done..|]. intros v. rewrite Hadd. split.
      * intros (Hin & Hnin' & Hc). split_and!; [done|set_solver|done].
      * intros (Hin & Hnin' & Hc). split_and!; [done| |done].
        intros [->%elem_of_singleton|?]%elem_of_union; [|done].
        destruct Hc as (Fn & HFn & _). congruence.
    + intros m Hm Hnin'. destruct (decide (m = val)) as [->|Hne].
      * split; [exists val; split; [done|apply rtc_refl]|].
        intros m' (edges' & Hv & Hm'). rewrite Hval in Hv. injection Hv as <-.
        by apply Hsrc.
      * destruct (Hnew m Hm) as [(e & He & Hreach) Hclosed]; [set_solver|].
        split; [|done]. exists val. split; [done|].
        eapply rtc_l; [|exact Hreach]. by exists edges.
Qed.

Lemma edgesLoop_fuel (rec : nat → gset nat → list nat → option (list nat * gset nat))
    (edges : list nat) (seen0 : gset nat) :
  (∀ e seen reports reports' seen', rec e seen reports = Some (reports', seen') →
     seen ⊆ seen') →
  (∀ e seen reports, seen0 ⊆ seen → rec e seen reports ≠ None) →
  ∀ seen reports, seen0 ⊆ seen → edgesLoop rec edges seen reports ≠ None.
Proof.
  intros Hgrow Hrec. induction edges as [|e rest IH]; intros seen reports Hsub; [done|].
  simpl. destruct (rec e seen reports) as [[reports1 seen1]|] eqn:Hcall.
  - apply IH. apply Hgrow in Hcall. set_solver.
  - by destruct (Hrec e seen reports).
Qed.

Lemma checkValue_fuel (fuel : nat) (val : nat) (seen : gset nat) (reports : list nat) :
  size (dom (Values prog) ∖ seen) < fuel →
  checkValue prog obj fuel val seen reports ≠ None.
Proof.
  revert val seen reports. induction fuel as [|fuel IH]; intros val seen reports Hsize;
    [lia|].
  rewrite checkValue_unfold.
  destruct (decide (val ∈ seen)) as [Hin|Hnin]; [done|].
  destruct (Values prog !! val) as [[edges|Fn|]|] eqn:Hval; try done.
  apply (edgesLoop_fuel _ _ ({[val]} ∪ seen)); [| |done].
  - intros e s r r' s' Hcall. by apply checkValue_post in Hcall as (? & _).
  - intros e s r Hsub. apply IH.
    assert (dom (Values prog) ∖ s ⊂ dom (Values prog) ∖ seen) as Hlt.
    { assert (val ∈ dom (Values prog)) by (apply elem_of_dom; by eexists). set_solver. }
    apply subset_size in Hlt. lia.
Qed.

Lemma checkValue_never_out_of_fuel (val : nat) :
  checkValue prog obj (depth prog) val ∅ [] ≠ None.
Proof.
  apply checkValue_fuel. unfold depth. rewrite difference_empty_L, size_dom. lia.
Qed.

(** The walk from a value reports the closures that are met from it
    and capture the object, each once. *)
Lemma checkValue_decides (val : nat) :
  ∃ reports seen,
    checkValue prog obj (depth prog) val ∅ [] = Some (reports, seen)
    ∧ NoDup reports
    ∧ ∀ v, v ∈ reports ↔ reaches val v ∧ capturing v.
Proof.
  destruct (checkValue prog obj (depth prog) val ∅ []) as [[reports seen]|] eqn:Hrun;
    [|by destruct (checkValue_never_out_of_fuel val)].
  exists reports, seen. split; [done|].
  apply checkValue_post in Hrun as (_ & Hsrc & (added & Heq & Hnd & Hadd) & Hnew).
  simpl in Heq. subst added. split; [done|].
  assert (∀ x y, edge x y → x ∈ seen → y ∈ seen) as Hclosed.
  { intros x y Hxy Hx. destruct (Hnew x Hx) as [_ Hc]; [set_solver|]. by apply Hc. }
  assert (∀ x v, rtc edge x v → x ∈ seen → v ∈ seen) as Hall.
  { intros x v Hreach. induction Hreach as [x|x y v Hxy _ IH]; [done|].
    intros Hx. apply IH. by eapply Hclosed. }
  intros v. rewrite Hadd. split.
  - intros (Hv & _ & Hc). split; [|done].
    by destruct (Hnew v Hv) as [(s & <- & Hreach) _]; [set_solver|].
  - intros [Hreach Hc]. split_and!; [|set_solver|done].
    apply (Hall val v Hreach). by apply Hsrc.
Qed.

(** X14.  At a call [runtime.SetFinalizer(x, fn)], with [x] an
    identifier and [fn] an identifier or a function literal that has
    an SSA value: the check returns, however the phis feed each other;
    it reports the closures that are met from the value of [fn]
    through operands of phis and whose function has [x] among its free
    variables, and reports each of them once. *)
Theorem finalizer_closures_reported (arg0value : option nat) (arg1 : Arg) (val : nat) :
  (arg1 = FuncLitArg (Some val) ∨ ∃ o, arg1 = IdentArg o (Some val)) →
  ∃ reports,
    CheckCyclicFinalizer prog true true [IdentArg obj arg0value; arg1] = Some reports
    ∧ NoDup reports
    ∧ ∀ v, v ∈ reports ↔ reaches val v ∧ capturing v.
Proof.
  intros Harg. destruct (checkValue_decides val) as (reports & seen & Hrun & Hnd & Hrep).
  exists reports. split; [|done].
  unfold CheckCyclicFinalizer.
  destruct Harg as [->|[o ->]]; by rewrite Hrun.
Qed.

End FinalizerFacts.

(** In [twoClosures] the closure 2 is reported, once, although the phi
    feeds itself. *)
Lemma finalizer_closures_reported_witness :
  ∃ reports,
    Finalizer.CheckCyclicFinalizer Finalizer.twoClosures true true
      [Finalizer.IdentArg (Some 7) None; Finalizer.IdentArg (Some 9) (Some 1)]
    = Some reports
    ∧ NoDup reports
    ∧ ∀ v, v ∈ reports ↔ Finalizer.reaches Finalizer.twoClosures 1 v
                         ∧ Finalizer.capturing Finalizer.twoClosures (Some 7) v.
Proof.
  apply (finalizer_closures_reported Finalizer.twoClosures (Some 7) None
           (Finalizer.IdentArg (Some 9) (Some 1)) 1).
  right. by exists (Some 9).
Defined.

Example twoClosures_reported :
  Finalizer.CheckCyclicFinalizer Finalizer.twoClosures true true
    [Finalizer.IdentArg (Some 7) None; Finalizer.IdentArg (Some 9) (Some 1)]
  = Some [2].
Proof. vm_compute. reflexivity. Qed.

(** ** Defers that never run, or run late *)

Section DefersFacts.
Import token Defers.

(** Induction over the tree, through the children of a node. *)
Lemma Defers_children_ind (P : Node → Prop) :
  (∀ n, Forall P (children n) → P n) → ∀ n, P n.
Proof.
  intros step. fix IH 1. intros n. apply step.
  assert (∀ l, Forall P l) as Hlist.
  { intros l. induction l; constructor; [apply IH|assumption]. }
  assert (∀ o : option Node, Forall P (option_list o)) as Hopt.
  { intros [c|]; simpl; [|constructor]. constructor; [apply IH|constructor]. }
  destruct n as [id init cond post body|id header typ body|id l|id tok|id l|id l|id l]; simpl.
  - repeat (apply Forall_app; split); [apply Hopt..|apply Hlist].
  - apply Forall_app. split; apply Hlist.
  - apply Hlist.
  - constructor.
  - apply Hlist.
  - apply Hlist.
  - apply Hlist.
Qed.

Lemma Defers_Inspect_unfold {S : Type} (f : Node → S → S * bool) (node : Node) (s : S) :
  Inspect f node s =
  match f node s with
  | (s', false) => s'
  | (s', true) => InspectList f (children node) s'
  end.
Proof.
  assert (∀ l s0,
    (fix all (l : list Node) (s : S) : S :=
       match l with
       | [] => s
       | n :: l' => all l' (Inspect f n s)
       end) l s0 = InspectList f l s0) as Hall.
  { induction l as [|n l IH]; intros s0; [done|]. simpl. by rewrite IH. }
  destruct node as [id init cond post body|id header typ body|id l|id tok|id l|id l|id l];
    simpl; destruct (f _ s) as [s' []]; try done; rewrite ?Hall; try done.
  - unfold InspectList. rewrite !foldl_app.
    by destruct init, cond, post.
  - unfold InspectList. by rewrite foldl_app.
Qed.

Lemma Defers_InspectList_cons {S : Type} (f : Node → S → S * bool) n l (s : S) :
  InspectList f (n :: l) s = InspectList f l (Inspect f n s).
Proof. done. Qed.

Lemma reached_inv (n m : Node) :
  reached n m ↔ m = n ∨ (¬ isFuncLit n ∧ ∃ c, c ∈ children n ∧ reached c m).
Proof.
  split.
  - intros [->|(c & [Hn Hc] & Hm)]%rtc_inv; [by left|]. right. eauto.
  - intros [->|(Hn & c & Hc & Hm)]; [apply rtc_refl|]. by eapply rtc_l.
Qed.

(** *** The walk that reports at every node *)

Section Reporting.
Variable fn : Node → list nat.

Lemma reportAt_list (l : list Node) :
  Forall (λ n, ∀ rs p, p ∈ Inspect (reportAt fn) n rs
                       ↔ p ∈ rs ∨ ∃ m, within n m ∧ p ∈ fn m) l →
  ∀ rs p, p ∈ InspectList (reportAt fn) l rs
          ↔ p ∈ rs ∨ ∃ s m, s ∈ l ∧ within s m ∧ p ∈ fn m.
Proof.
  induction 1 as [|n l Hn _ IH]; intros rs p.
  - simpl. split; [by left|]. by intros [?|(s & m & ?%elem_of_nil & _)].
  - rewrite Defers_InspectList_cons, IH, Hn. split.
    + intros [[?|(m & Hm & Hv)]|(s & m & Hs & Hm & Hv)]; [by left|right..].
      * exists n, m. split; [left|done].
      * exists s, m. split; [by right|done].
    + intros [?|(s & m & [->|Hs]%elem_of_cons & Hm & Hv)]; [by left; left| |].
      * left. right. eauto.
      * right. eauto.
Qed.

Lemma reportAt_node (n : Node) (rs : list nat) (p : nat) :
  p ∈ Inspect (reportAt fn) n rs ↔ p ∈ rs ∨ ∃ m, within n m ∧ p ∈ fn m.
Proof.
  revert rs p. induction n as [n IH] using Defers_children_ind. intros rs p.
  rewrite Defers_Inspect_unfold. unfold reportAt at 1.
  rewrite (reportAt_list _ IH), elem_of_app. split.
  - intros [[?|Hp]|(c & m & Hc & Hm & Hp)]; [by left|right..].
    + exists n. split; [apply rtc_refl|done].
    + exists m. split; [by eapply rtc_l|done].
  - intros [?|(m & Hm & Hp)]; [by left; left|].
    apply rtc_inv in Hm as [<-|(c & Hc & Hm)]; [by left; right|].
    right. eauto.
Qed.

Lemma reportAt_file (file : list Node) (p : nat) :
  p ∈ InspectList (reportAt fn) file [] ↔ ∃ s m, s ∈ file ∧ within s m ∧ p ∈ fn m.
Proof.
  rewrite reportAt_list.
  - split; [|by right]. by intros [?%elem_of_nil|?].
  - apply Forall_forall. intros n _. apply reportAt_node.
Qed.

End Reporting.

(** *** The walks that collect the defers *)

Lemma collectExits_list (l : list Node) :
  Forall (λ n, ∀ st,
            ((Inspect collectExits n st).1 = true
             ↔ st.1 = true ∨ ∃ m, reached n m ∧ isExit m)
            ∧ ∀ d, d ∈ (Inspect collectExits n st).2
                   ↔ d ∈ st.2 ∨ ∃ call, reached n (DeferStmt d call)) l →
  ∀ st,
    ((InspectList collectExits l st).1 = true
     ↔ st.1 = true ∨ ∃ s m, s ∈ l ∧ reached s m ∧ isExit m)
    ∧ ∀ d, d ∈ (InspectList collectExits l st).2
           ↔ d ∈ st.2 ∨ ∃ s call, s ∈ l ∧ reached s (DeferStmt d call).
Proof.
  induction 1 as [|n l Hn _ IH]; intros st.
  - simpl. split.
    + split; [by left|]. by intros [?|(s & m & ?%elem_of_nil & _)].
    + intros d. split; [by left|]. by intros [?|(s & m & ?%elem_of_nil & _)].
  - rewrite Defers_InspectList_cons.
    destruct (IH (Inspect collectExits n st)) as [IHe IHd].
    destruct (Hn st) as [Hne Hnd]. split.
    + rewrite IHe, Hne. split.
      * intros [[?|(m & Hm & Hx)]|(s & m & Hs & Hm & Hx)]; [by left|right..].
        -- exists n, m. split; [left|done].
        -- exists s, m. split; [by right|done].
      * intros [?|(s & m & [->|Hs]%elem_of_cons & Hm & Hx)]; [by left; left| |].
        -- left. right. eauto.
        -- right. eauto.
    + intros d. rewrite IHd, Hnd. split.
      * intros [[?|(call & Hm)]|(s & call & Hs & Hm)]; [by left|right..].
        -- exists n, call. split; [left|done].
        -- exists s, call. split; [by right|done].
      * intros [?|(s & call & [->|Hs]%elem_of_cons & Hm)]; [by left; left| |].
        -- left. right. eauto.
        -- right. eauto.
Qed.

Lemma collectExits_node (n : Node) (st : bool * list nat) :
  ((Inspect collectExits n st).1 = true
   ↔ st.1 = true ∨ ∃ m, reached n m ∧ isExit m)
  ∧ ∀ d, d ∈ (Inspect collectExits n st).2
         ↔ d ∈ st.2 ∨ ∃ call, reached n (DeferStmt d call).
Proof.
  revert st. induction n as [n IH] using Defers_children_ind. intros st.
  pose proof (collectExits_list _ IH) as IHl. clear IH.
  rewrite Defers_Inspect_unfold.
  assert (∀ st', (∀ c, c ∈ children n → True) → ¬ isFuncLit n →
            ((st'.1 = true ↔ st.1 = true ∨ isExit n)
             ∧ ∀ d, d ∈ st'.2 ↔ d ∈ st.2 ∨ ∃ call, n = DeferStmt d call) →
            ((InspectList collectExits (children n) st').1 = true
             ↔ st.1 = true ∨ ∃ m, reached n m ∧ isExit m)
            ∧ ∀ d, d ∈ (InspectList collectExits (children n) st').2
                   ↔ d ∈ st.2 ∨ ∃ call, reached n (DeferStmt d call)) as Hdescend.
  { intros st' _ Hnf [Hst'e Hst'd]. destruct (IHl st') as [IHe IHd]. split.
    - rewrite IHe, Hst'e. split.
      + intros [[?|Hx]|(c & m & Hc & Hm & Hx)]; [by left|right..].
        * exists n. split; [apply rtc_refl|done].
        * exists m. split; [|done]. apply reached_inv. right. eauto.
      + intros [?|(m & Hm & Hx)]; [by left; left|].
        apply reached_inv in Hm as [->|(_ & c & Hc & Hm)]; [by left; right|].
        right. eauto.
    - intros d. rewrite IHd, Hst'd. split.
      + intros [[?|[call ->]]|(c & call & Hc & Hm)]; [by left|right..].
        * exists call. apply rtc_refl.
        * exists call. apply reached_inv. right. eauto.
      + intros [?|(call & Hm)]; [by left; left|].
        apply reached_inv in Hm as [<-|(_ & c & Hc & Hm)]; [left; right; eauto|].
        right. eauto. }
  destruct n as [id init cond post body|id header typ body|id l|id tok|id l|id l|id l].
  - apply Hdescend; [done|by intros []|]. split.
    + split; [by left|]. by intros [?|[]].
    + intros d. split; [by left|]. by intros [?|[? ?]].
  - apply Hdescend; [done|by intros []|]. split.
    + split; [by left|]. by intros [?|[]].
    + intros d. split; [by left|]. by intros [?|[? ?]].
  - apply Hdescend; [done|by intros []|]. split.
    + simpl. split; [by right|done].
    + intros d. simpl. split; [by left|]. by intros [?|[? ?]].
  - destruct tok; (apply Hdescend; [done|by intros []|]); split;
      try (split; [by left|]; by intros [?|[]]);
      try (intros d; split; [by left|]; by intros [?|[? ?]]).
    simpl. split; [by right|done].
  - apply Hdescend; [done|by intros []|]. split.
    + simpl. split; [by left|]. by intros [?|[]].
    + intros d. simpl. rewrite elem_of_app, list_elem_of_singleton. split.
      * intros [?| ->]; [by left|right; by eexists].
      * intros [?|[call [= ->]]]; [by left|by right].
  - simpl. split.
    + split; [by left|]. intros [?|(m & Hm & Hx)]; [done|].
      apply reached_inv in Hm as [->|(Hnf & _)]; [done|]. by destruct Hnf.
    + intros d. split; [by left|]. intros [?|(call & Hm)]; [done|].
      apply reached_inv in Hm as [?|(Hnf & _)]; [done|]. by destruct Hnf.
  - apply Hdescend; [done|by intros []|]. split.
    + split; [by left|]. by intros [?|[]].
    + intros d. split; [by left|]. by intros [?|[? ?]].
Qed.

Lemma collectDefers_list (l : list Node) :
  Forall (λ n, ∀ ds d, d ∈ Inspect collectDefers n ds
                       ↔ d ∈ ds ∨ ∃ call, reached n (DeferStmt d call)) l →
  ∀ ds d, d ∈ InspectList collectDefers l ds
          ↔ d ∈ ds ∨ ∃ s call, s ∈ l ∧ reached s (DeferStmt d call).
Proof.
  induction 1 as [|n l Hn _ IH]; intros ds d.
  - simpl. split; [by left|]. by intros [?|(s & m & ?%elem_of_nil & _)].
  - rewrite Defers_InspectList_cons, IH, Hn. split.
    + intros [[?|(call & Hm)]|(s & call & Hs & Hm)]; [by left|right..].
      * exists n, call. split; [left|done].
      * exists s, call. split; [by right|done].
    + intros [?|(s & call & [->|Hs]%elem_of_cons & Hm)]; [by left; left| |].
      * left. right. eauto.
      * right. eauto.
Qed.

Lemma collectDefers_node (n : Node) (ds : list nat) (d : nat) :
  d ∈ Inspect collectDefers n ds ↔ d ∈ ds ∨ ∃ call, reached n (DeferStmt d call).
Proof.
  revert ds d. induction n as [n IH] using Defers_children_ind. intros ds d.
  pose proof (collectDefers_list _ IH) as IHl. clear IH.
  rewrite Defers_Inspect_unfold.
  assert (∀ ds', ¬ isFuncLit n →
            (d ∈ ds' ↔ d ∈ ds ∨ ∃ call, n = DeferStmt d call) →
            d ∈ InspectList collectDefers (children n) ds'
            ↔ d ∈ ds ∨ ∃ call, reached n (DeferStmt d call)) as Hdescend.
  { intros ds' Hnf Hds'. rewrite IHl, Hds'. split.
    - intros [[?|[call ->]]|(c & call & Hc & Hm)]; [by left|right..].
      + exists call. apply rtc_refl.
      + exists call. apply reached_inv. right. eauto.
    - intros [?|(call & Hm)]; [by left; left|].
      apply reached_inv in Hm as [<-|(_ & c & Hc & Hm)]; [left; right; eauto|].
      right. eauto. }
  destruct n as [id init cond post body|id header typ body|id l|id tok|id l|id l|id l];
    simpl.
  1-4,7: apply Hdescend; [by intros []|]; split; [by left|]; by intros [?|[? ?]].
  - apply Hdescend; [by intros []|].
    rewrite elem_of_app, list_elem_of_singleton. split.
    + intros [?| ->]; [by left|right; by eexists].
    + intros [?|[call [= ->]]]; [by left|by right].
  - split; [by left|]. intros [?|(call & Hm)]; [done|].
    apply reached_inv in Hm as [?|(Hnf & _)]; [done|]. by destruct Hnf.
Qed.

(** X15.  A defer is reported as never running exactly when the file
    holds a [for] loop without condition whose body holds the defer
    and holds no return and no break, function literals not being
    looked into: a defer in a function literal of the body is not
    reported for this loop, and a return or a break in one does not
    count as an exit. *)
Theorem defer_in_infinite_loop_reported_iff (file : list Node) (d : nat) :
  d ∈ CheckDeferInInfiniteLoop file
  ↔ ∃ s id init post body b call,
      s ∈ file ∧ within s (ForStmt id init None post body)
      ∧ b ∈ body ∧ reached b (DeferStmt d call)
      ∧ ∀ b' m, b' ∈ body → reached b' m → ¬ isExit m.
Proof.
  unfold CheckDeferInInfiniteLoop. rewrite reportAt_file.
  assert (∀ body,
            d ∈ (let st := InspectList collectExits body (false, []) in
                 if st.1 then [] else st.2)
            ↔ (∃ b call, b ∈ body ∧ reached b (DeferStmt d call))
              ∧ ∀ b' m, b' ∈ body → reached b' m → ¬ isExit m) as Hbody.
  { intros body.
    destruct (collectExits_list body) with (st := (false, @nil nat)) as [He Hd].
    { apply Forall_forall. intros n _. apply collectExits_node. }
    simpl. destruct (InspectList collectExits body (false, [])).1 eqn:Hexit.
    - split; [by intros ?%elem_of_nil|]. intros [_ Hno].
      destruct He as [He _]. destruct (He eq_refl) as [?|(b & m & Hb & Hm & Hx)]; [done|].
      by destruct (Hno b m).
    - rewrite Hd. split.
      + intros [?%elem_of_nil|Hdefer]; [done|]. split; [done|].
        intros b m Hb Hm Hx. destruct He as [_ He].
        assert (false = true) as Habs by (apply He; right; eauto). done.
      + intros [Hdefer _]. by right. }
  split.
  - intros (s & m & Hs & Hm & Hrep).
    destruct m as [id init [cond|] post body| | | | | | ]; try (by apply elem_of_nil in Hrep).
    apply Hbody in Hrep as [(b & call & Hb & Hdefer) Hno].
    exists s, id, init, post, body, b, call. done.
  - intros (s & id & init & post & body & b & call & Hs & Hm & Hb & Hdefer & Hno).
    exists s, (ForStmt id init None post body). split_and!; [done..|].
    apply Hbody. split; [|done]. eauto.
Qed.

(** X16.  A defer is reported as running late exactly when the file
    holds a [range] loop over a channel whose body holds the defer,
    function literals not being looked into. *)
Theorem defer_in_channel_range_reported_iff (file : list Node) (d : nat) :
  d ∈ CheckDubiousDeferInChannelRangeLoop file
  ↔ ∃ s id header body b call,
      s ∈ file ∧ within s (RangeStmt id header (Some Loop.Chan) body)
      ∧ b ∈ body ∧ reached b (DeferStmt d call).
Proof.
  unfold CheckDubiousDeferInChannelRangeLoop. rewrite reportAt_file.
  assert (∀ body, d ∈ InspectList collectDefers body []
                  ↔ ∃ b call, b ∈ body ∧ reached b (DeferStmt d call)) as Hbody.
  { intros body. rewrite collectDefers_list.
    - split; [|by right]. by intros [?%elem_of_nil|?].
    - apply Forall_forall. intros n _. apply collectDefers_node. }
  split.
  - intros (s & m & Hs & Hm & Hrep).
    destruct m as [|id header [[]|] body| | | | | ]; try (by apply elem_of_nil in Hrep).
    apply Hbody in Hrep as (b & call & Hb & Hdefer).
    exists s, id, header, body, b, call. done.
  - intros (s & id & header & body & b & call & Hs & Hm & Hb & Hdefer).
    exists s, (RangeStmt id header (Some Loop.Chan) body). split_and!; [done..|].
    apply Hbody. eauto.
Qed.

(** The defer of the inner loop of [nestedDefers] stands in two loops
    without exit, and is reported for each. *)
Example nested_defer_reported_twice :
  CheckDeferInInfiniteLoop nestedDefers = [2; 5; 5].
Proof. reflexivity. Qed.

End DefersFacts.

(** ** Unmarshalling into a value that is not a pointer *)

Section UnmarshalFacts.
Import Unmarshal.
Variable info : Info.

Lemma Unmarshal_children_ind (P : Node → Prop) :
  (∀ n, Forall P (children n) → P n) → ∀ n, P n.
Proof.
  intros step. fix IH 1. intros n. apply step.
  assert (∀ l, Forall P l) as Hlist.
  { intros l. induction l; constructor; [apply IH|assumption]. }
  destruct n as [id fn args|id x sel|id l]; simpl.
  - constructor; [apply IH|apply Hlist].
  - constructor; [apply IH|constructor].
  - apply Hlist.
Qed.

Lemma Unmarshal_Inspect_unfold {S : Type} (f : Node → S → S * bool) (node : Node) (s : S) :
  Inspect f node s =
  match f node s with
  | (s', false) => s'
  | (s', true) => InspectList f (children node) s'
  end.
Proof.
  assert (∀ l s0,
    (fix all (l : list Node) (s : S) : S :=
       match l with
       | [] => s
       | n :: l' => all l' (Inspect f n s)
       end) l s0 = InspectList f l s0) as Hall.
  { induction l as [|n l IH]; intros s0; [done|]. simpl. by rewrite IH. }
  destruct node as [id fn args|id x sel|id l];
    simpl; destruct (f _ s) as [s' []]; try done; by rewrite ?Hall.
Qed.

Lemma examined_inv (n m : Node) :
  examined n m ↔ m = n ∨ (¬ plainCall n ∧ ∃ c, c ∈ children n ∧ examined c m).
Proof.
  split.
  - intros [->|(c & [Hn Hc] & Hm)]%rtc_inv; [by left|]. right. eauto.
  - intros [->|(Hn & c & Hc & Hm)]; [apply rtc_refl|]. by eapply rtc_l.
Qed.

Lemma unmarshalPointer_descends (n : Node) :
  (unmarshalPointer info n).2 = true ↔ ¬ plainCall n.
Proof.
  destruct n as [id [idf fn' args'|idf x sel|idf l] args|id x sel|id l];
    cbn -[isFunctionCallNameAny];
    try (split; [by intros ? []|done]); try (split; [done|by intros []]).
  destruct (last args) as [arg|]; [|by split; [intros _ []|]].
  destruct (isFunctionCallNameAny info _ names); [|by split; [intros _ []|]].
  by destruct (TypeOf info !! nodeId arg) as [[]|]; (split; [intros _ []|]).
Qed.

Lemma unmarshalPointer_problem (n : Node) (p : nat) :
  (unmarshalPointer info n).1 = Problem p
  ↔ ∃ arg, unmarshals info n arg ∧ nodeId arg = p
           ∧ TypeOf info !! p = Some OtherType.
Proof.
  split.
  - destruct n as [id [idf fn' args'|idf x sel|idf l] args|id x sel|id l];
      cbn -[isFunctionCallNameAny]; try done.
    destruct (last args) as [arg|] eqn:Hlast; [|done].
    destruct (isFunctionCallNameAny info _ names) eqn:Hname; [|done].
    destruct (TypeOf info !! nodeId arg) as [[]|] eqn:Htyp; try done.
    intros [= <-]. exists arg. split_and!; [|done..].
    apply existsb_exists in Hname as (name & Hin%list_elem_of_In & Hn%bool_decide_eq_true).
    by exists id, idf, x, sel, args, name.
  - intros (arg & (id & idf & X & Sel & args & name & -> & Hlast & Hin & Hname) & <- & Htyp).
    cbn -[isFunctionCallNameAny]. rewrite Hlast.
    assert (isFunctionCallNameAny info (CallExpr id (SelectorExpr idf X Sel) args) names
            = true) as ->.
    { apply existsb_exists. exists name. split; [by apply list_elem_of_In|].
      by apply bool_decide_eq_true. }
    by rewrite Htyp.
Qed.

Lemma unmarshalPointer_panics (n : Node) :
  (unmarshalPointer info n).1 = Panics
  ↔ ∃ arg, unmarshals info n arg ∧ TypeOf info !! nodeId arg = None.
Proof.
  split.
  - destruct n as [id [idf fn' args'|idf x sel|idf l] args|id x sel|id l];
      cbn -[isFunctionCallNameAny]; try done.
    destruct (last args) as [arg|] eqn:Hlast; [|done].
    destruct (isFunctionCallNameAny info _ names) eqn:Hname; [|done].
    destruct (TypeOf info !! nodeId arg) as [[]|] eqn:Htyp; try done.
    intros _. exists arg. split; [|done].
    apply existsb_exists in Hname as (name & Hin%list_elem_of_In & Hn%bool_decide_eq_true).
    by exists id, idf, x, sel, args, name.
  - intros (arg & (id & idf & X & Sel & args & name & -> & Hlast & Hin & Hname) & Htyp).
    cbn -[isFunctionCallNameAny]. rewrite Hlast.
    assert (isFunctionCallNameAny info (CallExpr id (SelectorExpr idf X Sel) args) names
            = true) as ->.
    { apply existsb_exists. exists name. split; [by apply list_elem_of_In|].
      by apply bool_decide_eq_true. }
    by rewrite Htyp.
Qed.

Lemma visit_list (l : list Node) :
  Forall (λ n, ∀ rs, safeFrom info n →
            ∃ added, Inspect (visit info) n (Some rs) = Some (rs ++ added)
              ∧ ∀ p, p ∈ added
                  ↔ ∃ m, examined n m ∧ (unmarshalPointer info m).1 = Problem p) l →
  ∀ rs, (∀ s, s ∈ l → safeFrom info s) →
    ∃ added, InspectList (visit info) l (Some rs) = Some (rs ++ added)
      ∧ ∀ p, p ∈ added
          ↔ ∃ s m, s ∈ l ∧ examined s m ∧ (unmarshalPointer info m).1 = Problem p.
Proof.
  induction 1 as [|n l Hn _ IH]; intros rs Hsafe.
  - exists []. simpl. rewrite app_nil_r. split; [done|].
    intros p. split; [by intros ?%elem_of_nil|]. by intros (s & m & ?%elem_of_nil & _).
  - destruct (Hn rs) as (added1 & Hrun1 & Hadd1); [apply Hsafe; left|].
    destruct (IH (rs ++ added1)) as (added2 & Hrun2 & Hadd2).
    { intros s Hs. apply Hsafe. by right. }
    exists (added1 ++ added2). split.
    + change (InspectList (visit info) (n :: l) (Some rs))
        with (InspectList (visit info) l (Inspect (visit info) n (Some rs))).
      by rewrite Hrun1, Hrun2, app_assoc.
    + intros p. rewrite elem_of_app, Hadd1, Hadd2. split.
      * intros [(m & Hm & Hp)|(s & m & Hs & Hm & Hp)].
        -- exists n, m. split; [left|done].
        -- exists s, m. split; [by right|done].
      * intros (s & m & [->|Hs]%elem_of_cons & Hm & Hp); [left|right]; eauto.
Qed.

Lemma visit_node (n : Node) (rs : list nat) :
  safeFrom info n →
  ∃ added, Inspect (visit info) n (Some rs) = Some (rs ++ added)
    ∧ ∀ p, p ∈ added
        ↔ ∃ m, examined n m ∧ (unmarshalPointer info m).1 = Problem p.
Proof.
  revert rs. induction n as [n IH] using Unmarshal_children_ind. intros rs Hsafe.
  pose proof (visit_list _ IH) as IHl. clear IH.
  rewrite Unmarshal_Inspect_unfold. unfold visit at 1.
  pose proof (Hsafe n (rtc_refl _ _)) as Hn.
  pose proof (unmarshalPointer_descends n) as Hdesc.
  destruct (unmarshalPointer info n) as [o d] eqn:Hcb. simpl in *.
  assert (∀ own, (∀ p, p ∈ own ↔ o = Problem p) →
            ∃ added,
              (if d then InspectList (visit info) (children n) (Some (rs ++ own))
               else Some (rs ++ own)) = Some (rs ++ added)
              ∧ ∀ p, p ∈ added
                  ↔ ∃ m, examined n m ∧ (unmarshalPointer info m).1 = Problem p) as Hgoal.
  { intros own Hown. destruct d.
    - destruct (IHl (rs ++ own)) as (added & Hrun & Hadd).
      { intros c Hc m Hm. apply Hsafe, examined_inv. right.
        split; [by apply Hdesc|]. eauto. }
      exists (own ++ added). split; [by rewrite Hrun, app_assoc|].
      intros p. rewrite elem_of_app, Hown, Hadd. split.
      + intros [Ho|(c & m & Hc & Hm & Hp)].
        * exists n. split; [apply rtc_refl|]. by rewrite Hcb.
        * exists m. split; [|done]. apply examined_inv. right.
          split; [by apply Hdesc|]. eauto.
      + intros (m & Hm & Hp). apply examined_inv in Hm as [->|(_ & c & Hc & Hm)].
        * left. by rewrite Hcb in Hp.
        * right. eauto.
    - exists own. split; [done|]. intros p. rewrite Hown. split.
      + intros Ho. exists n. split; [apply rtc_refl|]. by rewrite Hcb.
      + intros (m & Hm & Hp). apply examined_inv in Hm as [->|(Hnp & _)].
        * by rewrite Hcb in Hp.
        * apply Hdesc in Hnp. done. }
  destruct o as [|arg|]; [| |done].
  - destruct (Hgoal []) as (added & Hrun & Hadd).
    { intros p. split; [by intros ?%elem_of_nil|done]. }
    rewrite app_nil_r in Hrun. exists added. by destruct d.
  - destruct (Hgoal [arg]) as (added & Hrun & Hadd).
    { intros p. rewrite list_elem_of_singleton. split; [by intros ->|by intros [= ->]]. }
    exists added. by destruct d.
Qed.

(** X17.  When the last argument of every call of an unmarshalling
    function that the walk gets to has a type, the check returns, and
    it reports an argument exactly when the walk gets to a call of one
    of the four functions of [names] whose last argument it is, and
    the underlying type of the argument is neither a pointer nor an
    interface.  The walk does not look into a call whose function is
    not a selector expression: nothing is reported for the arguments
    of a call [f(...)], nor for the body of a function literal that is
    called in place. *)
Theorem unmarshal_reported_iff (file : list Node) :
  (∀ s m arg, s ∈ file → examined s m → unmarshals info m arg →
     is_Some (TypeOf info !! nodeId arg)) →
  ∃ problems,
    CheckUnmarshalPointer info file = Some problems
    ∧ (∀ p, p ∈ problems
         ↔ ∃ s m arg, s ∈ file ∧ examined s m ∧ unmarshals info m arg
                      ∧ nodeId arg = p ∧ TypeOf info !! p = Some OtherType)
    ∧ ((∀ s, s ∈ file → plainCall s) → problems = []).
Proof.
  intros Htyped.
  destruct (visit_list file) with (rs := @nil nat) as (problems & Hrun & Hrep).
  - apply Forall_forall. intros n _ rs. apply visit_node.
  - intros s Hs m Hm (arg & Hu & Hnone)%unmarshalPointer_panics.
    destruct (Htyped s m arg Hs Hm Hu) as [t Ht]. congruence.
  - exists problems. split; [done|]. split.
    + intros p. rewrite Hrep. split.
      * intros (s & m & Hs & Hm & (arg & Hu & Hp & Ht)%unmarshalPointer_problem).
        by exists s, m, arg.
      * intros (s & m & arg & Hs & Hm & Hu & Hp & Ht). exists s, m.
        split_and!; [done..|]. apply unmarshalPointer_problem. by exists arg.
    + intros Hplain. destruct problems as [|p rest]; [done|].
      assert (p ∈ p :: rest) as (s & m & Hs & Hm & Hp)%Hrep by left.
      apply examined_inv in Hm as [->|(Hnp & _)].
      * pose proof (Hplain s Hs) as Hpl.
        apply unmarshalPointer_problem in Hp as (arg & (? & ? & ? & ? & ? & ? & -> & _) & _).
        done.
      * exfalso. apply Hnp, Hplain, Hs.
Qed.

End UnmarshalFacts.

(** [json.Unmarshal(data, v)] with [v] a struct is reported as a
    statement of its own, and is not in the body of a function literal
    that is called in place. *)
Lemma unmarshal_reported_iff_witness :
  Unmarshal.CheckUnmarshalPointer Unmarshal.jsonInfo [Unmarshal.unmarshalCall] = Some [6]
  ∧ ∃ problems,
      Unmarshal.CheckUnmarshalPointer Unmarshal.jsonInfo [Unmarshal.calledInPlace]
      = Some problems
      ∧ problems = [].
Proof.
  split; [reflexivity|].
  destruct (unmarshal_reported_iff Unmarshal.jsonInfo [Unmarshal.calledInPlace])
    as (problems & Hrun & _ & Hplain).
  - intros s m arg ->%list_elem_of_singleton Hm (? & ? & ? & ? & ? & ? & -> & _).
    apply rtc_inv in Hm as [?|(c & [Hnp _] & _)]; [done|]. by destruct Hnp.
  - exists problems. split; [exact Hrun|]. apply Hplain.
    by intros s ->%list_elem_of_singleton.
Defined.
